(** * Syndi: feed resolution and aggregation (src/core/Utilities.ts)

    A shallow embedding of the functions of [namespace Syndi] and of the
    parts of the browser they drive: JavaScript strings, the fetch
    transport, and a DOM heap in which nodes have an identity. *)

From stdpp Require Import gmap strings list fin_maps pretty.

Local Open Scope Z_scope.

(** ** JavaScript strings

    A JavaScript string is a sequence of UTF-16 code units (numbers below
    65536); [length] on it is what [String.prototype.length] returns. *)

Abbreviation jsstring := (list N).

(** The string whose code units are the bytes of an ASCII literal. *)
Definition js (s : string) : jsstring :=
  Ascii.N_of_ascii <$> String.list_ascii_of_string s.

Module JsString.

(** [s.split(sep)] for a separator of one code unit: the pieces between
    the separators, the empty string giving one empty piece. *)
Fixpoint split (sep : N) (s : jsstring) : list jsstring :=
  match s with
  | [] => [[]]
  | c :: rest =>
      if (c =? sep)%N then [] :: split sep rest
      else match split sep rest with
           | piece :: pieces => (c :: piece) :: pieces
           | [] => [[c]]
           end
  end.

(** [pieces.join(sep)] for a separator of one code unit. *)
Definition join (sep : N) (pieces : list jsstring) : jsstring :=
  match pieces with
  | [] => []
  | p :: ps => p ++ flat_map (λ q, sep :: q) ps
  end.

(** WhiteSpace and LineTerminator code units of ECMAScript, the ones
    [trim] strips. *)
Definition isWhiteSpace (u : N) : bool :=
  bool_decide (u ∈ [9; 10; 11; 12; 13; 32; 160; 5760; 8232; 8233; 8239;
                    8287; 12288; 65279]%N)
  || ((8192 <=? u)%N && (u <=? 8202)%N).

Fixpoint trimStart (s : jsstring) : jsstring :=
  match s with
  | c :: rest => if isWhiteSpace c then trimStart rest else s
  | [] => []
  end.

Definition trimEnd (s : jsstring) : jsstring :=
  reverse (trimStart (reverse s)).

Definition trim (s : jsstring) : jsstring := trimEnd (trimStart s).

(** [s.startsWith(p)] *)
Fixpoint startsWith (s p : jsstring) {struct p} : bool :=
  match p, s with
  | [], _ => true
  | a :: p', b :: s' => (a =? b)%N && startsWith s' p'
  | _ :: _, [] => false
  end.

(** ASCII lower-casing, the part of [toLowerCase] fixed on every host. *)
Definition asciiLower (u : N) : N :=
  if ((65 <=? u) && (u <=? 90))%N then (u + 32)%N else u.

Definition isAscii (s : jsstring) : Prop := Forall (λ u, (u < 128)%N) s.

(** Number of bytes of the UTF-8 encoding of a string (what a
    [TextEncoder] produces: a surrogate pair is one four-byte sequence,
    a lone surrogate is replaced by U+FFFD, three bytes). *)
Fixpoint utf8ByteLength (s : jsstring) : nat :=
  match s with
  | [] => 0
  | u :: rest =>
      if (u <? 128)%N then S (utf8ByteLength rest)
      else if (u <? 2048)%N then 2 + utf8ByteLength rest
      else if ((55296 <=? u) && (u <? 56320))%N then
        match rest with
        | v :: rest' =>
            if ((56320 <=? v) && (v <? 57344))%N
            then 4 + utf8ByteLength rest'
            else 3 + utf8ByteLength rest
        | [] => 3
        end
      else 3 + utf8ByteLength rest
  end%nat.

End JsString.

(** [String(n)] of a safe integer, one of magnitude at most
    [Number.MAX_SAFE_INTEGER]: its decimal digits. Beyond that magnitude
    the engine prints the digits of the nearest double, with an exponent
    from 10^21 on, and this definition does not say what it prints:
    statements about the printed number carry the bound. *)
Definition MAX_SAFE_INTEGER : Z := 9007199254740991.

Definition Number_toString (n : Z) : jsstring := js (pretty n).

(** ** Collaborators that are not part of the repository's sources *)

(** The reference resolver, [namespace Url]. Its functions are used by
    the code as total string functions; nothing else is assumed. *)
Module Url.
Class Api := {
  resolve : jsstring → jsstring → jsstring;
  folderOf : jsstring → jsstring;
  getCurrent : jsstring;
}.
End Url.

(** Host functions of the JavaScript engine: [new URL(rel, base).toString()]
    ([None] when the constructor throws a TypeError) and
    [String.prototype.toLowerCase], of which only the ASCII behaviour is
    fixed here. *)
Class Host := {
  URL_new : jsstring → jsstring → option jsstring;
  toLowerCase : jsstring → jsstring;
  toLowerCase_ascii s :
    JsString.isAscii s → toLowerCase s = JsString.asciiLower <$> s;
}.

(** Response headers, seen through [Headers.prototype.get]. *)
Definition Headers := jsstring → option jsstring.

(** What [window.fetch] does with a request: the promise rejects, or a
    response arrives with its [ok] flag, headers and body text ([None] when
    reading the body with [text()] fails). *)
Inductive FetchOutcome :=
| FetchRejected
| FetchResponse (ok : bool) (hdrs : Headers) (body : option jsstring).

(** The network is a state [W] that every request may change. *)
Class Transport (W : Type) := {
  window_fetch :
    jsstring → list (jsstring * jsstring) → W → FetchOutcome * W;
}.

(** A function either returns a value or throws. *)
Inductive Outcome (A : Type) :=
| Returned (a : A)
| Threw.
Arguments Returned {A} a.
Arguments Threw {A}.

(** ** Generic: getHttpContent *)

Record HttpContent := { headers : Headers; text : jsstring }.

Section Generic.
Context `{Url.Api} {W : Type} `{Transport W}.

(** The outer [try] turns a rejected fetch into [null], the check of
    [ok] a failure status, and the inner [try] a body that cannot be
    read. The starting byte is an integer; the text of the [range]
    header is right for the safe integers, see [Number_toString]. *)
Definition getHttpContent (relativeUri : jsstring) (startingByte : Z)
    (w : W) : option HttpContent * W :=
  let relativeUri := Url.resolve relativeUri Url.getCurrent in
  let headers :=
    [(js "pragma", js "no-cache"); (js "cache-control", js "no-cache")] in
  let headers :=
    if 0 <? startingByte
    then headers ++
         [(js "range", js "bytes=" ++ Number_toString startingByte ++ js "-")]
    else headers in
  match window_fetch relativeUri headers w with
  | (FetchRejected, w') => (None, w')
  | (FetchResponse ok hdrs body, w') =>
      if negb ok then (None, w')
      else match body with
           | None => (None, w')
           | Some text => (Some {| headers := hdrs; text := text |}, w')
           end
  end.

End Generic.

(** ** Feeds: getFeedFromUrl *)

Record FeedRead := { urls : list jsstring; bytesRead : Z }.

Section Feeds.
Context `{Url.Api} {W : Type} `{Transport W}.

(** The media type of a response: the [Content-Type] header up to its
    first semicolon. *)
Definition mediaType (r : HttpContent) : jsstring :=
  hd [] (JsString.split 59 (default [] (headers r (js "Content-Type")))).

(** The pipeline that turns the body text into the feed's URLs:
    [split], [map(trim)], the two [filter]s, [map(resolve)]. *)
Definition feedLines (feedUrl text : jsstring) : list jsstring :=
  (λ s, Url.resolve s (Url.folderOf feedUrl)) <$>
  filter (λ s, JsString.startsWith s (js "#") = false)
    (filter (λ s, s ≠ [])
       (JsString.trim <$> JsString.split 10 text)).

(** The message the function writes with [console.error] for a wrong
    media type is not part of its result and is left out. *)
Definition getFeedFromUrl (feedUrl : jsstring) (startingByte : Z)
    (w : W) : FeedRead * W :=
  let '(fetchResult, w') := getHttpContent feedUrl startingByte w in
  match fetchResult with
  | None => ({| urls := []; bytesRead := -1 |}, w')
  | Some r =>
      if bool_decide (mediaType r ≠ js "text/plain")
      then ({| urls := []; bytesRead := -1 |}, w')
      else ({| urls := feedLines feedUrl (text r);
               bytesRead := Z.of_nat (length (text r)) |}, w')
  end.

End Feeds.

(** ** Elements as the code reads them *)

Record Element := {
  nodeName : jsstring;
  attributes : gmap jsstring jsstring;
}.

(** [element.getAttribute(name)], [None] for JavaScript's [null]. *)
Definition getAttribute (e : Element) (name : jsstring) : option jsstring :=
  attributes e !! name.

(** [a || b] on strings: the empty string is the only falsy one. *)
Definition orElse (a b : jsstring) : jsstring :=
  match a with [] => b | _ :: _ => a end.

(** [!!s] on a string. *)
Definition truthy (s : jsstring) : bool :=
  match s with [] => false | _ :: _ => true end.

(** Modelled from the spec: [ForeignDocumentReader] is not among the
    sources. Section 6 of the specification describes its streaming scan,
    which "invokes visitor(node) for every element encountered"; the
    reader is therefore the sequence of elements it hands to the function
    registered with [trapElement], in the order it meets them. *)
Class ForeignDocumentReader := {
  trapElement : jsstring → list Element;
}.

(** ** Feeds: getFeedMetaData *)

Record FeedMetaData := { description : jsstring; icon : jsstring }.

(** The four variables the trap function of [getFeedMetaData] assigns. *)
Record Trapped := {
  standardDescription : jsstring;
  feedDescription : jsstring;
  standardIcon : jsstring;
  feedIcon : jsstring;
}.

Definition trap (t : Trapped) (element : Element) : Trapped :=
  if decide (nodeName element = js "meta") then
    let name := getAttribute element (js "name") in
    if decide (name = Some (js "feed-description")) then
      {| standardDescription := standardDescription t;
         feedDescription := default [] (getAttribute element (js "content"));
         standardIcon := standardIcon t;
         feedIcon := feedIcon t |}
    else if decide (name = Some (js "description")) then
      {| standardDescription := default [] (getAttribute element (js "content"));
         feedDescription := feedDescription t;
         standardIcon := standardIcon t;
         feedIcon := feedIcon t |}
    else t
  else if decide (nodeName element = js "link") then
    let rel := getAttribute element (js "rel") in
    if decide (rel = Some (js "feed-icon")) then
      {| standardDescription := standardDescription t;
         feedDescription := feedDescription t;
         standardIcon := standardIcon t;
         feedIcon := default [] (getAttribute element (js "href")) |}
    else if decide (rel = Some (js "icon")) then
      {| standardDescription := standardDescription t;
         feedDescription := feedDescription t;
         standardIcon := default [] (getAttribute element (js "href"));
         feedIcon := feedIcon t |}
    else t
  else t.

Definition trapAll (elements : list Element) : Trapped :=
  foldl trap
    {| standardDescription := []; feedDescription := [];
       standardIcon := []; feedIcon := [] |}
    elements.

Section MetaData.
Context `{Url.Api} `{Host} `{ForeignDocumentReader}
        {W : Type} `{Transport W}.

(** What one iteration of the loop finds in a fetched document: the
    metadata it would return, or nothing. *)
Definition metaDataIn (htmlContent : jsstring) : option FeedMetaData :=
  let t := trapAll (trapElement htmlContent) in
  let description := orElse (feedDescription t) (standardDescription t) in
  let icon := orElse (feedIcon t) (standardIcon t) in
  if truthy description || truthy icon
  then Some {| description := description; icon := icon |}
  else None.

Definition metaDataAt (httpContent : option HttpContent)
    : option FeedMetaData :=
  httpContent ≫= λ c, metaDataIn (text c).

(** The loop [for (let safety = 1000; safety-- > 0;)], by recursion on
    the iterations that remain. *)
Fixpoint upscan (safety : nat) (currentUrl : jsstring) (w : W)
    : Outcome (option FeedMetaData) * W :=
  match safety with
  | O => (Returned None, w)
  | S safety =>
      let '(httpContent, w) := getHttpContent currentUrl 0 w in
      match metaDataAt httpContent with
      | Some found => (Returned (Some found), w)
      | None =>
          match URL_new (js "..") currentUrl with
          | None => (Threw, w)
          | Some url =>
              if decide (currentUrl = url) then (Returned None, w)
              else upscan safety url w
          end
      end
  end.

Definition getFeedMetaData (feedUrl : jsstring) (w : W)
    : Outcome (option FeedMetaData) * W :=
  upscan 1000 (Url.folderOf feedUrl) w.

End MetaData.

(** ** The DOM heap

    Nodes have an identity. The tree structure of every document, shadow
    tree and detached subtree is kept in a forest of node identities; what
    an element node is (its name and attributes) is kept in a map from
    identities. Holding a node is holding its identity, so two holders of
    the same node see each other's changes. *)

Abbreviation NodeId := positive.

Local Set Warnings "-register-all".

Inductive Tree := Node (id : NodeId) (childNodes : list Tree).

Definition rootOf (t : Tree) : NodeId := match t with Node id _ => id end.
Definition kidsOf (t : Tree) : list Tree := match t with Node _ ks => ks end.

Record Dom := {
  forest : list Tree;
  elementOf : gmap NodeId Element;
  shadowRootOf : gmap NodeId NodeId;
}.

(** Identities of a tree, in document order. *)
Fixpoint treeIds (t : Tree) : list NodeId :=
  match t with Node id ks => id :: flat_map treeIds ks end.

Definition forestIds (ts : list Tree) : list NodeId := flat_map treeIds ts.

(** The first subtree, in document order, whose root is [n]. *)
Fixpoint subtreeIn (n : NodeId) (t : Tree) : option Tree :=
  match t with
  | Node id ks =>
      if decide (id = n) then Some t
      else (fix first (ks : list Tree) : option Tree :=
              match ks with
              | [] => None
              | k :: ks' =>
                  match subtreeIn n k with
                  | Some s => Some s
                  | None => first ks'
                  end
              end) ks
  end.

Fixpoint subtreeAt (n : NodeId) (ts : list Tree) : option Tree :=
  match ts with
  | [] => None
  | t :: ts' =>
      match subtreeIn n t with
      | Some s => Some s
      | None => subtreeAt n ts'
      end
  end.

(** A tree without the subtrees rooted at [n]; nothing is left of a tree
    whose own root is [n]. *)
Fixpoint pruneTree (n : NodeId) (t : Tree) : option Tree :=
  match t with
  | Node id ks =>
      if decide (id = n) then None
      else Some (Node id (omap (pruneTree n) ks))
  end.

Definition removeNode (n : NodeId) (ts : list Tree) : list Tree :=
  omap (pruneTree n) ts.

(** [kids] added after the last child of the node [p]. *)
Fixpoint appendKids (p : NodeId) (kids : list Tree) (t : Tree) : Tree :=
  match t with
  | Node id ks =>
      Node id ((appendKids p kids <$> ks) ++ (if decide (id = p) then kids else []))
  end.

(** The nodes below the root of a tree, in document order, each with its
    parent. *)
Fixpoint descendantPairs (t : Tree) : list (NodeId * NodeId) :=
  match t with
  | Node id ks => flat_map (λ k, (rootOf k, id) :: descendantPairs k) ks
  end.

Definition allIds (d : Dom) : gset NodeId :=
  dom (elementOf d) ∪ list_to_set (forestIds (forest d)).

(** A node created by the document is a new identity, detached: a tree of
    its own in the forest. *)
Definition newNode (d : Dom) : NodeId := fresh (allIds d).

Definition createElementWith (e : Element) (d : Dom) : NodeId * Dom :=
  let id := newNode d in
  (id, {| forest := forest d ++ [Node id []];
          elementOf := <[id := e]> (elementOf d);
          shadowRootOf := shadowRootOf d |}).

(** [document.createElement(name)]: an HTML element reports its name in
    upper case. *)
Definition createElement (upperName : jsstring) (d : Dom) : NodeId * Dom :=
  createElementWith {| nodeName := upperName; attributes := ∅ |} d.

(** [host.attachShadow({ mode: "open" })]: a new shadow root, which is a
    node but not an element. *)
Definition attachShadow (host : NodeId) (d : Dom) : NodeId * Dom :=
  let id := newNode d in
  (id, {| forest := forest d ++ [Node id []];
          elementOf := elementOf d;
          shadowRootOf := <[host := id]> (shadowRootOf d) |}).

(** One step of [parent.append(...nodes)]: the DOM first gathers the nodes
    in a document fragment, and inserting a node anywhere removes it,
    with everything below it, from where it was. *)
Definition moveInto (acc : list Tree * list Tree) (n : NodeId)
    : list Tree * list Tree :=
  let '(fragment, rest) := acc in
  match subtreeAt n (fragment ++ rest) with
  | Some t => (removeNode n fragment ++ [t], removeNode n rest)
  | None => (fragment, rest)
  end.

Definition gather (nodes : list NodeId) (ts : list Tree)
    : list Tree * list Tree :=
  foldl moveInto ([], ts) nodes.

(** [parent.append(...nodes)] *)
Definition append (parent : NodeId) (nodes : list NodeId) (d : Dom) : Dom :=
  let '(fragment, rest) := gather nodes (forest d) in
  {| forest := appendKids parent fragment <$> rest;
     elementOf := elementOf d;
     shadowRootOf := shadowRootOf d |}.

(** ** Selectors

    The selectors the code passes to [querySelectorAll]. The elements of
    the heap report [nodeName] as the DOM does (upper case for the HTML
    elements of an HTML document), and the code writes its type selectors
    in upper case, so a type selector matches an element with that
    [nodeName]. *)

Inductive Compound :=
| TypeSel (tag : jsstring)
| TypeAttr (tag attr : jsstring)
| TypeAttrIs (tag attr value : jsstring).

Inductive Complex :=
| Self (c : Compound)
| ChildOf (parent c : Compound).

Definition Selector := list Complex.

(** HTML compares the values of a fixed list of attributes without regard
    to ASCII case in selectors; [rel] is one of them, and the only one the
    selectors of this code give a value for. *)
Definition attrValueIs (attr v value : jsstring) : bool :=
  if decide (attr = js "rel")
  then bool_decide (JsString.asciiLower <$> v = JsString.asciiLower <$> value)
  else bool_decide (v = value).

Definition matchesCompound (e : Element) (c : Compound) : bool :=
  match c with
  | TypeSel tag => bool_decide (nodeName e = tag)
  | TypeAttr tag attr =>
      bool_decide (nodeName e = tag) && bool_decide (is_Some (getAttribute e attr))
  | TypeAttrIs tag attr value =>
      bool_decide (nodeName e = tag) &&
      match getAttribute e attr with
      | Some v => attrValueIs attr v value
      | None => false
      end
  end.

Definition isElementMatching (d : Dom) (n : NodeId) (c : Compound) : bool :=
  match elementOf d !! n with
  | Some e => matchesCompound e c
  | None => false
  end.

Definition matchesComplex (d : Dom) (np : NodeId * NodeId) (c : Complex)
    : bool :=
  match c with
  | Self c => isElementMatching d np.1 c
  | ChildOf pc c => isElementMatching d np.1 c && isElementMatching d np.2 pc
  end.

Definition matchesSelector (d : Dom) (sel : Selector) (np : NodeId * NodeId)
    : bool :=
  existsb (matchesComplex d np) sel.

(** [getElements(selector, container)]: the matching nodes below the
    container, in document order. *)
Definition getElements (selector : Selector) (container : NodeId) (d : Dom)
    : list NodeId :=
  match subtreeAt container (forest d) with
  | Some t =>
      (filter (λ np, matchesSelector d selector np = true)
         (descendantPairs t)).*1
  | None => []
  end.

(** "LINK[href], A[href], IMG[src], FORM[action], SCRIPT[src]" *)
Definition selReferences : Selector :=
  [ Self (TypeAttr (js "LINK") (js "href"));
    Self (TypeAttr (js "A") (js "href"));
    Self (TypeAttr (js "IMG") (js "src"));
    Self (TypeAttr (js "FORM") (js "action"));
    Self (TypeAttr (js "SCRIPT") (js "src")) ].

(** "BODY > SECTION" *)
Definition selBodySections : Selector :=
  [ ChildOf (TypeSel (js "BODY")) (TypeSel (js "SECTION")) ].

(** "LINK[rel=feed]" *)
Definition selFeedLinks : Selector :=
  [ Self (TypeAttrIs (js "LINK") (js "rel") (js "feed")) ].

(** "LINK, STYLE" *)
Definition selLinksAndStyles : Selector :=
  [ Self (TypeSel (js "LINK")); Self (TypeSel (js "STYLE")) ].

(** ** Reels *)

(** Modelled from the spec: [Syndi.getStandardCss] is not among the
    sources. The specification calls what it returns "a base stylesheet";
    it is taken as an element the call creates, of whatever name and
    attributes. *)
Class StandardCss := { standardCssElement : Element }.

Definition getStandardCss `{StandardCss} (d : Dom) : NodeId * Dom :=
  createElementWith standardCssElement d.

(** [contents: HTMLElement | HTMLElement[]] *)
Inductive Contents :=
| OneElement (element : NodeId)
| ElementArray (elements : list NodeId).

Definition asArray (contents : Contents) : list NodeId :=
  match contents with
  | OneElement e => [e]
  | ElementArray es => es
  end.

Definition attrNames : list jsstring :=
  [js "href"; js "src"; js "action"; js "data-src"].

Section Reels.
Context `{Url.Api} `{Host} `{StandardCss}.

(** The first loop of [getSandboxedElement]: sort the elements into
    [head] and [body] by their [nodeName]. *)
Definition sortContents (d : Dom) (acc : list NodeId * list NodeId)
    (element : NodeId) : list NodeId * list NodeId :=
  let '(head, body) := acc in
  match nodeName <$> elementOf d !! element with
  | Some n =>
      if decide (n = js "SECTION") then (head, body ++ [element])
      else if decide (n = js "LINK" ∨ n = js "STYLE")
           then (head ++ [element], body)
           else (head, body)
  | None => (head, body)
  end.

(** The body of the second loop: every attribute among [attrNames] that
    the element has gets its value resolved against [baseUrl]. *)
Definition resolveAttributes (baseUrl : jsstring) (e : Element) : Element :=
  let attrs := filter (λ a, is_Some (getAttribute e a)) attrNames in
  {| nodeName := nodeName e;
     attributes :=
       foldl (λ m a, alter (λ value, Url.resolve value baseUrl) a m)
         (attributes e) attrs |}.

Definition resolveIn (baseUrl : jsstring) (d : Dom) (element : NodeId)
    : Dom :=
  {| forest := forest d;
     elementOf := alter (resolveAttributes baseUrl) element (elementOf d);
     shadowRootOf := shadowRootOf d |}.

(** The state of [getSandboxedElement] after [shadow.append(...)]: the
    container, its shadow root and the DOM. *)
Definition organize (contents : Contents) (d : Dom)
    : NodeId * NodeId * Dom :=
  let '(container, d) := createElement (js "DIV") d in
  let '(css, d) := getStandardCss d in
  let '(shadow, d) := attachShadow container d in
  let '(head, body) := foldl (sortContents d) ([css], []) (asArray contents) in
  (container, shadow, append shadow (head ++ body) d).

Definition getSandboxedElement (contents : Contents) (baseUrl : jsstring)
    (d : Dom) : NodeId * Dom :=
  let '(container, shadow, d) := organize contents d in
  let baseUrl := Url.folderOf baseUrl in
  (container,
   foldl (resolveIn baseUrl) d (getElements selReferences shadow d)).

(** The nodes of the scope a container holds: those below its shadow
    root. *)
Definition scopeOf (container : NodeId) (d : Dom) : list NodeId :=
  match shadowRootOf d !! container with
  | Some shadow =>
      match subtreeAt shadow (forest d) with
      | Some t => flat_map treeIds (kidsOf t)
      | None => []
      end
  | None => []
  end.

Record IFeedInfo := {
  subscribable : bool;
  visible : bool;
  href : jsstring;
}.

(** The body of the loop of [getFeedsFromDocument] for one link element:
    the feed it pushes, if any. *)
Definition feedInfoOf (e : Element) : option IFeedInfo :=
  match getAttribute e (js "href") with
  | None | Some [] => None
  | Some href =>
      let visibleAttr := toLowerCase <$> getAttribute e (js "disabled") in
      let visible :=
        match visibleAttr with
        | Some v => bool_decide (v ≠ js "false")
        | None => false
        end in
      let subscribableAttr := toLowerCase <$> getAttribute e (js "type") in
      let subscribable :=
        bool_decide (subscribableAttr = Some (js "text/feed")) in
      Some {| visible := visible; subscribable := subscribable;
              href := href |}
  end.

Definition getFeedsFromDocument (doc : NodeId) (d : Dom)
    : list IFeedInfo :=
  let fe := getElements selFeedLinks doc d in
  omap (λ e, elementOf d !! e ≫= feedInfoOf) fe.

End Reels.

(** Modelled from the spec: [ForeignDocumentSanitizer] is not among the
    sources. It is the specification's document parser, "untrusted markup
    to typed node tree": [read] builds a document in the DOM from the text
    and the base it was constructed with, and returns its document node
    ([None] for a result the caller's [if (!doc)] rejects). *)
Class ForeignDocumentSanitizer := {
  sanitizer_read : jsstring → jsstring → Dom → option NodeId * Dom;
}.

Module Reel.
Record t := {
  url : jsstring;
  document : NodeId;
  head : list NodeId;
  feeds : list IFeedInfo;
  sections : list NodeId;
}.
End Reel.

(** [doc.head]: the first HEAD child of the document element, when that
    is an HTML element. *)
Definition documentHead (doc : NodeId) (d : Dom) : option NodeId :=
  t ← subtreeAt doc (forest d);
  html ← list_find (λ k, is_Some (elementOf d !! rootOf k)) (kidsOf t);
  if bool_decide (nodeName <$> elementOf d !! rootOf html.2 = Some (js "HTML"))
  then
    (λ k, rootOf k.2) <$>
    list_find (λ k, nodeName <$> elementOf d !! rootOf k = Some (js "HEAD"))
      (kidsOf html.2)
  else None.

Section ReelReader.
Context `{Url.Api} `{Host} `{ForeignDocumentSanitizer}
        {W : Type} `{Transport W}.

Definition getDocumentFromUrl (url : jsstring) (w : W) (d : Dom)
    : option NodeId * W * Dom :=
  let '(result, w) := getHttpContent url 0 w in
  match result with
  | None => (None, w, d)
  | Some result =>
      let docUri := Url.folderOf url in
      let '(doc, d) := sanitizer_read (text result) docUri d in
      (doc, w, d)
  end.

(** [getElements] of a container that is [null] throws. *)
Definition getReelFromUrl (url : jsstring) (w : W) (d : Dom)
    : Outcome (option Reel.t) * W * Dom :=
  let '(doc, w, d) := getDocumentFromUrl url w d in
  match doc with
  | None => (Returned None, w, d)
  | Some doc =>
      let sections := getElements selBodySections doc d in
      let feeds := getFeedsFromDocument doc d in
      let feedsUrls := href <$> feeds in
      match documentHead doc d with
      | None => (Threw, w, d)
      | Some docHead =>
          let head :=
            filter
              (λ e, default [] (elementOf d !! e ≫= λ el, getAttribute el (js "href"))
                    ∉ feedsUrls)
              (getElements selLinksAndStyles docHead d) in
          (Returned (Some {| Reel.url := url; Reel.document := doc;
                             Reel.head := head; Reel.feeds := feeds;
                             Reel.sections := sections |}), w, d)
      end
  end.

End ReelReader.

(** ** The Omniview options object

    JavaScript objects live in a heap of their own: an object is a map
    from property names to values, and a variable holds a reference. *)

Abbreviation Ref := positive.

(** The function values that can sit in an options object: the two
    closures [getOmniviewFromFeed] builds over [urls], and whatever
    functions a caller wrote. *)
Inductive FunctionValue :=
| DefaultGetPoster (urls : list jsstring)
| DefaultFillBody (urls : list jsstring)
| CallerFunction (which : nat).

Inductive Value :=
| VNumber (n : Z)
| VFunction (f : FunctionValue).

Abbreviation JsObject := (gmap jsstring Value).
Abbreviation ObjectHeap := (gmap Ref (gmap jsstring Value)).

(** [Object.assign(target, source)]: every own property of the source is
    written onto the target, which is returned. *)
Definition Object_assign (target source : Ref) (h : ObjectHeap)
    : Ref * ObjectHeap :=
  match h !! source with
  | Some s => (target, alter (λ t, s ∪ t) target h)
  | None => (target, h)
  end.

(** An object literal: a new object. *)
Definition newObject (o : JsObject) (h : ObjectHeap) : Ref * ObjectHeap :=
  let r := fresh (dom h) in (r, <[r := o]> h).

(** [new Omniview.Class(options)]: the class is a library outside the
    repository; what matters here is the options object it is given. *)
Inductive Omniview := Omniview_Class (options : Ref).

Section Omni.
(** Whether the global [Omniview] is defined. *)
Variable omniviewLoaded : bool.

(** The function up to the construction of the Omniview; the listener
    it then attaches with [hot.on("connected", ...)] does not touch the
    options. *)
Definition getOmniviewFromFeed (urls : list jsstring) (omniviewOptions : Ref)
    (h : ObjectHeap) : Outcome Omniview * ObjectHeap :=
  if negb omniviewLoaded then (Threw, h)
  else
    let '(defaultOptions, h) :=
      newObject
        {[ js "getPoster" := VFunction (DefaultGetPoster urls);
           js "fillBody" := VFunction (DefaultFillBody urls) ]} h in
    let '(mergedOptions, h) :=
      Object_assign omniviewOptions defaultOptions h in
    let omniview := Omniview_Class mergedOptions in
    (Returned omniview, h).

End Omni.

(** ** A sample environment

    Stand-ins for the collaborators, used where a statement is exercised on
    concrete values: a resolver that is right for absolute references and
    for plain file names under a directory, a host with ASCII
    lower-casing, and a network that serves a fixed site and logs the
    addresses requested. *)

Module Sample.

Definition hasScheme (r : jsstring) : bool := bool_decide (58%N ∈ r).

Definition url : Url.Api := {|
  Url.resolve r b := if hasScheme r then r else b ++ r;
  Url.folderOf u :=
    let pieces := JsString.split 47 u in
    JsString.join 47 (take (length pieces - 1) pieces) ++ [47%N];
  Url.getCurrent := js "https://host/";
|}.

(** The directory above a directory address such as [https://x/r/]; the
    root is its own parent. *)
Definition parentOf (b : jsstring) : jsstring :=
  let pieces := JsString.split 47 b in
  if (length pieces <=? 4)%nat then b
  else JsString.join 47 (take (length pieces - 2) pieces) ++ [47%N].

Program Definition host : Host := {|
  URL_new rel b := if decide (rel = js "..") then Some (parentOf b) else None;
  toLowerCase s := JsString.asciiLower <$> s;
|}.
Next Obligation. reflexivity. Qed.

(** A host whose [URL] constructor rejects every base, as the real one
    does for a base that is not absolute. *)
Program Definition strictHost : Host := {|
  URL_new rel b := None;
  toLowerCase s := JsString.asciiLower <$> s;
|}.
Next Obligation. reflexivity. Qed.

(** A host whose [URL] constructor accepts the bases that have a scheme
    and rejects the others, as the real one rejects a base that is not
    absolute. *)
Program Definition checkingHost : Host := {|
  URL_new rel b :=
    if hasScheme b
    then if decide (rel = js "..") then Some (parentOf b) else None
    else None;
  toLowerCase s := JsString.asciiLower <$> s;
|}.
Next Obligation. reflexivity. Qed.

(** A directory tree without a root: every directory has a longer
    parent. *)
Program Definition endlessHost : Host := {|
  URL_new rel b := Some (b ++ [47%N]);
  toLowerCase s := JsString.asciiLower <$> s;
|}.
Next Obligation. reflexivity. Qed.

Definition site (pages : list (jsstring * FetchOutcome))
    : Transport (list jsstring) := {|
  window_fetch address requestHeaders log :=
    (default FetchRejected
       ((λ found, found.2.2) <$> list_find (λ p, p.1 = address) pages),
     log ++ [address]);
|}.

Definition contentType (type : jsstring) : Headers :=
  λ name, if decide (name = js "Content-Type") then Some type else None.

Definition plain (body : jsstring) : FetchOutcome :=
  FetchResponse true (contentType (js "text/plain")) (Some body).

Definition html (body : jsstring) : FetchOutcome :=
  FetchResponse true (contentType (js "text/html")) (Some body).

Definition element (name : jsstring) (attrs : list (jsstring * jsstring))
    : Element :=
  {| nodeName := name; attributes := list_to_map attrs |}.

Definition css : StandardCss :=
  {| standardCssElement := element (js "STYLE") [] |}.

End Sample.

(** ** Reference definitions, in the words of the specification *)

Section SpecFeeds.
Context `{Url.Api}.

(** The items of a feed as the specification words them: the lines of
    the text, each trimmed; a line that is then empty or starts with
    [#] gives nothing, any other gives its resolution against the
    directory. *)
Definition listedItems (directory text : jsstring) : list jsstring :=
  flat_map
    (λ line,
       let entry := JsString.trim line in
       match entry with
       | [] => []
       | first :: _ =>
           if (first =? 35)%N then [] else [Url.resolve entry directory]
       end)
    (JsString.split 10 text).

End SpecFeeds.


(** The value a marker contributes in a scanned document: the attribute
    [valueName] of the last element named [name] whose attribute [key] is
    [marker]; empty when there is no such element or it lacks the
    attribute. *)
Definition markerValue (name key marker valueName : jsstring)
    (elements : list Element) : jsstring :=
  match
    last (filter (λ e, nodeName e = name ∧ getAttribute e key = Some marker)
            elements)
  with
  | Some e => default [] (getAttribute e valueName)
  | None => []
  end.

(** The description and the icon a scanned document offers, as the
    specification words them: the value of the feed-specific marker,
    falling back to the value of the generic marker. *)
Definition offeredDescription (elements : list Element) : jsstring :=
  let specific :=
    markerValue (js "meta") (js "name") (js "feed-description")
      (js "content") elements in
  let generic :=
    markerValue (js "meta") (js "name") (js "description") (js "content")
      elements in
  if decide (specific = []) then generic else specific.

Definition offeredIcon (elements : list Element) : jsstring :=
  let specific :=
    markerValue (js "link") (js "rel") (js "feed-icon") (js "href")
      elements in
  let generic :=
    markerValue (js "link") (js "rel") (js "icon") (js "href") elements in
  if decide (specific = []) then generic else specific.

Section SpecMetaData.
Context `{Url.Api} `{Host} `{ForeignDocumentReader}
        {W : Type} `{Transport W}.

(** The walk up the directories: [Climb k u w u' w'] says that from the
    directory [u], with the network in state [w], [k] directories in a
    row were fetched and yielded no metadata, each had a parent other
    than itself, and the walk now stands at [u'] with the network in
    state [w']. *)
Inductive Climb : nat → jsstring → W → jsstring → W → Prop :=
| Climb_here u w : Climb 0 u w u w
| Climb_up k u w c w1 p u' w' :
    getHttpContent u 0 w = (c, w1) →
    metaDataAt c = None →
    URL_new (js "..") u = Some p →
    u ≠ p →
    Climb k p w1 u' w' →
    Climb (S k) u w u' w'.

(** A directory yields nothing when its index could not be fetched, or
    offers neither a description nor an icon. *)
Definition yieldsNothing (c : option HttpContent) : Prop :=
  match c with
  | None => True
  | Some r =>
      offeredDescription (trapElement (text r)) = [] ∧
      offeredIcon (trapElement (text r)) = []
  end.

(** The walk up the directories in these words: [Ascent k u w u' w'] says
    that from the directory [u], with the network in state [w], [k]
    directories in a row were fetched and yielded nothing, each had a
    parent other than itself, and the walk now stands at [u'] with the
    network in state [w']. *)
Inductive Ascent : nat → jsstring → W → jsstring → W → Prop :=
| Ascent_here u w : Ascent 0 u w u w
| Ascent_up k u w c w1 p u' w' :
    getHttpContent u 0 w = (c, w1) →
    yieldsNothing c →
    URL_new (js "..") u = Some p →
    u ≠ p →
    Ascent k p w1 u' w' →
    Ascent (S k) u w u' w'.

(** A location the [URL] constructor accepts as a base. *)
Definition acceptedBase (b : jsstring) : Prop :=
  is_Some (URL_new (js "..") b).

End SpecMetaData.

(** The invariant of [shadow.append(...)] while the nodes are gathered:
    fragment and remainder together hold the identities the forest
    started with, and the childless parent [p] is still at the top of the
    remainder. *)
Definition gathering (ts0 : list Tree) (p : NodeId)
    (acc : list Tree * list Tree) : Prop :=
  forestIds (acc.1 ++ acc.2) ≡ₚ forestIds ts0 ∧ Node p [] ∈ acc.2.

(** The element names [getSandboxedElement] keeps. *)
Definition keptName (name : jsstring) : Prop :=
  name = js "SECTION" ∨ name = js "LINK" ∨ name = js "STYLE".

(** An element that one of the five alternatives of [selReferences]
    selects. *)
Definition referenceElement (e : Element) : Prop :=
  (nodeName e = js "LINK" ∧ is_Some (getAttribute e (js "href"))) ∨
  (nodeName e = js "A" ∧ is_Some (getAttribute e (js "href"))) ∨
  (nodeName e = js "IMG" ∧ is_Some (getAttribute e (js "src"))) ∨
  (nodeName e = js "FORM" ∧ is_Some (getAttribute e (js "action"))) ∨
  (nodeName e = js "SCRIPT" ∧ is_Some (getAttribute e (js "src"))).

(** ** Concrete cases *)

Module FeedCase.

Definition feedUrl : jsstring := js "https://x/feed.txt".

(** "#comment\n\na.html\nb.html\n" *)
Definition body : jsstring :=
  js "#comment" ++ [10; 10]%N ++ js "a.html" ++ [10]%N ++ js "b.html" ++ [10]%N.

Definition served : Transport (list jsstring) :=
  Sample.site [(feedUrl, Sample.plain body)].

Definition servedAsHtml : Transport (list jsstring) :=
  Sample.site [(feedUrl, Sample.html body)].

(** "é.html\n": seven code units, eight bytes of UTF-8. *)
Definition accented : jsstring := [233]%N ++ js ".html" ++ [10]%N.

Definition servedAccented : Transport (list jsstring) :=
  Sample.site [(feedUrl, Sample.plain accented)].

End FeedCase.

Module MetaCase.

Definition feedUrl : jsstring := js "https://x/a/b/feed.txt".

(** The index of [https://x/a/b/] carries no metadata; the index of
    [https://x/a/] has both descriptions and a generic icon; the index
    of the root has a description of its own. *)
Definition lower : jsstring := js "<head><title>b</title></head>".
Definition upper : jsstring :=
  js "<head><meta name=description content=generic><meta name=feed-description content=specific><link rel=icon href=icon.png></head>".
Definition top : jsstring :=
  js "<head><meta name=description content=root><link rel=feed-icon href=root.png></head>".

Definition reader : ForeignDocumentReader := {|
  trapElement content :=
    if decide (content = lower) then
      [Sample.element (js "title") []]
    else if decide (content = upper) then
      [Sample.element (js "meta")
         [(js "name", js "description"); (js "content", js "generic")];
       Sample.element (js "meta")
         [(js "name", js "feed-description"); (js "content", js "specific")];
       Sample.element (js "link")
         [(js "rel", js "icon"); (js "href", js "icon.png")]]
    else if decide (content = top) then
      [Sample.element (js "meta")
         [(js "name", js "description"); (js "content", js "root")];
       Sample.element (js "link")
         [(js "rel", js "feed-icon"); (js "href", js "root.png")]]
    else []
|}.

Definition served : Transport (list jsstring) :=
  Sample.site
    [(js "https://x/a/b/", Sample.html lower);
     (js "https://x/a/", Sample.html upper);
     (js "https://x/", Sample.html top)].

(** A site on which [https://x/a/] offers an icon and nothing else. *)
Definition marked : jsstring :=
  js "<head><link rel=icon href=mark.png></head>".

Definition iconReader : ForeignDocumentReader := {|
  trapElement content :=
    if decide (content = marked) then
      [Sample.element (js "link")
         [(js "rel", js "icon"); (js "href", js "mark.png")]]
    else @trapElement reader content
|}.

Definition iconOnly : Transport (list jsstring) :=
  Sample.site
    [(js "https://x/a/b/", Sample.html lower);
     (js "https://x/a/", Sample.html marked)].

(** A site without any metadata. *)
Definition bare : Transport (list jsstring) :=
  Sample.site [(js "https://x/a/b/", Sample.html lower)].

End MetaCase.

Module ReelCase.

(** The Reel at [https://x/r/index.html]:
<<
    <html>
      <head>
        <link rel="feed" href="f.txt">
        <link rel="feed" href="g.txt" disabled="true">
        <link rel="stylesheet" href="s.css">
        <style></style>
      </head>
      <body>
        <section>
          <img src="p.png"> <video src="v.mp4"> <img data-src="lazy.png">
        </section>
        <section> <a href="next.html"> </section>
      </body>
    </html>
>>  *)
Definition reelUrl : jsstring := js "https://x/r/index.html".

Definition doc : NodeId := 1%positive.
Definition feedLink : NodeId := 4%positive.
Definition disabledFeedLink : NodeId := 5%positive.
Definition styleLink : NodeId := 6%positive.
Definition style : NodeId := 7%positive.
Definition poster : NodeId := 9%positive.
Definition image : NodeId := 10%positive.
Definition video : NodeId := 11%positive.
Definition lazyImage : NodeId := 12%positive.
Definition second : NodeId := 13%positive.
Definition anchor : NodeId := 14%positive.

Definition dom : Dom := {|
  forest :=
    [Node doc
       [Node 2%positive
          [Node 3%positive
             [Node feedLink []; Node disabledFeedLink [];
              Node styleLink []; Node style []];
           Node 8%positive
             [Node poster [Node image []; Node video []; Node lazyImage []];
              Node second [Node anchor []]]]]];
  elementOf :=
    list_to_map
      [(2%positive, Sample.element (js "HTML") []);
       (3%positive, Sample.element (js "HEAD") []);
       (feedLink,
        Sample.element (js "LINK")
          [(js "rel", js "feed"); (js "href", js "f.txt")]);
       (disabledFeedLink,
        Sample.element (js "LINK")
          [(js "rel", js "feed"); (js "href", js "g.txt");
           (js "disabled", js "true")]);
       (styleLink,
        Sample.element (js "LINK")
          [(js "rel", js "stylesheet"); (js "href", js "s.css")]);
       (style, Sample.element (js "STYLE") []);
       (8%positive, Sample.element (js "BODY") []);
       (poster, Sample.element (js "SECTION") []);
       (image, Sample.element (js "IMG") [(js "src", js "p.png")]);
       (video, Sample.element (js "VIDEO") [(js "src", js "v.mp4")]);
       (lazyImage,
        Sample.element (js "IMG") [(js "data-src", js "lazy.png")]);
       (second, Sample.element (js "SECTION") []);
       (anchor, Sample.element (js "A") [(js "href", js "next.html")])];
  shadowRootOf := ∅;
|}.

(** A parser that delivers this document, with its attributes as the
    markup has them. *)
Definition parser : ForeignDocumentSanitizer := {|
  sanitizer_read markup base d := (Some doc, dom);
|}.

Definition served : Transport (list jsstring) :=
  Sample.site [(reelUrl, Sample.html (js "<html>"))].

Definition emptyDom : Dom :=
  {| forest := []; elementOf := ∅; shadowRootOf := ∅ |}.

End ReelCase.

Module OmniCase.

Definition feedUrls : list jsstring :=
  [js "https://x/a.html"; js "https://x/b.html"].

(** The caller's options: [{ anchorIndex: 3, getPoster: f0, fillBody: f1 }]. *)
Definition callerOptions : Ref := 1%positive.

Definition callerObject : gmap jsstring Value :=
  {[ js "anchorIndex" := VNumber 3;
     js "getPoster" := VFunction (CallerFunction 0);
     js "fillBody" := VFunction (CallerFunction 1) ]}.

Definition heap : gmap Ref (gmap jsstring Value) :=
  {[ callerOptions := callerObject ]}.

End OmniCase.

(** ** Further definitions *)

(** A transport that also keeps, in order, the requests it is sent:
    address and request headers. *)
Definition recording {W : Type} (T : Transport W)
    : Transport (W * list (jsstring * list (jsstring * jsstring))) := {|
  window_fetch address requestHeaders s :=
    let '(outcome, w') := @window_fetch W T address requestHeaders s.1 in
    (outcome, (w', s.2 ++ [(address, requestHeaders)]));
|}.

(** A text with every line feed preceded by a carriage return. *)
Definition crlf (text : jsstring) : jsstring :=
  flat_map (λ c, if (c =? 10)%N then [13; 10]%N else [c]) text.

(** The two tests of the first loop of [getSandboxedElement], on the
    [nodeName] an element has in a DOM. *)
Definition isBodyKind (d : Dom) (n : NodeId) : bool :=
  bool_decide (nodeName <$> elementOf d !! n = Some (js "SECTION")).

Definition isHeadKind (d : Dom) (n : NodeId) : bool :=
  bool_decide (nodeName <$> elementOf d !! n = Some (js "LINK") ∨
               nodeName <$> elementOf d !! n = Some (js "STYLE")).

(** The children of the shadow root of a container, in order. *)
Definition shadowChildren (container : NodeId) (d : Dom) : list NodeId :=
  match shadowRootOf d !! container with
  | Some shadow =>
      match subtreeAt shadow (forest d) with
      | Some t => rootOf <$> kidsOf t
      | None => []
      end
  | None => []
  end.

(** ** Feeds: getFeedUrl *)

(** The selector LINK[rel="feed"][href]: one compound with two attribute
    conditions, which an element matches when it meets both. *)
Definition matchesFeedLinkWithHref (d : Dom) (n : NodeId) : bool :=
  isElementMatching d n (TypeAttrIs (js "LINK") (js "rel") (js "feed")) &&
  isElementMatching d n (TypeAttr (js "LINK") (js "href")).

(** [container.querySelector(...)]: the first node below the container,
    in document order, that matches. *)
Definition querySelectorWhere (matches : NodeId → bool) (container : NodeId)
    (d : Dom) : option NodeId :=
  match subtreeAt container (forest d) with
  | Some t => head (filter matches (descendantPairs t).*1)
  | None => None
  end.

(** The nodes that are instances of [HTMLElement]: the elements in the
    HTML namespace. The DOM heap keeps no namespaces; the test is the
    browser's. *)
Class Interfaces := { isHTMLElement : NodeId → bool }.

Definition getFeedUrl `{Url.Api} `{Interfaces} (within : NodeId) (d : Dom)
    : jsstring :=
  let link := querySelectorWhere (matchesFeedLinkWithHref d) within d in
  let href :=
    match link with
    | Some link =>
        if isHTMLElement link
        then elementOf d !! link ≫= λ e, getAttribute e (js "href")
        else Some []
    | None => Some []
    end in
  match href with
  | Some (c :: rest) => Url.resolve (c :: rest) Url.getCurrent
  | Some [] | None => []
  end.

(** A forest without the subtrees rooted at the given nodes. *)
Definition removeAll (nodes : list NodeId) (ts : list Tree) : list Tree :=
  foldl (λ rest n, removeNode n rest) ts nodes.

(** ** Posters *)

Section Posters.
Context `{Url.Api} `{Host} `{ForeignDocumentSanitizer} `{StandardCss}
        {W : Type} `{Transport W}.

Definition getPosterFromUrl (reelUrl : jsstring) (w : W) (d : Dom)
    : Outcome (option NodeId) * W * Dom :=
  let '(reel, w, d) := getReelFromUrl reelUrl w d in
  match reel with
  | Threw => (Threw, w, d)
  | Returned None => (Returned None, w, d)
  | Returned (Some reel) =>
      match Reel.sections reel with
      | [] => (Returned None, w, d)
      | first :: _ =>
          let '(poster, d) :=
            getSandboxedElement (ElementArray (Reel.head reel ++ [first]))
              (Reel.url reel) d in
          (Returned (Some poster), w, d)
      end
  end.

(** What the generator of [getPostersFromFeed] yields. *)
Record PosterItem := { poster : NodeId; url : jsstring }.

(** The generator between two calls of [next]: not yet started, inside
    the loop with the addresses still to visit, or finished. *)
Inductive PostersGenerator :=
| PostersStart (feedUrl : jsstring)
| PostersLoop (remaining : list jsstring)
| PostersDone.

(** The loop of [getPostersFromFeed] from one [yield] to the next:
    [None] when the addresses are used up. A throw ends the generator. *)
Fixpoint postersLoop (remaining : list jsstring) (w : W) (d : Dom)
    : Outcome (option PosterItem) * PostersGenerator * W * Dom :=
  match remaining with
  | [] => (Returned None, PostersDone, w, d)
  | url :: rest =>
      let '(reel, w, d) := getReelFromUrl url w d in
      match reel with
      | Threw => (Threw, PostersDone, w, d)
      | Returned None => postersLoop rest w d
      | Returned (Some reel) =>
          match Reel.sections reel with
          | [] => postersLoop rest w d
          | first :: _ =>
              let '(poster, d) :=
                getSandboxedElement
                  (ElementArray (Reel.head reel ++ [first]))
                  (Reel.url reel) d in
              (Returned (Some {| poster := poster; url := url |}),
               PostersLoop rest, w, d)
          end
      end
  end.

(** One call of [next] on the generator. *)
Definition postersNext (g : PostersGenerator) (w : W) (d : Dom)
    : Outcome (option PosterItem) * PostersGenerator * W * Dom :=
  match g with
  | PostersStart feedUrl =>
      let '(readResult, w) := getFeedFromUrl feedUrl 0 w in
      postersLoop (urls readResult) w d
  | PostersLoop remaining => postersLoop remaining w d
  | PostersDone => (Returned None, PostersDone, w, d)
  end.

(** [getPostersFromFeed(feedUrl)] itself only makes the generator. *)
Definition getPostersFromFeed (feedUrl : jsstring) : PostersGenerator :=
  PostersStart feedUrl.

(** The items a consumer gets by calling [next] up to [calls] times,
    stopping at the end of the sequence or at a throw. *)
Fixpoint takePosters (calls : nat) (g : PostersGenerator) (w : W) (d : Dom)
    : list PosterItem :=
  match calls with
  | O => []
  | S calls =>
      match postersNext g w d with
      | (Returned (Some item), g, w, d) => item :: takePosters calls g w d
      | _ => []
      end
  end.

End Posters.

(** The text a browser gives the [style] attribute of the element after
    the ten assignments of [getErrorPoster] is the browser's
    serialization of the declarations; it is taken as it comes. *)
Class InlineStyles := { errorPosterStyle : jsstring }.

(** [getErrorPoster]: a new DIV with its inline style, holding a new text
    node (the DOM here keeps no text, only the node). *)
Definition getErrorPoster `{InlineStyles} (d : Dom) : NodeId * Dom :=
  let '(div, d) := createElement (js "DIV") d in
  let d :=
    {| forest := forest d;
       elementOf :=
         alter (λ e, {| nodeName := nodeName e;
                        attributes :=
                          <[js "style" := errorPosterStyle]> (attributes e) |})
           div (elementOf d);
       shadowRootOf := shadowRootOf d |} in
  let text := newNode d in
  let d :=
    {| forest := forest d ++ [Node text []];
       elementOf := elementOf d;
       shadowRootOf := shadowRootOf d |} in
  (div, append div [text] d).

(** What a call of the built-in [getPoster] gives: [null], or a promise
    that is resolved with an element, or a promise that stays pending
    (the executor is an async function, whose rejection nobody
    handles). *)
Inductive PosterPromise :=
| NoPoster
| PosterResolved (element : NodeId)
| PosterPending.

Section BuiltIns.
Context `{Url.Api} `{Host} `{ForeignDocumentSanitizer} `{StandardCss}
        `{InlineStyles} {W : Type} `{Transport W}.

(** The [getPoster] of [defaultOptions], for a position [index] that is
    a natural number; past the guard [urls[index]] is an entry of the
    array. *)
Definition defaultGetPoster (urls : list jsstring) (index : nat) (w : W)
    (d : Dom) : PosterPromise * W * Dom :=
  if bool_decide (length urls ≤ index)%nat then (NoPoster, w, d)
  else
    let '(poster, w, d) := getPosterFromUrl (default [] (urls !! index)) w d in
    match poster with
    | Threw => (PosterPending, w, d)
    | Returned (Some poster) => (PosterResolved poster, w, d)
    | Returned None =>
        let '(errorPoster, d) := getErrorPoster d in
        (PosterResolved errorPoster, w, d)
    end.

End BuiltIns.

(** ** Remote sections (src/core/Remote.ts) *)

(** "SECTION[src], SECTION[data-src]" *)
Definition selRemoteSections : Selector :=
  [ Self (TypeAttr (js "SECTION") (js "src"));
    Self (TypeAttr (js "SECTION") (js "data-src")) ].

Definition getRemoteSectionElements (container : NodeId) (d : Dom)
    : list NodeId :=
  getElements selRemoteSections container d.

(** [getAttribute] of a node, and [a || ""] for its result. *)
Definition attributeOrEmpty (d : Dom) (n : NodeId) (name : jsstring)
    : jsstring :=
  default [] (elementOf d !! n ≫= λ e, getAttribute e name).

Definition getRemoteSectionSource `{Url.Api} (section : NodeId)
    (documentUrl : jsstring) (d : Dom) : jsstring :=
  let src :=
    orElse (attributeOrEmpty d section (js "src"))
      (orElse (attributeOrEmpty d section (js "data-src")) []) in
  if truthy src then Url.resolve src documentUrl else [].

(** The nodes below a node. *)
Definition below (container : NodeId) (d : Dom) : list NodeId :=
  match subtreeAt container (forest d) with
  | Some t => forestIds (kidsOf t)
  | None => []
  end.

(** A node without a parent is the root of a tree of the forest. *)
Definition isRoot (n : NodeId) (d : Dom) : bool :=
  bool_decide (n ∈ rootOf <$> forest d).

(** [node.remove()]: the node leaves its parent, if it has one, and
    becomes the root of a tree of its own. *)
Definition remove (n : NodeId) (d : Dom) : Dom :=
  if isRoot n d then d
  else
    match subtreeAt n (forest d) with
    | Some t =>
        {| forest := removeNode n (forest d) ++ [t];
           elementOf := elementOf d;
           shadowRootOf := shadowRootOf d |}
    | None => d
    end.

(** A tree in which the children rooted at [n] have given way to
    [other]. *)
Fixpoint replaceChild (n : NodeId) (other : Tree) (t : Tree) : Tree :=
  match t with
  | Node id ks =>
      Node id
        ((λ k, if decide (rootOf k = n) then other else replaceChild n other k)
           <$> ks)
  end.

(** The children [ks] of a node after that replacement. *)
Definition replaceIn (n : NodeId) (other : Tree) (ks : list Tree)
    : list Tree :=
  (λ k, if decide (rootOf k = n) then other else replaceChild n other k)
    <$> ks.

(** [node.replaceWith(other)], for an [other] that is not above the
    node: nothing happens to a node without a parent; otherwise [other]
    leaves the place it had and takes the node's place among the
    children of its parent, and the node becomes a root. *)
Definition replaceWith (n other : NodeId) (d : Dom) : Dom :=
  if isRoot n d then d
  else
    match subtreeAt other (forest d) with
    | Some o =>
        let rest := removeNode other (forest d) in
        match subtreeAt n rest with
        | Some t =>
            {| forest := (replaceChild n o <$> rest) ++ [t];
               elementOf := elementOf d;
               shadowRootOf := shadowRootOf d |}
        | None => d
        end
    | None => d
    end.

(** A parser that builds its document out of new nodes: the trees the
    DOM had are still there, as they were, and identities stay
    distinct. *)
Definition addsOnly (S : ForeignDocumentSanitizer) : Prop :=
  ∀ markup base d doc d',
    @sanitizer_read S markup base d = (doc, d') →
    NoDup (forestIds (forest d)) →
    NoDup (forestIds (forest d')) ∧
    ∀ t, t ∈ forest d → t ∈ forest d'.

Section Remote.
Context `{Url.Api} `{Host} `{ForeignDocumentSanitizer} `{StandardCss}
        {W : Type} `{Transport W}.

(** The loop of [resolveRemoteSections] over the sections found. *)
Fixpoint resolveEach (remoteSections : list NodeId) (documentUrl : jsstring)
    (w : W) (d : Dom) : Outcome unit * W * Dom :=
  match remoteSections with
  | [] => (Returned tt, w, d)
  | remoteSection :: rest =>
      let remoteUrl := getRemoteSectionSource remoteSection documentUrl d in
      if negb (truthy remoteUrl)
      then resolveEach rest documentUrl w (remove remoteSection d)
      else
        let '(poster, w, d) := getPosterFromUrl remoteUrl w d in
        match poster with
        | Threw => (Threw, w, d)
        | Returned None =>
            resolveEach rest documentUrl w (remove remoteSection d)
        | Returned (Some poster) =>
            resolveEach rest documentUrl w (replaceWith remoteSection poster d)
        end
  end.

Definition resolveRemoteSections (container : NodeId) (documentUrl : jsstring)
    (w : W) (d : Dom) : Outcome unit * W * Dom :=
  let remoteSections := getRemoteSectionElements container d in
  resolveEach remoteSections documentUrl w d.

End Remote.

Module RemoteCase.

(** A page whose body holds a section to fetch, a section without a
    usable source and an ordinary section:
<<
    <body>
      <section src="r/index.html"></section>
      <section data-src=""></section>
      <section><p></p></section>
    </body>
>>  *)
Definition body : NodeId := 1%positive.
Definition remote : NodeId := 2%positive.
Definition unsourced : NodeId := 3%positive.
Definition plainSection : NodeId := 4%positive.

Definition dom : Dom := {|
  forest :=
    [Node body
       [Node remote []; Node unsourced [];
        Node plainSection [Node 5%positive []]]];
  elementOf :=
    list_to_map
      [(body, Sample.element (js "BODY") []);
       (remote, Sample.element (js "SECTION") [(js "src", js "r/index.html")]);
       (unsourced, Sample.element (js "SECTION") [(js "data-src", [])]);
       (plainSection, Sample.element (js "SECTION") []);
       (5%positive, Sample.element (js "P") [])];
  shadowRootOf := ∅;
|}.

(** A parser that adds a document with a head holding a style element
    and a body holding one section, all new nodes. *)
Definition parser : ForeignDocumentSanitizer := {|
  sanitizer_read markup base d :=
    let doc := newNode d in
    let d := {| forest := forest d ++ [Node doc []];
                elementOf := elementOf d;
                shadowRootOf := shadowRootOf d |} in
    let '(html, d) := createElement (js "HTML") d in
    let '(head, d) := createElement (js "HEAD") d in
    let '(style, d) := createElement (js "STYLE") d in
    let '(body, d) := createElement (js "BODY") d in
    let '(section, d) := createElement (js "SECTION") d in
    let d := append head [style] d in
    let d := append body [section] d in
    let d := append html [head; body] d in
    (Some doc, append doc [html] d);
|}.

(** A parser that adds an empty document. *)
Definition bareParser : ForeignDocumentSanitizer := {|
  sanitizer_read markup base d :=
    let doc := newNode d in
    (Some doc,
     {| forest := forest d ++ [Node doc []];
        elementOf := elementOf d;
        shadowRootOf := shadowRootOf d |});
|}.

Definition pageUrl : jsstring := js "https://host/".

Definition served : Transport (list jsstring) :=
  Sample.site [(js "https://host/r/index.html", Sample.html (js "<html>"))].

Definition offline : Transport (list jsstring) := Sample.site [].

End RemoteCase.

Module PageCase.

(** A page all of whose elements are HTML elements. *)
Definition html : Interfaces := {| isHTMLElement n := true |}.

(** A page in which the first feed link of the sample Reel is an element
    of another namespace. *)
Definition foreignLink : Interfaces :=
  {| isHTMLElement n := bool_decide (n ≠ ReelCase.feedLink) |}.

End PageCase.

Module StreamCase.

Definition feedUrl : jsstring := js "https://x/feed.txt".

(** "missing.html\nr/index.html\nlater.html\n": the first page is not
    served, the second is the sample Reel. *)
Definition body : jsstring :=
  js "missing.html" ++ [10]%N ++ js "r/index.html" ++ [10]%N ++
  js "later.html" ++ [10]%N.

Definition served : Transport (list jsstring) :=
  Sample.site
    [(feedUrl, Sample.plain body);
     (ReelCase.reelUrl, Sample.html (js "<html>"))].

End StreamCase.
(** * Properties *)

Local Set Warnings "-clear-no-such-hyp".

(** ** Strings *)

Lemma split_nonempty sep s : JsString.split sep s ≠ [].
Proof.
  destruct s as [|c s]; simpl; [done|].
  destruct (c =? sep)%N; [done|]. by destruct (JsString.split sep s).
Qed.

(** Splitting loses nothing: joining the pieces gives the text back. *)
Lemma join_split sep s : JsString.join sep (JsString.split sep s) = s.
Proof.
  induction s as [|c s IH]; simpl; [done|].
  destruct (N.eqb_spec c sep) as [->|Hne].
  - pose proof (split_nonempty sep s) as Hs.
    destruct (JsString.split sep s) as [|p ps]; [done|].
    simpl in *. by rewrite IH.
  - pose proof (split_nonempty sep s) as Hs.
    destruct (JsString.split sep s) as [|p ps]; [done|].
    simpl in *. by rewrite IH.
Qed.

(** No piece contains the separator: the pieces are the lines. *)
Lemma split_pieces sep s : Forall (λ piece, sep ∉ piece) (JsString.split sep s).
Proof.
  induction s as [|c s IH]; simpl.
  - constructor; [|done]. by intros ?%elem_of_nil.
  - destruct (N.eqb_spec c sep) as [->|Hne].
    + constructor; [|done]. by intros ?%elem_of_nil.
    + pose proof (split_nonempty sep s) as Hs.
      destruct (JsString.split sep s) as [|p ps]; [done|].
      apply Forall_cons in IH as [Hp Hps]. constructor; [|done].
      intros [?|?]%elem_of_cons; [congruence|done].
Qed.

Lemma utf8ByteLength_ascii s :
  JsString.isAscii s → JsString.utf8ByteLength s = length s.
Proof.
  induction 1 as [|u s Hu _ IH]; simpl; [done|].
  apply N.ltb_lt in Hu. by rewrite Hu, IH.
Qed.

(** ** The feed listing reader *)

Section FeedProperties.
Context `{Url.Api} {W : Type} `{Transport W}.

Lemma startsWith_hash s :
  JsString.startsWith s (js "#") =
  match s with [] => false | c :: _ => (c =? 35)%N end.
Proof.
  change (js "#") with [35%N].
  destruct s as [|c s]; cbn [JsString.startsWith]; [done|].
  rewrite andb_true_r. apply N.eqb_sym.
Qed.

Lemma feedLines_listedItems feedUrl text :
  feedLines feedUrl text = listedItems (Url.folderOf feedUrl) text.
Proof.
  unfold feedLines, listedItems.
  induction (JsString.split 10 text) as [|line lines IH]; [done|].
  rewrite fmap_cons. cbn [flat_map]. rewrite <- IH. clear IH.
  destruct (JsString.trim line) as [|c entry] eqn:Htrim.
  - rewrite filter_cons_False by (intros ?; done). done.
  - rewrite filter_cons_True by done.
    rewrite filter_cons, startsWith_hash.
    destruct (c =? 35)%N; case_decide; try done.
Qed.

Lemma getFeedFromUrl_usable feedUrl startingByte w r w' :
  getHttpContent feedUrl startingByte w = (Some r, w') →
  mediaType r = js "text/plain" →
  getFeedFromUrl feedUrl startingByte w =
    ({| urls := feedLines feedUrl (text r);
        bytesRead := Z.of_nat (length (text r)) |}, w').
Proof.
  intros Hfetch Htype. unfold getFeedFromUrl. rewrite Hfetch.
  by rewrite bool_decide_eq_false_2 by (by intros ?).
Qed.

(** C6. Reading a feed from its first byte gives as items exactly the
    lines of the body text that, once trimmed, are neither empty nor
    start with [#], each resolved against the directory of the feed's
    own address, in the order of the lines. *)
Theorem getFeedFromUrl_items feedUrl w r w' :
  getHttpContent feedUrl 0 w = (Some r, w') →
  mediaType r = js "text/plain" →
  urls (getFeedFromUrl feedUrl 0 w).1 =
    listedItems (Url.folderOf feedUrl) (text r).
Proof.
  intros Hfetch Htype.
  rewrite (getFeedFromUrl_usable _ _ _ _ _ Hfetch Htype). simpl.
  apply feedLines_listedItems.
Qed.

(** C7. When the fetch fails, and when the response is not of type
    [text/plain], the reader returns the same result: no items and
    [bytesRead = -1]. (The function has no throwing path: its result is
    a plain value, not an [Outcome].) *)
Theorem getFeedFromUrl_unusable feedUrl startingByte w fetched w' :
  getHttpContent feedUrl startingByte w = (fetched, w') →
  (fetched = None ∨
   ∃ r, fetched = Some r ∧ mediaType r ≠ js "text/plain") →
  getFeedFromUrl feedUrl startingByte w =
    ({| urls := []; bytesRead := -1 |}, w').
Proof.
  intros Hfetch Hbad. unfold getFeedFromUrl. rewrite Hfetch.
  destruct Hbad as [->|(r & -> & Htype)]; [done|].
  by rewrite bool_decide_eq_true_2.
Qed.

(** What makes [getHttpContent] return [null]: a rejected fetch, a
    response that is not [ok], or a body that cannot be read. *)
Lemma getHttpContent_None relativeUri startingByte w w' :
  getHttpContent relativeUri startingByte w = (None, w') →
  ∃ requestHeaders outcome,
    window_fetch (Url.resolve relativeUri Url.getCurrent) requestHeaders w
      = (outcome, w') ∧
    match outcome with
    | FetchRejected => True
    | FetchResponse ok _ body => ok = false ∨ body = None
    end.
Proof.
  unfold getHttpContent. intros Hget.
  eexists. destruct (window_fetch _ _ w) as [outcome w1] eqn:Hfetch.
  exists outcome. destruct outcome as [|ok hdrs body].
  - by simplify_eq.
  - destruct ok; simpl in Hget; [|simplify_eq; eauto].
    destruct body; simplify_eq; eauto.
Qed.

(** On a usable response [bytesRead] is the [length] of the text, a
    count of UTF-16 code units. *)
Lemma getFeedFromUrl_bytesRead feedUrl startingByte w r w' :
  getHttpContent feedUrl startingByte w = (Some r, w') →
  mediaType r = js "text/plain" →
  bytesRead (getFeedFromUrl feedUrl startingByte w).1
    = Z.of_nat (length (text r)).
Proof.
  intros Hfetch Htype.
  by rewrite (getFeedFromUrl_usable _ _ _ _ _ Hfetch Htype).
Qed.

(** For a text of ASCII characters the two counts agree. *)
Lemma getFeedFromUrl_bytesRead_ascii feedUrl startingByte w r w' :
  getHttpContent feedUrl startingByte w = (Some r, w') →
  mediaType r = js "text/plain" →
  JsString.isAscii (text r) →
  bytesRead (getFeedFromUrl feedUrl startingByte w).1
    = Z.of_nat (JsString.utf8ByteLength (text r)).
Proof.
  intros Hfetch Htype Hascii.
  rewrite (getFeedFromUrl_bytesRead _ _ _ _ _ Hfetch Htype).
  by rewrite utf8ByteLength_ascii.
Qed.

End FeedProperties.

(** *** The feed reader on concrete feeds *)

(** The specification's first scenario. *)
Example getFeedFromUrl_scenario_1 :
  @getFeedFromUrl Sample.url _ FeedCase.served FeedCase.feedUrl 0 [] =
    ({| urls := [js "https://x/a.html"; js "https://x/b.html"];
        bytesRead := 24 |},
     [FeedCase.feedUrl]).
Proof. reflexivity. Qed.

Lemma getFeedFromUrl_items_witness :
  urls (@getFeedFromUrl Sample.url _ FeedCase.served FeedCase.feedUrl 0 []).1 =
    @listedItems Sample.url (js "https://x/") FeedCase.body.
Proof.
  apply (@getFeedFromUrl_items Sample.url _ FeedCase.served FeedCase.feedUrl []
           {| headers := Sample.contentType (js "text/plain");
              text := FeedCase.body |}
           [FeedCase.feedUrl]); reflexivity.
Defined.

Lemma getFeedFromUrl_unusable_witness :
  @getFeedFromUrl Sample.url _ FeedCase.servedAsHtml FeedCase.feedUrl 0 [] =
    ({| urls := []; bytesRead := -1 |}, [FeedCase.feedUrl]) ∧
  @getFeedFromUrl Sample.url _ (Sample.site []) FeedCase.feedUrl 0 [] =
    ({| urls := []; bytesRead := -1 |}, [FeedCase.feedUrl]).
Proof.
  split.
  - apply (@getFeedFromUrl_unusable Sample.url _ FeedCase.servedAsHtml
             FeedCase.feedUrl 0 []
             (Some {| headers := Sample.contentType (js "text/html");
                      text := FeedCase.body |})
             [FeedCase.feedUrl]); [reflexivity|].
    right. eexists. split; [reflexivity|]. vm_compute. discriminate.
  - apply (@getFeedFromUrl_unusable Sample.url _ (Sample.site [])
             FeedCase.feedUrl 0 [] None [FeedCase.feedUrl]); [reflexivity|].
    by left.
Defined.

(** C4. [bytesRead] is the [length] of the text, which counts UTF-16 code
    units: for the body "é.html\n" it is 7, while the body is 8 bytes
    long. *)
Theorem getFeedFromUrl_bytesRead_code_units :
  bytesRead
    (@getFeedFromUrl Sample.url _ FeedCase.servedAccented FeedCase.feedUrl 0 []).1
    = 7 ∧
  JsString.utf8ByteLength FeedCase.accented = 8%nat.
Proof. split; reflexivity. Qed.

(** ** The metadata discoverer *)

(** *** What one scanned document contributes *)

Lemma trapAll_snoc elements e :
  trapAll (elements ++ [e]) = trap (trapAll elements) e.
Proof. unfold trapAll. by rewrite foldl_snoc. Qed.

Lemma markerValue_snoc name key marker valueName elements e :
  markerValue name key marker valueName (elements ++ [e]) =
    if decide (nodeName e = name ∧ getAttribute e key = Some marker)
    then default [] (getAttribute e valueName)
    else markerValue name key marker valueName elements.
Proof.
  unfold markerValue. rewrite filter_app, filter_cons, filter_nil.
  case_decide.
  - by rewrite last_snoc.
  - by rewrite app_nil_r.
Qed.

(** The four variables hold the values of the four markers. *)
Lemma trapAll_markers elements :
  trapAll elements =
    {| standardDescription :=
         markerValue (js "meta") (js "name") (js "description") (js "content")
           elements;
       feedDescription :=
         markerValue (js "meta") (js "name") (js "feed-description")
           (js "content") elements;
       standardIcon :=
         markerValue (js "link") (js "rel") (js "icon") (js "href") elements;
       feedIcon :=
         markerValue (js "link") (js "rel") (js "feed-icon") (js "href")
           elements |}.
Proof.
  induction elements as [|e elements IH] using rev_ind; [done|].
  rewrite trapAll_snoc, IH, !markerValue_snoc. clear IH.
  unfold trap.
  assert (js "meta" ≠ js "link") as Hml by (by vm_compute).
  assert (js "feed-description" ≠ js "description") as Hfd by (by vm_compute).
  assert (js "feed-icon" ≠ js "icon") as Hfi by (by vm_compute).
  repeat case_decide; simpl; try done; destruct_and?;
    exfalso; intuition congruence.
Qed.

Section MetaDataProperties.
Context `{Url.Api} `{Host} `{ForeignDocumentReader}
        {W : Type} `{Transport W}.

(** A document yields metadata exactly when one of the two values is
    not empty, and then a feed-specific marker with a value hides the
    generic one. *)
Lemma metaDataIn_Some htmlContent found :
  metaDataIn htmlContent = Some found →
  let elements := trapElement htmlContent in
  description found =
    orElse
      (markerValue (js "meta") (js "name") (js "feed-description")
         (js "content") elements)
      (markerValue (js "meta") (js "name") (js "description")
         (js "content") elements) ∧
  icon found =
    orElse
      (markerValue (js "link") (js "rel") (js "feed-icon") (js "href")
         elements)
      (markerValue (js "link") (js "rel") (js "icon") (js "href") elements) ∧
  (description found ≠ [] ∨ icon found ≠ []).
Proof.
  unfold metaDataIn. rewrite trapAll_markers. simpl.
  destruct (truthy _ || truthy _) eqn:Hfound; [|done].
  intros [= <-]. simpl. split_and!; [done..|].
  apply orb_true_iff in Hfound as [Ht|Ht]; [left|right];
    intros Hnil; by rewrite Hnil in Ht.
Qed.

Lemma upscan_climb safety k u w u' w1 c w2 found :
  Climb k u w u' w1 →
  (k < safety)%nat →
  getHttpContent u' 0 w1 = (c, w2) →
  metaDataAt c = Some found →
  upscan safety u w = (Returned (Some found), w2).
Proof.
  intros Hclimb. revert safety.
  induction Hclimb as [u w|k u w c0 w0 p u' w' Hget Hnone Hp Hne _ IH];
    intros safety Hk Hfetch Hfound.
  - destruct safety as [|safety]; [lia|]. simpl.
    by rewrite Hfetch, Hfound.
  - destruct safety as [|safety]; [lia|]. simpl.
    rewrite Hget, Hnone, Hp. rewrite decide_False by done.
    apply IH; [lia|done..].
Qed.

Lemma upscan_stops safety u w :
  (0 < safety)%nat →
  acceptedBase u →
  (∀ b p, URL_new (js "..") b = Some p → acceptedBase p) →
  ∃ k u' w1 c w2,
    (k < safety)%nat ∧
    Climb k u w u' w1 ∧
    getHttpContent u' 0 w1 = (c, w2) ∧
    upscan safety u w = (Returned (metaDataAt c), w2) ∧
    (is_Some (metaDataAt c) ∨
     URL_new (js "..") u' = Some u' ∨
     S k = safety).
Proof.
  intros Hpos Hu Hclosed. revert u w Hu.
  induction safety as [|safety IH]; [lia|]. intros u w Hu.
  destruct (getHttpContent u 0 w) as [c w1] eqn:Hget.
  destruct (metaDataAt c) as [found|] eqn:Hmeta.
  { exists 0%nat, u, w, c, w1. split_and!; [lia|constructor|done| |].
    - simpl. by rewrite Hget, Hmeta.
    - left. rewrite Hmeta. eauto. }
  destruct Hu as [p Hp].
  destruct (decide (u = p)) as [<-|Hne].
  { exists 0%nat, u, w, c, w1. split_and!; [lia|constructor|done| |].
    - simpl. rewrite Hget, Hmeta, Hp. by rewrite decide_True.
    - right; by left. }
  destruct safety as [|safety].
  { exists 0%nat, u, w, c, w1. split_and!; [lia|constructor|done| |].
    - simpl. rewrite Hget, Hmeta, Hp. by rewrite decide_False.
    - right; by right. }
  destruct (IH ltac:(lia) p w1 (Hclosed _ _ Hp))
    as (k & u' & w2 & c' & w3 & Hk & Hclimb & Hget' & Hup & Hwhy).
  exists (S k), u', w2, c', w3. split_and!; [lia| |done| |].
  - by eapply Climb_up.
  - rewrite <- Hup.
    change (upscan (S (S safety)) u w) with
      (let '(httpContent, w) := getHttpContent u 0 w in
       match metaDataAt httpContent with
       | Some found => (Returned (Some found), w)
       | None =>
           match URL_new (js "..") u with
           | None => (Threw, w)
           | Some url =>
               if decide (u = url) then (Returned None, w)
               else upscan (S safety) url w
           end
       end).
    rewrite Hget, Hmeta, Hp. by rewrite decide_False.
  - destruct Hwhy as [?|[?|?]]; [by left|right; by left|right; right; lia].
Qed.

Lemma orElse_fallback a b : orElse a b = if decide (a = []) then b else a.
Proof. by destruct a. Qed.

(** What the loop finds in a document is what the document offers, and
    it finds something exactly when the description or the icon offered
    is not empty. *)
Lemma metaDataIn_offered htmlContent :
  metaDataIn htmlContent =
    let elements := trapElement htmlContent in
    if decide (offeredDescription elements = [] ∧ offeredIcon elements = [])
    then None
    else Some {| description := offeredDescription elements;
                 icon := offeredIcon elements |}.
Proof.
  unfold metaDataIn. rewrite trapAll_markers. simpl.
  rewrite !orElse_fallback.
  fold (offeredDescription (trapElement htmlContent)).
  fold (offeredIcon (trapElement htmlContent)).
  destruct (offeredDescription _) as [|c1 s1], (offeredIcon _) as [|c2 s2];
    simpl; try done.
  all: rewrite decide_False; [done|]; by intros [? ?].
Qed.

Lemma metaDataAt_None c : metaDataAt c = None ↔ yieldsNothing c.
Proof.
  destruct c as [r|]; simpl; [|done].
  rewrite metaDataIn_offered. simpl. case_decide; [done|].
  split; [done|tauto].
Qed.

Lemma Ascent_Climb k u w u' w' : Ascent k u w u' w' → Climb k u w u' w'.
Proof.
  induction 1 as [|k u w c w1 p u' w' Hget Hnothing Hp Hne _ IH];
    [constructor|].
  eapply Climb_up; [done|by apply metaDataAt_None|done..].
Qed.

(** C8. The first directory, walking up from the feed's own, whose
    index offers a description or an icon decides the result: after [k]
    directories that yield nothing, whatever the next one offers, be it
    only a description or only an icon, is returned as it stands there,
    a feed-specific marker with a value hiding the generic one; nothing
    above that directory is fetched (the network is left as that last
    fetch left it) and nothing of another directory is in the result. *)
Theorem getFeedMetaData_first_level_wins feedUrl w k u w1 content w2 :
  Ascent k (Url.folderOf feedUrl) w u w1 →
  (k < 1000)%nat →
  getHttpContent u 0 w1 = (Some content, w2) →
  offeredDescription (trapElement (text content)) ≠ [] ∨
  offeredIcon (trapElement (text content)) ≠ [] →
  getFeedMetaData feedUrl w =
    (Returned
       (Some {| description := offeredDescription (trapElement (text content));
                icon := offeredIcon (trapElement (text content)) |}),
     w2).
Proof.
  intros Hascent Hk Hget Hoffered. unfold getFeedMetaData.
  eapply upscan_climb; [by apply Ascent_Climb|done..|].
  simpl. rewrite metaDataIn_offered. simpl.
  rewrite decide_False; [done|]. tauto.
Qed.




(** The constructor [URL] throws on a base it does not accept, and then
    so does the scan. *)
Lemma upscan_throws safety u w c w1 :
  getHttpContent u 0 w = (c, w1) →
  metaDataAt c = None →
  URL_new (js "..") u = None →
  upscan (S safety) u w = (Threw, w1).
Proof. intros Hget Hnone Hurl. simpl. by rewrite Hget, Hnone, Hurl. Qed.

End MetaDataProperties.

(** *** The discoverer on a concrete site *)

Lemma getFeedMetaData_first_level_wins_witness :
  @getFeedMetaData Sample.url Sample.host MetaCase.reader _ MetaCase.served
     MetaCase.feedUrl [] =
    (Returned (Some {| description := js "specific"; icon := js "icon.png" |}),
     [js "https://x/a/b/"; js "https://x/a/"]).
Proof.
  refine (@getFeedMetaData_first_level_wins Sample.url Sample.host
            MetaCase.reader _ MetaCase.served MetaCase.feedUrl [] 1
            (js "https://x/a/") [js "https://x/a/b/"]
            {| headers := Sample.contentType (js "text/html");
               text := MetaCase.upper |}
            [js "https://x/a/b/"; js "https://x/a/"] _ _ _ _).
  - eapply Ascent_up;
      [reflexivity | by vm_compute | reflexivity | by vm_compute
      | apply Ascent_here].
  - lia.
  - reflexivity.
  - left. by vm_compute.
Defined.

(** A directory that offers only an icon decides the result as well. *)
Example getFeedMetaData_icon_only :
  @getFeedMetaData Sample.url Sample.host MetaCase.iconReader _ MetaCase.iconOnly
     MetaCase.feedUrl [] =
    (Returned (Some {| description := []; icon := js "mark.png" |}),
     [js "https://x/a/b/"; js "https://x/a/"]).
Proof. reflexivity. Qed.


(** On an absolute address the same host lets the scan reach the root
    and return [null]. *)
Example getFeedMetaData_checked_root :
  @getFeedMetaData Sample.url Sample.checkingHost MetaCase.reader _
     MetaCase.bare MetaCase.feedUrl [] =
    (Returned None, [js "https://x/a/b/"; js "https://x/a/"; js "https://x/"]).
Proof. reflexivity. Qed.

(** Without metadata anywhere the scan of the sample site ends at the
    root with [null], after three fetches. *)
Example getFeedMetaData_reaches_root :
  @getFeedMetaData Sample.url Sample.host MetaCase.reader _ MetaCase.bare
     MetaCase.feedUrl [] =
    (Returned None, [js "https://x/a/b/"; js "https://x/a/"; js "https://x/"]).
Proof. reflexivity. Qed.

(** Where no directory is its own parent the scan gives up after a
    thousand fetches. *)
Example getFeedMetaData_gives_up :
  let '(result, log) :=
    @getFeedMetaData Sample.url Sample.endlessHost MetaCase.reader _
      MetaCase.bare MetaCase.feedUrl [] in
  result = Returned None ∧ length log = 1000%nat.
Proof. vm_compute. done. Qed.

(** ** The Reel reader *)

Section ReelProperties.
Context `{Url.Api} `{Host}.

Lemma feedInfoOf_Some el info :
  feedInfoOf el = Some info →
  getAttribute el (js "href") = Some (href info) ∧
  href info ≠ [] ∧
  visible info =
    match getAttribute el (js "disabled") with
    | None => false
    | Some v => bool_decide (toLowerCase v ≠ js "false")
    end.
Proof.
  unfold feedInfoOf.
  destruct (getAttribute el (js "href")) as [[|c h]|]; [done| |done].
  intros [= <-]. simpl. split_and!; [done..|].
  by destruct (getAttribute el (js "disabled")).
Qed.

Lemma elem_of_getFeedsFromDocument doc d info :
  info ∈ getFeedsFromDocument doc d ↔
  ∃ link el,
    link ∈ getElements selFeedLinks doc d ∧
    elementOf d !! link = Some el ∧
    feedInfoOf el = Some info.
Proof.
  unfold getFeedsFromDocument. rewrite list_elem_of_omap. split.
  - intros (link & Hin & Hinfo).
    destruct (elementOf d !! link) as [el|] eqn:Hel; [|done].
    by exists link, el.
  - intros (link & el & Hin & Hel & Hinfo). exists link.
    by rewrite Hel.
Qed.

(** What the loop computes for [visible]: a feed link with an href gives
    a feed whose [visible] is true exactly when the link has a
    [disabled] attribute whose lower-cased value is not "false": with
    [disabled=""] and with [disabled="true"] it is true, without the
    attribute and with "false" in any case it is false. *)
Theorem getFeedsFromDocument_visible doc d link el h :
  link ∈ getElements selFeedLinks doc d →
  elementOf d !! link = Some el →
  getAttribute el (js "href") = Some h →
  h ≠ [] →
  ∃ info,
    info ∈ getFeedsFromDocument doc d ∧
    feedInfoOf el = Some info ∧
    href info = h ∧
    visible info =
      match getAttribute el (js "disabled") with
      | None => false
      | Some v => bool_decide (toLowerCase v ≠ js "false")
      end ∧
    (getAttribute el (js "disabled") = Some [] → visible info = true) ∧
    (getAttribute el (js "disabled") = Some (js "true") →
     visible info = true) ∧
    (∀ v, getAttribute el (js "disabled") = Some v →
          JsString.isAscii v → JsString.asciiLower <$> v = js "false" →
          visible info = false).
Proof.
  intros Hlink Hel Hhref Hh.
  destruct (feedInfoOf el) as [info|] eqn:Hinfo.
  2:{ unfold feedInfoOf in Hinfo. rewrite Hhref in Hinfo.
      by destruct h. }
  destruct (feedInfoOf_Some _ _ Hinfo) as (Hhref' & _ & Hvisible).
  exists info. split_and!; try done.
  - apply elem_of_getFeedsFromDocument. by exists link, el.
  - congruence.
  - intros Hd. rewrite Hvisible, Hd.
    rewrite toLowerCase_ascii by constructor. done.
  - intros Hd. rewrite Hvisible, Hd.
    rewrite toLowerCase_ascii by (vm_compute; repeat constructor). done.
  - intros v Hd Hascii Hfalse. rewrite Hvisible, Hd.
    rewrite toLowerCase_ascii, Hfalse by done.
    by apply bool_decide_eq_false_2; intros ?.
Qed.

End ReelProperties.

Section ReelReaderProperties.
Context `{Url.Api} `{Host} `{ForeignDocumentSanitizer}
        {W : Type} `{Transport W}.

Lemma getReelFromUrl_feeds url w d reel w' d' :
  getReelFromUrl url w d = (Returned (Some reel), w', d') →
  Reel.feeds reel = getFeedsFromDocument (Reel.document reel) d'.
Proof.
  unfold getReelFromUrl.
  destruct (getDocumentFromUrl url w d) as [[[doc|] w1] d1]; [|done].
  destruct (documentHead doc d1); [|done].
  by intros [= <- <- <-].
Qed.

(** X22. The href of every feed declaration of a Reel is the value of
    the [href] attribute of a feed link of the parsed document, as it
    stands there: the Reel reader itself resolves nothing, and the
    declarations are as absolute as the parser made the attributes. *)
Theorem getReelFromUrl_feed_href url w d reel w' d' info :
  getReelFromUrl url w d = (Returned (Some reel), w', d') →
  info ∈ Reel.feeds reel →
  ∃ link el,
    link ∈ getElements selFeedLinks (Reel.document reel) d' ∧
    elementOf d' !! link = Some el ∧
    getAttribute el (js "href") = Some (href info).
Proof.
  intros Hreel Hinfo. rewrite (getReelFromUrl_feeds _ _ _ _ _ _ Hreel) in Hinfo.
  apply elem_of_getFeedsFromDocument in Hinfo as (link & el & Hin & Hel & Hfeed).
  exists link, el. split_and!; [done..|].
  by destruct (feedInfoOf_Some _ _ Hfeed) as (? & _).
Qed.

End ReelReaderProperties.

(** *** The Reel reader on a concrete Reel *)

(** C1. The flag read from [disabled] is stored as [visible] without
    being inverted. Of the two feed links of the sample Reel, the one
    without a [disabled] attribute comes out not visible and the one with
    [disabled="true"] visible. *)
Theorem getFeedsFromDocument_visible_inverted :
  ((λ e, getAttribute e (js "disabled")) <$>
     elementOf ReelCase.dom !! ReelCase.feedLink) = Some None ∧
  ((λ e, getAttribute e (js "disabled")) <$>
     elementOf ReelCase.dom !! ReelCase.disabledFeedLink)
    = Some (Some (js "true")) ∧
  getElements selFeedLinks ReelCase.doc ReelCase.dom
    = [ReelCase.feedLink; ReelCase.disabledFeedLink] ∧
  (visible <$> @getFeedsFromDocument Sample.host ReelCase.doc ReelCase.dom)
    = [false; true].
Proof. split_and!; reflexivity. Qed.

Lemma getFeedsFromDocument_visible_witness :
  ∃ info,
    info ∈ @getFeedsFromDocument Sample.host ReelCase.doc ReelCase.dom ∧
    href info = js "g.txt" ∧ visible info = true.
Proof.
  destruct (@getFeedsFromDocument_visible Sample.host ReelCase.doc ReelCase.dom
              ReelCase.disabledFeedLink
              (Sample.element (js "LINK")
                 [(js "rel", js "feed"); (js "href", js "g.txt");
                  (js "disabled", js "true")])
              (js "g.txt"))
    as (info & Hin & _ & Hhref & _ & _ & Htrue & _).
  - vm_compute. apply list_elem_of_In. simpl. tauto.
  - reflexivity.
  - reflexivity.
  - vm_compute. discriminate.
  - exists info. split_and!; [done..|]. by apply Htrue.
Defined.

(** What the reader makes of the sample Reel: both feed links are
    declared with the hrefs of the markup, the head keeps the stylesheet
    link and the style element, and the sections come in document
    order. *)
Example getReelFromUrl_sample :
  (@getReelFromUrl Sample.url Sample.host ReelCase.parser _ ReelCase.served
     ReelCase.reelUrl [] ReelCase.emptyDom).1.1 =
    Returned
      (Some
         {| Reel.url := ReelCase.reelUrl;
            Reel.document := ReelCase.doc;
            Reel.head := [ReelCase.styleLink; ReelCase.style];
            Reel.feeds :=
              [{| subscribable := false; visible := false;
                  href := js "f.txt" |};
               {| subscribable := false; visible := true;
                  href := js "g.txt" |}];
            Reel.sections := [ReelCase.poster; ReelCase.second] |}).
Proof. reflexivity. Qed.

Lemma getReelFromUrl_feed_href_witness :
  ∃ link el,
    link ∈ getElements selFeedLinks ReelCase.doc ReelCase.dom ∧
    elementOf ReelCase.dom !! link = Some el ∧
    getAttribute el (js "href") = Some (js "f.txt").
Proof.
  refine (@getReelFromUrl_feed_href Sample.url Sample.host ReelCase.parser _
            ReelCase.served ReelCase.reelUrl [] ReelCase.emptyDom
            {| Reel.url := ReelCase.reelUrl; Reel.document := ReelCase.doc;
               Reel.head := [ReelCase.styleLink; ReelCase.style];
               Reel.feeds :=
                 [{| subscribable := false; visible := false;
                     href := js "f.txt" |};
                  {| subscribable := false; visible := true;
                     href := js "g.txt" |}];
               Reel.sections := [ReelCase.poster; ReelCase.second] |}
            [ReelCase.reelUrl] ReelCase.dom
            {| subscribable := false; visible := false; href := js "f.txt" |}
            _ _).
  - reflexivity.
  - simpl. apply list_elem_of_here.
Defined.

(** ** The Omniview options *)

(** C10. Whatever the caller's options object holds, the Omniview is
    constructed with that very object, in which [getPoster] and
    [fillBody] have been overwritten with the two functions built here;
    the caller's other properties are kept. *)
Theorem getOmniviewFromFeed_overwrites (urls : list jsstring)
    (omniviewOptions : Ref) (h : gmap Ref (gmap jsstring Value))
    (caller : gmap jsstring Value) :
  h !! omniviewOptions = Some caller →
  ∃ h' merged,
    getOmniviewFromFeed true urls omniviewOptions h
      = (Returned (Omniview_Class omniviewOptions), h') ∧
    h' !! omniviewOptions = Some merged ∧
    merged !! js "getPoster" = Some (VFunction (DefaultGetPoster urls)) ∧
    merged !! js "fillBody" = Some (VFunction (DefaultFillBody urls)) ∧
    ∀ key, key ≠ js "getPoster" → key ≠ js "fillBody" →
           merged !! key = caller !! key.
Proof.
  intros Hcaller. unfold getOmniviewFromFeed, newObject. simpl.
  set (defaults := ({[ _ := _; _ := _ ]} : gmap jsstring Value)).
  set (r := fresh (dom h)).
  assert (r ≠ omniviewOptions) as Hr.
  { intros Heq. apply (is_fresh (dom h)). fold r. rewrite Heq.
    apply elem_of_dom. eauto. }
  unfold Object_assign.
  assert (<[r:=defaults]> h !! r = Some defaults) as -> by apply lookup_insert_eq.
  eexists _, (defaults ∪ caller). split_and!; [done| | | |].
  - rewrite lookup_alter_eq, lookup_insert_ne by done. by rewrite Hcaller.
  - apply lookup_union_Some_l. reflexivity.
  - apply lookup_union_Some_l. reflexivity.
  - intros key Hg Hf. rewrite lookup_union_r; [done|].
    subst defaults.
    rewrite lookup_insert_ne by done. by apply lookup_singleton_ne.
Qed.

(** Without the Omniview library the function throws. *)
Lemma getOmniviewFromFeed_not_loaded urls omniviewOptions h :
  getOmniviewFromFeed false urls omniviewOptions h = (Threw, h).
Proof. reflexivity. Qed.

Lemma getOmniviewFromFeed_overwrites_witness :
  ∃ h' merged,
    getOmniviewFromFeed true OmniCase.feedUrls OmniCase.callerOptions
      OmniCase.heap
      = (Returned (Omniview_Class OmniCase.callerOptions), h') ∧
    h' !! OmniCase.callerOptions = Some merged ∧
    merged !! js "getPoster"
      = Some (VFunction (DefaultGetPoster OmniCase.feedUrls)) ∧
    merged !! js "fillBody"
      = Some (VFunction (DefaultFillBody OmniCase.feedUrls)) ∧
    ∀ key, key ≠ js "getPoster" → key ≠ js "fillBody" →
           merged !! key = OmniCase.callerObject !! key.
Proof.
  apply (getOmniviewFromFeed_overwrites OmniCase.feedUrls
           OmniCase.callerOptions OmniCase.heap OmniCase.callerObject).
  reflexivity.
Defined.

(** The caller's functions are gone from the caller's own object. *)
Example getOmniviewFromFeed_mutates_caller :
  let h' :=
    (getOmniviewFromFeed true OmniCase.feedUrls OmniCase.callerOptions
       OmniCase.heap).2 in
  OmniCase.heap !! OmniCase.callerOptions ≫= (.!! js "getPoster")
    = Some (VFunction (CallerFunction 0)) ∧
  h' !! OmniCase.callerOptions ≫= (.!! js "getPoster")
    = Some (VFunction (DefaultGetPoster OmniCase.feedUrls)) ∧
  h' !! OmniCase.callerOptions ≫= (.!! js "anchorIndex")
    = Some (VNumber 3).
Proof. split_and!; reflexivity. Qed.

(** ** Trees of node identities *)

Section Trees.

(** Induction over forests: a forest is empty, or a node with the
    forest of its children followed by a forest of siblings. *)
Lemma forest_ind (P : list Tree → Prop) :
  P [] →
  (∀ id ks ts, P ks → P ts → P (Node id ks :: ts)) →
  ∀ ts, P ts.
Proof.
  intros Hnil Hcons.
  assert (∀ t ts, P ts → P (t :: ts)) as Hstep.
  { fix IH 1. intros [id ks] ts Hts. apply Hcons; [|done].
    induction ks as [|k ks IHks]; [done|]. by apply IH. }
  intros ts. induction ts as [|t ts IHts]; [done|]. by apply Hstep.
Qed.

Lemma forestIds_cons id ks ts :
  forestIds (Node id ks :: ts) = id :: forestIds ks ++ forestIds ts.
Proof. done. Qed.

Lemma forestIds_app ts1 ts2 :
  forestIds (ts1 ++ ts2) = forestIds ts1 ++ forestIds ts2.
Proof. apply flat_map_app. Qed.

Lemma subtreeIn_unfold n id ks :
  subtreeIn n (Node id ks) =
    if decide (id = n) then Some (Node id ks) else subtreeAt n ks.
Proof.
  simpl. case_decide; [done|].
  induction ks as [|k ks IH]; [done|]. simpl.
  by destruct (subtreeIn n k).
Qed.

Lemma subtreeAt_cons n id ks ts :
  subtreeAt n (Node id ks :: ts) =
    if decide (id = n) then Some (Node id ks)
    else match subtreeAt n ks with
         | Some s => Some s
         | None => subtreeAt n ts
         end.
Proof.
  change (subtreeAt n (Node id ks :: ts)) with
    (match subtreeIn n (Node id ks) with
     | Some s => Some s
     | None => subtreeAt n ts
     end).
  rewrite subtreeIn_unfold. by case_decide.
Qed.

Lemma removeNode_cons n id ks ts :
  removeNode n (Node id ks :: ts) =
    if decide (id = n) then removeNode n ts
    else Node id (removeNode n ks) :: removeNode n ts.
Proof. unfold removeNode. simpl. by case_decide. Qed.

Lemma removeNode_app n ts1 ts2 :
  removeNode n (ts1 ++ ts2) = removeNode n ts1 ++ removeNode n ts2.
Proof. apply omap_app. Qed.

Lemma appendKids_cons p kids id ks ts :
  appendKids p kids <$> (Node id ks :: ts) =
    Node id ((appendKids p kids <$> ks) ++ (if decide (id = p) then kids else []))
    :: (appendKids p kids <$> ts).
Proof. done. Qed.

(** A node is found exactly when its identity occurs, and what is found
    is rooted at it. *)
Lemma subtreeAt_Some n ts s :
  subtreeAt n ts = Some s → rootOf s = n ∧ n ∈ forestIds ts.
Proof.
  revert s. induction ts as [|id ks ts IHks IHts] using forest_ind;
    intros s; [done|].
  rewrite subtreeAt_cons, forestIds_cons. case_decide as Hid.
  - intros [= <-]. split; [done|]. subst. left.
  - destruct (subtreeAt n ks) as [s'|] eqn:Hks.
    + intros [= <-]. destruct (IHks _ eq_refl) as [? ?].
      split; [done|]. right. apply elem_of_app. by left.
    + intros Hts. destruct (IHts _ Hts) as [? ?].
      split; [done|]. right. apply elem_of_app. by right.
Qed.

Lemma subtreeAt_None n ts :
  subtreeAt n ts = None ↔ n ∉ forestIds ts.
Proof.
  induction ts as [|id ks ts IHks IHts] using forest_ind.
  - split; [|done]. intros _ ?%elem_of_nil. done.
  - rewrite subtreeAt_cons, forestIds_cons, not_elem_of_cons,
      not_elem_of_app, <- IHks, <- IHts.
    case_decide; [intuition congruence|].
    destruct (subtreeAt n ks); intuition congruence.
Qed.

Lemma subtreeAt_is_Some n ts :
  n ∈ forestIds ts → is_Some (subtreeAt n ts).
Proof.
  intros Hin. destruct (subtreeAt n ts) eqn:Hs; [eauto|].
  by apply subtreeAt_None in Hs.
Qed.

(** The identities of what is found are among those searched. *)
Lemma subtreeAt_ids n ts s x :
  subtreeAt n ts = Some s → x ∈ treeIds s → x ∈ forestIds ts.
Proof.
  revert s. induction ts as [|id ks ts IHks IHts] using forest_ind;
    intros s; [done|].
  rewrite subtreeAt_cons, forestIds_cons. case_decide as Hid.
  - intros [= <-]. simpl. rewrite !elem_of_cons, elem_of_app.
    tauto.
  - destruct (subtreeAt n ks) as [s'|] eqn:Hks.
    + intros [= <-] Hx. right. apply elem_of_app. left. eauto.
    + intros Hts Hx. right. apply elem_of_app. right. eauto.
Qed.

Lemma removeNode_absent n ts :
  n ∉ forestIds ts → removeNode n ts = ts.
Proof.
  induction ts as [|id ks ts IHks IHts] using forest_ind; [done|].
  rewrite forestIds_cons, not_elem_of_cons, not_elem_of_app.
  intros (Hid & Hks & Hts). rewrite removeNode_cons.
  rewrite decide_False by done. by rewrite IHks, IHts.
Qed.

Lemma appendKids_absent p kids ts :
  p ∉ forestIds ts → appendKids p kids <$> ts = ts.
Proof.
  induction ts as [|id ks ts IHks IHts] using forest_ind; [done|].
  rewrite forestIds_cons, not_elem_of_cons, not_elem_of_app.
  intros (Hid & Hks & Hts). rewrite appendKids_cons.
  rewrite decide_False by done. by rewrite IHks, IHts, app_nil_r.
Qed.

(** Taking a node out of a forest whose identities are distinct splits
    the identities in two: those that stay and those of the node's
    subtree. *)
Lemma removeNode_split n ts s :
  NoDup (forestIds ts) →
  subtreeAt n ts = Some s →
  forestIds ts ≡ₚ forestIds (removeNode n ts) ++ treeIds s.
Proof.
  revert s. induction ts as [|id ks ts IHks IHts] using forest_ind;
    intros s; [done|].
  rewrite forestIds_cons, subtreeAt_cons, removeNode_cons.
  rewrite NoDup_cons, NoDup_app, not_elem_of_app.
  intros ((Hidks & Hidts) & Hks & Hdisj & Hts).
  case_decide as Hid.
  - intros [= <-]. subst id. rewrite removeNode_absent by done.
    change (treeIds (Node n ks)) with (n :: forestIds ks).
    apply Permutation_cons_app, Permutation_app_comm.
  - destruct (subtreeAt n ks) as [s'|] eqn:Hfound.
    + intros [= <-].
      destruct (subtreeAt_Some _ _ _ Hfound) as [_ Hn].
      rewrite (removeNode_absent n ts) by auto.
      rewrite forestIds_cons, <- app_comm_cons. constructor.
      rewrite (IHks _ Hks eq_refl), <- !(assoc (++)).
      apply Permutation_app_head, Permutation_app_comm.
    + intros Hs. apply subtreeAt_None in Hfound.
      rewrite (removeNode_absent n ks) by done.
      rewrite forestIds_cons, <- app_comm_cons. constructor.
      by rewrite (IHts _ Hts Hs), (assoc (++)).
Qed.

(** A tree at the top of a forest survives the removal of another
    node, with the same root. *)
Lemma removeNode_keeps_root n ts t :
  t ∈ ts → rootOf t ≠ n →
  ∃ t', t' ∈ removeNode n ts ∧ rootOf t' = rootOf t.
Proof.
  intros Hin Hroot. destruct t as [id ks]. simpl in Hroot.
  exists (Node id (removeNode n ks)). split; [|done].
  apply list_elem_of_omap. exists (Node id ks). split; [done|].
  simpl. by rewrite decide_False.
Qed.

Lemma removeNode_keeps_leaf n ts p :
  Node p [] ∈ ts → p ≠ n → Node p [] ∈ removeNode n ts.
Proof.
  intros Hin Hp. apply list_elem_of_omap. exists (Node p []).
  split; [done|]. simpl. by rewrite decide_False.
Qed.

Lemma elem_of_roots t ts : t ∈ ts → rootOf t ∈ forestIds ts.
Proof.
  intros Hin. apply list_elem_of_In, in_flat_map. exists t.
  split; [by apply list_elem_of_In|]. destruct t. by left.
Qed.

(** Appending under a childless node at the top of a forest of distinct
    identities: the node gets the new children, nothing else changes. *)
Lemma appendKids_leaf p kids ts :
  NoDup (forestIds ts) →
  Node p [] ∈ ts →
  subtreeAt p (appendKids p kids <$> ts) = Some (Node p kids) ∧
  forestIds (appendKids p kids <$> ts) ≡ₚ forestIds ts ++ forestIds kids.
Proof.
  induction ts as [|t ts IH]; [by intros _ ?%elem_of_nil|].
  destruct t as [id ks]. rewrite forestIds_cons, NoDup_cons, NoDup_app,
    not_elem_of_app.
  intros ((Hidks & Hidts) & Hks & Hdisj & Hts) [Heq|Hin]%elem_of_cons.
  - injection Heq as <- <-. rewrite appendKids_cons, subtreeAt_cons.
    rewrite !decide_True by done. split; [done|].
    rewrite (appendKids_absent p kids ts) by done.
    rewrite !forestIds_cons, app_nil_l, <- app_comm_cons. constructor.
    apply Permutation_app_comm.
  - pose proof (elem_of_roots _ _ Hin) as Hp. simpl in Hp.
    assert (id ≠ p) as Hid by (intros ->; done).
    assert (p ∉ forestIds ks) as Hpks by (intros ?; by eapply Hdisj).
    destruct (IH Hts Hin) as [Hsub Hperm].
    rewrite appendKids_cons, subtreeAt_cons, !decide_False by done.
    rewrite (appendKids_absent p kids ks), app_nil_r by done.
    apply subtreeAt_None in Hpks. rewrite Hpks. split; [done|].
    rewrite !forestIds_cons, <- app_comm_cons. constructor.
    by rewrite Hperm, (assoc (++)).
Qed.

Lemma descendantPairs_fst t :
  (descendantPairs t).*1 = forestIds (kidsOf t).
Proof.
  destruct t as [id ks]. simpl. revert id.
  induction ks as [|kid kks ks IHkks IHks] using forest_ind; intros id;
    [done|].
  simpl. rewrite fmap_app, IHks. simpl in IHkks. by rewrite IHkks.
Qed.

End Trees.

(** ** Gathering nodes for [append] *)

Section Gathering.
Variable ts0 : list Tree.
Variable p : NodeId.
Hypothesis distinct : NoDup (forestIds ts0).

Lemma moveInto_gathering acc n :
  n ≠ p → gathering ts0 p acc → gathering ts0 p (moveInto acc n).
Proof.
  destruct acc as [fragment rest]. intros Hn [Hperm Hp].
  unfold moveInto. simpl in *.
  destruct (subtreeAt n (fragment ++ rest)) as [s|] eqn:Hfound;
    [|by split].
  split; simpl.
  - rewrite <- Hperm. rewrite (removeNode_split n (fragment ++ rest) s);
      [|by rewrite Hperm|done].
    rewrite removeNode_app, !forestIds_app. simpl. rewrite app_nil_r.
    rewrite <- !(assoc (++)). apply Permutation_app_head, Permutation_app_comm.
  - by apply removeNode_keeps_leaf.
Qed.

Lemma moveInto_root_new acc n :
  gathering ts0 p acc → n ∈ forestIds ts0 →
  n ∈ rootOf <$> (moveInto acc n).1.
Proof.
  destruct acc as [fragment rest]. intros [Hperm _] Hn.
  unfold moveInto. simpl in *. rewrite <- Hperm in Hn.
  destruct (subtreeAt_is_Some _ _ Hn) as [s Hfound]. rewrite Hfound. simpl.
  destruct (subtreeAt_Some _ _ _ Hfound) as [<- _].
  rewrite fmap_app. apply elem_of_app. right. simpl. left.
Qed.

Lemma moveInto_root_kept acc n m :
  m ∈ rootOf <$> acc.1 → m ∈ rootOf <$> (moveInto acc n).1.
Proof.
  destruct acc as [fragment rest]. simpl.
  intros (t & -> & Ht)%list_elem_of_fmap. unfold moveInto.
  destruct (subtreeAt n (fragment ++ rest)) as [s|] eqn:Hfound; simpl.
  - rewrite fmap_app, elem_of_app.
    destruct (decide (rootOf t = n)) as [Heq|Hne].
    + right. destruct (subtreeAt_Some _ _ _ Hfound) as [<- _].
      rewrite Heq. simpl. left.
    + left. destruct (removeNode_keeps_root n fragment t Ht Hne)
        as (t' & Hin & <-).
      by apply list_elem_of_fmap_2.
  - by apply list_elem_of_fmap_2.
Qed.

Lemma gather_roots nodes acc :
  gathering ts0 p acc →
  p ∉ nodes →
  gathering ts0 p (foldl moveInto acc nodes) ∧
  ∀ n, (n ∈ nodes ∧ n ∈ forestIds ts0) ∨ n ∈ rootOf <$> acc.1 →
       n ∈ rootOf <$> (foldl moveInto acc nodes).1.
Proof.
  revert acc. induction nodes as [|m nodes IH]; intros acc Hacc Hp.
  { split; [done|]. intros n [[?%elem_of_nil _]|?]; done. }
  apply not_elem_of_cons in Hp as [Hpm Hp]. simpl.
  destruct (IH (moveInto acc m) (moveInto_gathering _ _ (not_eq_sym Hpm) Hacc) Hp)
    as [Hinv Hroots].
  split; [done|]. intros n [[[->|Hn]%elem_of_cons Hin]|Hroot].
  - apply Hroots. right. by apply moveInto_root_new.
  - apply Hroots. by left.
  - apply Hroots. right. by apply moveInto_root_kept.
Qed.

End Gathering.

(** ** The content isolator *)

Lemma newNode_fresh d :
  ¬ (newNode d ∈ forestIds (forest d)) ∧ elementOf d !! newNode d = None.
Proof.
  pose proof (is_fresh (allIds d)) as Hfresh. fold (newNode d) in Hfresh.
  unfold allIds in Hfresh.
  rewrite not_elem_of_union, elem_of_list_to_set, not_elem_of_dom in Hfresh.
  tauto.
Qed.

Section IsolatorProperties.
Context `{Url.Api} `{StandardCss}.

Lemma sortContents_fold d l head0 body0 head body :
  foldl (sortContents d) (head0, body0) l = (head, body) →
  ∀ n, n ∈ head ++ body ↔
       n ∈ head0 ++ body0 ∨
       (n ∈ l ∧ ∃ name, nodeName <$> elementOf d !! n = Some name ∧
                        keptName name).
Proof.
  revert head0 body0.
  induction l as [|element l IH]; intros head0 body0; simpl.
  { intros [= <- <-] n. split; [by left|].
    by intros [?|[?%elem_of_nil _]]. }
  unfold keptName in *.
  destruct (nodeName <$> elementOf d !! element) as [name|] eqn:Hname.
  - case_decide as Hsection; [|case_decide as Hother].
    + intros Hfold n. rewrite (IH _ _ Hfold n).
      rewrite !elem_of_app, !elem_of_cons, elem_of_nil.
      split; [|naive_solver].
      intros [[?|[?|[->|[]]]]|?]; [tauto|tauto| |naive_solver].
      right. split; [by left|]. exists name. tauto.
    + intros Hfold n. rewrite (IH _ _ Hfold n).
      rewrite !elem_of_app, !elem_of_cons, elem_of_nil.
      split; [|naive_solver].
      intros [[[?|[->|[]]]|?]|?]; [tauto| |tauto|naive_solver].
      right. split; [by left|]. exists name. tauto.
    + intros Hfold n. rewrite (IH _ _ Hfold n).
      rewrite !elem_of_cons. split; [naive_solver|].
      intros [?|[[->|?] (name' & Hname' & Hkept)]]; [tauto| |naive_solver].
      rewrite Hname in Hname'. injection Hname' as <-.
      exfalso. tauto.
  - intros Hfold n. rewrite (IH _ _ Hfold n).
    rewrite !elem_of_cons. split; [naive_solver|].
    intros [?|[[->|?] (name' & Hname' & Hkept)]]; [tauto| |naive_solver].
    by rewrite Hname in Hname'.
Qed.


End IsolatorProperties.

Section RewritingProperties.
Context `{Url.Api} `{StandardCss}.

(** What the second loop does to one element: each of the four
    attributes it has is resolved, nothing else changes. *)
Lemma resolveAttributes_lookup baseUrl e a :
  attributes (resolveAttributes baseUrl e) !! a =
    if decide (a ∈ attrNames)
    then (λ value, Url.resolve value baseUrl) <$> attributes e !! a
    else attributes e !! a.
Proof.
  unfold resolveAttributes. simpl.
  set (f := λ value, Url.resolve value baseUrl).
  assert (∀ (names : list jsstring) (m : gmap jsstring jsstring),
            NoDup names →
            foldl (λ m a, alter f a m) m names !! a =
              if decide (a ∈ names) then f <$> m !! a else m !! a) as Hfold.
  { induction names as [|name names IH]; intros m Hdistinct.
    - cbn [foldl]. case_decide as Hin; [by apply elem_of_nil in Hin|done].
    - apply NoDup_cons in Hdistinct as [Hname Hnames].
      cbn [foldl]. rewrite IH by done.
      destruct (decide (a = name)) as [->|Hne].
      + rewrite decide_False by done.
        rewrite decide_True by left. apply lookup_alter_eq.
      + rewrite lookup_alter_ne by done.
        destruct (decide (a ∈ names)).
        * by rewrite decide_True by (by right).
        * rewrite decide_False; [done|].
          rewrite elem_of_cons. tauto. }
  assert (NoDup attrNames) as Hnames.
  { apply NoDup_ListNoDup. repeat constructor; simpl;
      intros Hin; repeat destruct Hin as [Hin|Hin]; try done;
      by vm_compute in Hin. }
  rewrite Hfold by (by apply NoDup_filter).
  destruct (decide (a ∈ attrNames)) as [Hin|Hout].
  - destruct (attributes e !! a) as [v|] eqn:Ha.
    + rewrite decide_True; [done|].
      apply list_elem_of_filter. split; [|done].
      unfold getAttribute. rewrite Ha. eauto.
    + by destruct (decide _).
  - rewrite decide_False; [done|].
    rewrite list_elem_of_filter. tauto.
Qed.

Lemma resolveIn_fold baseUrl elements d :
  NoDup elements →
  let d' := foldl (resolveIn baseUrl) d elements in
  forest d' = forest d ∧
  shadowRootOf d' = shadowRootOf d ∧
  ∀ n, elementOf d' !! n =
         if decide (n ∈ elements)
         then resolveAttributes baseUrl <$> elementOf d !! n
         else elementOf d !! n.
Proof.
  revert d. induction elements as [|m elements IH]; intros d Hdistinct.
  { cbn [foldl]. split_and!; [done..|]. intros n.
    case_decide as Hin; [by apply elem_of_nil in Hin|done]. }
  apply NoDup_cons in Hdistinct as [Hm Hdistinct]. cbn [foldl].
  destruct (IH (resolveIn baseUrl d m) Hdistinct) as (Hforest & Hshadow & Hel).
  split_and!; [done..|]. intros n. rewrite Hel.
  cbn [resolveIn elementOf].
  destruct (decide (n = m)) as [->|Hne].
  - rewrite decide_False by done. rewrite decide_True by left.
    apply lookup_alter_eq.
  - rewrite lookup_alter_ne by done.
    destruct (decide (n ∈ elements)).
    + by rewrite decide_True by (by right).
    + rewrite decide_False; [done|]. rewrite elem_of_cons. tauto.
Qed.

(** The elements [selReferences] selects below a node. *)
Lemma matchesSelector_references d np :
  matchesSelector d selReferences np = true ↔
  ∃ e, elementOf d !! np.1 = Some e ∧ referenceElement e.
Proof.
  unfold matchesSelector, selReferences, referenceElement. simpl.
  unfold isElementMatching.
  destruct (elementOf d !! np.1) as [e|]; simpl.
  - rewrite !orb_true_iff, !andb_true_iff, !bool_decide_eq_true.
    split; [intros Hm; exists e; split; [done|]|intros (? & [= <-] & Hm)];
      intuition (try discriminate).
  - split; [done|]. by intros (? & ? & _).
Qed.

Lemma elem_of_getElements_references container d t n :
  subtreeAt container (forest d) = Some t →
  n ∈ getElements selReferences container d ↔
  n ∈ forestIds (kidsOf t) ∧
  ∃ e, elementOf d !! n = Some e ∧ referenceElement e.
Proof.
  intros Ht. unfold getElements. rewrite Ht.
  rewrite <- descendantPairs_fst, !list_elem_of_fmap. split.
  - intros (np & -> & [Hmatch Hin]%list_elem_of_filter).
    split; [by exists np|]. by apply matchesSelector_references.
  - intros [(np & -> & Hin) Hmatch]. exists np. split; [done|].
    apply list_elem_of_filter. split; [|done].
    by apply matchesSelector_references.
Qed.

Lemma getElements_NoDup selector container d :
  NoDup (forestIds (forest d)) →
  NoDup (getElements selector container d).
Proof.
  intros Hdistinct. unfold getElements.
  destruct (subtreeAt container (forest d)) as [t|] eqn:Ht;
    [|apply NoDup_nil_2].
  assert (NoDup (treeIds t)) as Htree.
  { apply NoDup_ListNoDup.
    assert (∀ ts, NoDup (forestIds ts) → subtreeAt container ts = Some t →
                  NoDup (treeIds t)) as Hsub; [|apply NoDup_ListNoDup; eauto].
    clear. induction ts as [|id ks ts IHks IHts] using forest_ind; [done|].
    rewrite forestIds_cons, subtreeAt_cons, NoDup_cons, NoDup_app.
    intros (Hid & Hks & _ & Hts). case_decide.
    - intros [= <-]. simpl. apply NoDup_cons. split; [|done].
      rewrite not_elem_of_app in Hid. tauto.
    - destruct (subtreeAt container ks); [intros [= <-]|]; eauto. }
  apply (sublist_NoDup _ ((descendantPairs t).*1)).
  - rewrite descendantPairs_fst. destruct t as [id ks]. simpl in Htree.
    by apply NoDup_cons in Htree as [_ Hkids].
  - apply fmap_sublist, sublist_filter.
Qed.

End RewritingProperties.

(** *** What leaves the trees the DOM had *)

Lemma removeNode_comm n m ts :
  removeNode n (removeNode m ts) = removeNode m (removeNode n ts).
Proof.
  induction ts as [|id ks ts IHks IHts] using forest_ind; [done|].
  rewrite !removeNode_cons.
  destruct (decide (id = m)) as [Hm|Hm], (decide (id = n)) as [Hn|Hn];
    rewrite ?removeNode_cons, ?decide_True, ?decide_False by done;
    by rewrite ?IHks, ?IHts.
Qed.

Lemma removeNode_ids_subset n ts x :
  x ∈ forestIds (removeNode n ts) → x ∈ forestIds ts.
Proof.
  induction ts as [|id ks ts IHks IHts] using forest_ind; [done|].
  rewrite removeNode_cons, forestIds_cons, elem_of_cons, elem_of_app.
  case_decide; [auto|].
  rewrite forestIds_cons, elem_of_cons, elem_of_app. intuition.
Qed.

(** In a forest of distinct identities nothing of a node's subtree is
    left once the node is taken out. *)
Lemma removeNode_excludes n ts s x :
  NoDup (forestIds ts) →
  subtreeAt n ts = Some s →
  x ∈ treeIds s →
  x ∉ forestIds (removeNode n ts).
Proof.
  intros Hdistinct Hs Hx Hin.
  rewrite (removeNode_split _ _ _ Hdistinct Hs) in Hdistinct.
  apply NoDup_app in Hdistinct as (_ & Hdisj & _). by apply (Hdisj x).
Qed.

Lemma removeAll_cons m nodes ts :
  removeAll (m :: nodes) ts = removeAll nodes (removeNode m ts).
Proof. done. Qed.

Lemma removeAll_ids_subset nodes ts x :
  x ∈ forestIds (removeAll nodes ts) → x ∈ forestIds ts.
Proof.
  revert ts. induction nodes as [|m nodes IH]; intros ts; [done|].
  rewrite removeAll_cons. intros Hin%IH. by eapply removeNode_ids_subset.
Qed.

Lemma removeAll_excludes nodes ts n x :
  n ∈ nodes →
  x ∉ forestIds (removeNode n ts) →
  x ∉ forestIds (removeAll nodes ts).
Proof.
  revert ts. induction nodes as [|m nodes IH]; intros ts;
    [by intros ?%elem_of_nil|].
  rewrite removeAll_cons. intros [->|Hn]%elem_of_cons Hout.
  - intros Hin%removeAll_ids_subset. done.
  - apply IH; [done|]. rewrite removeNode_comm.
    intros Hin%removeNode_ids_subset. done.
Qed.

Lemma removeAll_app nodes ts1 ts2 :
  removeAll nodes (ts1 ++ ts2) = removeAll nodes ts1 ++ removeAll nodes ts2.
Proof.
  revert ts1 ts2. induction nodes as [|m nodes IH]; intros ts1 ts2; [done|].
  by rewrite !removeAll_cons, removeNode_app, IH.
Qed.

Lemma removeAll_absent nodes ts :
  (∀ n, n ∈ nodes → n ∉ forestIds ts) → removeAll nodes ts = ts.
Proof.
  induction nodes as [|m nodes IH]; intros Hout; [done|].
  rewrite removeAll_cons, removeNode_absent by (apply Hout; left).
  apply IH. intros n Hn. apply Hout. by right.
Qed.

Lemma removeAll_nil nodes : removeAll nodes [] = [].
Proof. by induction nodes. Qed.

Lemma removeAll_leaf_gone nodes c :
  c ∈ nodes → removeAll nodes [Node c []] = [].
Proof.
  induction nodes as [|m nodes IH]; [by intros ?%elem_of_nil|].
  rewrite removeAll_cons, removeNode_cons. intros [->|Hc]%elem_of_cons.
  - rewrite decide_True by done. apply removeAll_nil.
  - case_decide; [apply removeAll_nil|by apply IH].
Qed.

(** What [append] leaves outside the fragment is the forest without the
    nodes it moved. *)
Lemma gather_rest nodes acc :
  (foldl moveInto acc nodes).2 = removeAll nodes acc.2.
Proof.
  revert acc. induction nodes as [|m nodes IH]; intros acc; [done|].
  rewrite removeAll_cons. cbn [foldl]. rewrite IH. f_equal.
  destruct acc as [fragment rest]. unfold moveInto. simpl.
  destruct (subtreeAt m (fragment ++ rest)) as [t|] eqn:Hfound; [done|].
  simpl. apply subtreeAt_None in Hfound.
  rewrite forestIds_app, not_elem_of_app in Hfound.
  symmetry. apply removeNode_absent. tauto.
Qed.

Section IsolatorForest.
Context `{Url.Api} `{StandardCss}.

(** The forest after [shadow.append(...)]: the trees the DOM had,
    without the nodes that were moved, then the container and the
    shadow root with the moved nodes as its children. No identity is
    lost or doubled; three are new. *)
Lemma organize_forest contents d :
  NoDup (forestIds (forest d)) →
  ∃ container css shadow d1 fragment moved,
    organize contents d = (container, shadow, d1) ∧
    forest d1 =
      removeAll moved (forest d) ++
      [Node container []; Node shadow fragment] ∧
    subtreeAt shadow (forest d1) = Some (Node shadow fragment) ∧
    shadowRootOf d1 !! container = Some shadow ∧
    NoDup (forestIds (forest d1)) ∧
    forestIds (forest d1) ≡ₚ
      forestIds (forest d) ++ [container; css; shadow] ∧
    (∀ n e, elementOf d !! n = Some e → elementOf d1 !! n = Some e) ∧
    (∀ n name,
       n ∈ asArray contents →
       n ∈ forestIds (forest d) →
       nodeName <$> elementOf d !! n = Some name →
       keptName name →
       n ∈ moved ∧ n ∈ rootOf <$> fragment).
Proof.
  intros Hdistinct. unfold organize, createElement, getStandardCss,
    createElementWith, attachShadow.
  set (da := {| forest := forest d ++ [Node (newNode d) []];
                elementOf := <[newNode d := _]> (elementOf d);
                shadowRootOf := shadowRootOf d |}).
  set (db := {| forest := forest da ++ [Node (newNode da) []];
                elementOf := <[newNode da := _]> (elementOf da);
                shadowRootOf := shadowRootOf da |}).
  set (dc := {| forest := forest db ++ [Node (newNode db) []];
                elementOf := elementOf db;
                shadowRootOf := <[newNode d := newNode db]> (shadowRootOf db) |}).
  destruct (newNode_fresh d) as [Hc_forest Hc_element].
  destruct (newNode_fresh da) as [Hcss_forest Hcss_element].
  destruct (newNode_fresh db) as [Hs_forest Hs_element].
  set (container := newNode d) in *.
  set (css := newNode da) in *.
  set (shadow := newNode db) in *.
  assert (forest dc =
          forest d ++ [Node container []] ++ [Node css []] ++ [Node shadow []])
    as Hforest_c.
  { simpl. by rewrite <- !(assoc (++)). }
  assert (forestIds (forest dc) =
          forestIds (forest d) ++ [container; css; shadow]) as Hids.
  { rewrite Hforest_c, !forestIds_app. done. }
  assert (forestIds (forest db) = forestIds (forest d) ++ [container; css])
    as Hids_b.
  { simpl. rewrite !forestIds_app. simpl. by rewrite <- !(assoc (++)). }
  assert (forestIds (forest da) = forestIds (forest d) ++ [container])
    as Hids_a.
  { simpl. by rewrite !forestIds_app. }
  rewrite Hids_a in Hcss_forest. rewrite Hids_b in Hs_forest.
  rewrite not_elem_of_app, not_elem_of_cons in Hcss_forest.
  rewrite not_elem_of_app, !not_elem_of_cons in Hs_forest.
  destruct Hcss_forest as (Hcss_d & Hcss_c & _).
  destruct Hs_forest as (Hs_d & Hs_c & Hs_css & _).
  assert (NoDup (forestIds (forest dc))) as Hdistinct_c.
  { rewrite Hids. apply NoDup_app. split_and!; [done| |].
    - intros x Hx. rewrite !elem_of_cons, elem_of_nil.
      intros [->|[->|[->|[]]]]; tauto.
    - rewrite !NoDup_cons, !not_elem_of_cons. split_and!;
        try apply not_elem_of_nil; try apply NoDup_nil_2; congruence. }
  assert (∀ n e, elementOf d !! n = Some e → elementOf dc !! n = Some e)
    as Helements.
  { intros n e Hn. simpl.
    assert (n ≠ container) by (intros ->; congruence).
    assert (elementOf da !! n = Some e) as Hna
      by (simpl; by rewrite lookup_insert_ne).
    assert (n ≠ css) by (intros ->; congruence).
    by rewrite lookup_insert_ne. }
  destruct (foldl (sortContents dc) ([css], []) (asArray contents))
    as [head body] eqn:Hsort.
  pose proof (sortContents_fold _ _ _ _ _ _ Hsort) as Hsorted.
  assert (css ∈ head ++ body) as Hcss_moved.
  { apply Hsorted. left. simpl. left. }
  assert (shadow ∉ head ++ body) as Hshadow.
  { rewrite Hsorted. rewrite app_nil_r, elem_of_cons, elem_of_nil.
    intros [[Heq|[]]|(_ & name & Hname & _)]; [congruence|].
    change (elementOf dc) with (elementOf db) in Hname.
    by rewrite Hs_element in Hname. }
  assert (container ∉ head ++ body) as Hcontainer.
  { rewrite Hsorted. rewrite app_nil_r, elem_of_cons, elem_of_nil.
    intros [[Heq|[]]|(_ & name & Hname & Hkept)]; [congruence|].
    simpl in Hname. rewrite lookup_insert_ne, lookup_insert_eq in Hname
      by congruence.
    injection Hname as <-. unfold keptName in Hkept.
    destruct Hkept as [Hk|[Hk|Hk]]; by vm_compute in Hk. }
  unfold append, gather.
  destruct (gather_roots (forest dc) shadow Hdistinct_c (head ++ body)
              ([], forest dc)) as [[Hperm Hleaf] Hroots]; [|done|].
  { split; [done|]. simpl. apply elem_of_app. right. left. }
  pose proof (gather_rest (head ++ body) ([], forest dc)) as Hrest.
  destruct (foldl moveInto ([], forest dc) (head ++ body))
    as [fragment rest] eqn:Hgather. simpl in Hperm, Hleaf, Hroots.
  cbn [fst snd] in Hrest.
  assert (NoDup (forestIds (fragment ++ rest))) as Hdistinct_g
    by (by rewrite Hperm).
  rewrite forestIds_app in Hdistinct_g.
  apply NoDup_app in Hdistinct_g as (Hfragment & Hdisjoint & Hdistinct_r).
  destruct (appendKids_leaf shadow fragment rest Hdistinct_r Hleaf)
    as [Hsub Hperm'].
  set (old := removeAll (head ++ body) (forest d)).
  assert (rest = old ++ [Node container []; Node shadow []]) as Hrest'.
  { rewrite Hrest, Hforest_c, !removeAll_app.
    rewrite (removeAll_absent _ [Node container []]).
    2:{ intros n Hn [->|[]%elem_of_nil]%elem_of_cons. done. }
    rewrite (removeAll_leaf_gone _ css) by done.
    rewrite (removeAll_absent _ [Node shadow []]).
    2:{ intros n Hn [->|[]%elem_of_nil]%elem_of_cons. done. }
    done. }
  assert (shadow ∉ forestIds old) as Hs_old.
  { intros Hin%removeAll_ids_subset. done. }
  assert (appendKids shadow fragment <$> rest =
          old ++ [Node container []; Node shadow fragment]) as Hforest1.
  { rewrite Hrest', fmap_app, (appendKids_absent shadow _ old) by done.
    rewrite !appendKids_cons.
    rewrite (decide_False (P := container = shadow)) by congruence.
    by rewrite (decide_True (P := shadow = shadow)) by done. }
  exists container, css, shadow,
    {| forest := appendKids shadow fragment <$> rest;
       elementOf := elementOf dc;
       shadowRootOf := shadowRootOf dc |}, fragment, (head ++ body).
  split_and!; [done|done|done| | | |done|].
  - simpl. apply lookup_insert_eq.
  - simpl. rewrite Hperm', (comm (++)), <- forestIds_app. by rewrite Hperm.
  - simpl. rewrite Hperm', (comm (++)), <- forestIds_app, Hperm.
    by rewrite <- Hids.
  - intros n name Hn Hforest Hname Hkept.
    assert (n ∈ head ++ body) as Hmoved.
    { apply Hsorted. right. split; [done|]. exists name. split; [|done].
      destruct (elementOf d !! n) as [e|] eqn:He; [|done].
      by rewrite (Helements _ _ He). }
    split; [done|]. apply Hroots. left. split; [done|].
    change (n ∈ forestIds (forest dc)).
    rewrite Hids. apply elem_of_app. by left.
Qed.

End IsolatorForest.

Section IsolatorTheorems.
Context `{Url.Api} `{StandardCss}.

Lemma getSandboxedElement_organize contents baseUrl d container shadow d1 :
  organize contents d = (container, shadow, d1) →
  getSandboxedElement contents baseUrl d =
    (container,
     foldl (resolveIn (Url.folderOf baseUrl)) d1
       (getElements selReferences shadow d1)).
Proof. intros Horganize. unfold getSandboxedElement. by rewrite Horganize. Qed.

Lemma scopeOf_shadow container shadow d fragment :
  shadowRootOf d !! container = Some shadow →
  subtreeAt shadow (forest d) = Some (Node shadow fragment) →
  scopeOf container d = forestIds fragment.
Proof. intros Hshadow Htree. unfold scopeOf. by rewrite Hshadow, Htree. Qed.

(** C2. The scope holds the nodes it was given, not copies. Every
    SECTION, LINK or STYLE element passed in becomes, under the identity
    it had, a child of the shadow root of the new container. It and
    every node below it are in the scope afterwards and are no longer in
    the trees the DOM had, which are the old trees without the nodes
    that were moved. No node is copied: identities stay distinct, and
    the DOM has the nodes it had and three new ones. The rewriting acts
    on these nodes in place: what the DOM holds afterwards under the
    identity of such a node is the element it held before, with its
    address attributes resolved when one of the five selectors selects
    it and unchanged otherwise. *)
Theorem getSandboxedElement_holds_input contents baseUrl d n name s :
  NoDup (forestIds (forest d)) →
  n ∈ asArray contents →
  subtreeAt n (forest d) = Some s →
  nodeName <$> elementOf d !! n = Some name →
  keptName name →
  ∃ container css shadow d' fragment moved,
    getSandboxedElement contents baseUrl d = (container, d') ∧
    shadowRootOf d' !! container = Some shadow ∧
    forest d' =
      removeAll moved (forest d) ++
      [Node container []; Node shadow fragment] ∧
    n ∈ moved ∧
    n ∈ rootOf <$> fragment ∧
    NoDup (forestIds (forest d')) ∧
    forestIds (forest d') ≡ₚ
      forestIds (forest d) ++ [container; css; shadow] ∧
    (∀ x, x ∈ treeIds s →
       x ∈ scopeOf container d' ∧
       ¬ (x ∈ forestIds (removeAll moved (forest d))) ∧
       ∀ e, elementOf d !! x = Some e →
            (referenceElement e →
             elementOf d' !! x =
               Some (resolveAttributes (Url.folderOf baseUrl) e)) ∧
            (¬ referenceElement e → elementOf d' !! x = Some e)).
Proof.
  intros Hdistinct Hn Hs Hname Hkept.
  destruct (subtreeAt_Some _ _ _ Hs) as [_ Hn_forest].
  destruct (organize_forest contents d Hdistinct)
    as (container & css & shadow & d1 & fragment & moved & Horganize &
        Hforest1 & Htree & Hshadow & Hdistinct1 & Hperm & Helements & Hmoved).
  destruct (Hmoved n name Hn Hn_forest Hname Hkept) as [Hn_moved Hn_root].
  destruct (resolveIn_fold (Url.folderOf baseUrl)
              (getElements selReferences shadow d1) d1
              (getElements_NoDup _ _ _ Hdistinct1))
    as (Hforest' & Hshadow' & Hrewritten).
  eexists container, css, shadow, _, fragment, moved.
  split; [by apply getSandboxedElement_organize|].
  rewrite Hforest', Hshadow'. split_and!; try done.
  intros x Hx.
  assert (x ∈ forestIds (forest d)) as Hx_forest
    by (by eapply subtreeAt_ids).
  assert (x ∉ forestIds (removeAll moved (forest d))) as Hx_old.
  { apply (removeAll_excludes _ _ n); [done|].
    by apply (removeNode_excludes n (forest d) s). }
  assert (x ∈ forestIds fragment) as Hx_fragment.
  { assert (x ∈ forestIds (forest d1)) as Hx1.
    { rewrite Hperm. apply elem_of_app. by left. }
    assert (NoDup (forestIds (forest d) ++ [container; css; shadow]))
      as Hnew by (by rewrite <- Hperm).
    apply NoDup_app in Hnew as (_ & Hnew & _).
    rewrite Hforest1, forestIds_app, elem_of_app in Hx1.
    destruct Hx1 as [Hx1|Hx1]; [done|].
    simpl in Hx1. rewrite app_nil_r in Hx1.
    rewrite !elem_of_cons in Hx1. destruct Hx1 as [->|[->|Hx1]]; [| |done].
    - exfalso. apply (Hnew _ Hx_forest). left.
    - exfalso. apply (Hnew _ Hx_forest). right. right. left. }
  split_and!; [|done|].
  - rewrite (scopeOf_shadow container shadow _ fragment); [done|..].
    + by rewrite Hshadow'.
    + by rewrite Hforest'.
  - intros e He. rewrite Hrewritten, (Helements _ _ He).
    pose proof (elem_of_getElements_references _ _ _ x Htree) as Hselected.
    simpl in Hselected. split.
    + intros Href. rewrite decide_True; [done|].
      apply Hselected. split; [done|]. exists e. split; [|done]. auto.
    + intros Hnot. rewrite decide_False; [done|].
      intros [_ (e' & He' & Href)]%Hselected.
      rewrite (Helements _ _ He) in He'. injection He' as <-. done.
Qed.


End IsolatorTheorems.

(** *** The isolator on the sample Reel *)

(** The poster is isolated with the document's stylesheet link and style
    element. The SECTION that was passed in is itself in the scope; the
    document it came from has lost it; and the image below it, still the
    same node, has had its [src] rewritten. *)
Lemma getSandboxedElement_isolation_counterexample :
  let contents :=
    ElementArray [ReelCase.styleLink; ReelCase.style; ReelCase.poster] in
  let '(container, d') :=
    @getSandboxedElement Sample.url Sample.css contents ReelCase.reelUrl
      ReelCase.dom in
  ReelCase.poster ∈ asArray contents ∧
  ReelCase.poster ∈ scopeOf container d' ∧
  getElements selBodySections ReelCase.doc ReelCase.dom
    = [ReelCase.poster; ReelCase.second] ∧
  getElements selBodySections ReelCase.doc d' = [ReelCase.second] ∧
  (elementOf ReelCase.dom !! ReelCase.image
     ≫= λ e, getAttribute e (js "src")) = Some (js "p.png") ∧
  (elementOf d' !! ReelCase.image
     ≫= λ e, getAttribute e (js "src")) = Some (js "https://x/r/p.png").
Proof.
  vm_compute. split_and!; try reflexivity.
  - apply list_elem_of_In. simpl. tauto.
  - apply list_elem_of_In. simpl. tauto.
Qed.


Lemma sample_dom_distinct : NoDup (forestIds (forest ReelCase.dom)).
Proof.
  apply NoDup_ListNoDup. vm_compute.
  repeat (constructor; [simpl; intros Hin; repeat destruct Hin as [Hin|Hin]; done|]).
  constructor.
Qed.

Lemma getSandboxedElement_holds_input_witness :
  let contents :=
    ElementArray [ReelCase.styleLink; ReelCase.style; ReelCase.poster] in
  let d := ReelCase.dom in
  let s :=
    Node ReelCase.poster
      [Node ReelCase.image []; Node ReelCase.video [];
       Node ReelCase.lazyImage []] in
  ∃ container css shadow d' fragment moved,
    @getSandboxedElement Sample.url Sample.css contents ReelCase.reelUrl d
      = (container, d') ∧
    shadowRootOf d' !! container = Some shadow ∧
    forest d' =
      removeAll moved (forest d) ++
      [Node container []; Node shadow fragment] ∧
    ReelCase.poster ∈ moved ∧
    ReelCase.poster ∈ rootOf <$> fragment ∧
    NoDup (forestIds (forest d')) ∧
    forestIds (forest d') ≡ₚ
      forestIds (forest d) ++ [container; css; shadow] ∧
    (∀ x, x ∈ treeIds s →
       x ∈ scopeOf container d' ∧
       ¬ (x ∈ forestIds (removeAll moved (forest d))) ∧
       ∀ e, elementOf d !! x = Some e →
            (referenceElement e →
             elementOf d' !! x =
               Some (@resolveAttributes Sample.url
                       (@Url.folderOf Sample.url ReelCase.reelUrl) e)) ∧
            (¬ referenceElement e → elementOf d' !! x = Some e)).
Proof.
  apply (@getSandboxedElement_holds_input Sample.url Sample.css
           (ElementArray [ReelCase.styleLink; ReelCase.style; ReelCase.poster])
           ReelCase.reelUrl ReelCase.dom ReelCase.poster (js "SECTION")
           (Node ReelCase.poster
              [Node ReelCase.image []; Node ReelCase.video [];
               Node ReelCase.lazyImage []])).
  - compute_done.
  - compute_done.
  - reflexivity.
  - reflexivity.
  - left. reflexivity.
Defined.


(** The specification's third scenario: the image of the isolated poster
    refers to [https://x/r/p.png]. *)
Example getSandboxedElement_scenario_3 :
  let '(container, d') :=
    @getSandboxedElement Sample.url Sample.css (OneElement ReelCase.poster)
      ReelCase.reelUrl ReelCase.dom in
  scopeOf container d' =
    [newNode
       {| forest := forest ReelCase.dom ++ [Node container []];
          elementOf :=
            <[container := Sample.element (js "DIV") []]>
              (elementOf ReelCase.dom);
          shadowRootOf := ∅ |};
     ReelCase.poster; ReelCase.image; ReelCase.video; ReelCase.lazyImage] ∧
  (elementOf d' !! ReelCase.image ≫= λ e, getAttribute e (js "src"))
    = Some (js "https://x/r/p.png").
Proof. vm_compute. split; reflexivity. Qed.

(** * Further properties *)

(** ** Feed texts *)

Lemma split_app_sep sep s1 s2 :
  JsString.split sep (s1 ++ sep :: s2) =
    JsString.split sep s1 ++ JsString.split sep s2.
Proof.
  induction s1 as [|c s1 IH]; simpl.
  - by rewrite N.eqb_refl.
  - destruct (c =? sep)%N; [by rewrite IH|].
    rewrite IH. pose proof (split_nonempty sep s1) as Hne.
    by destruct (JsString.split sep s1).
Qed.

Lemma split_no_sep sep s : sep ∉ s → JsString.split sep s = [s].
Proof.
  induction s as [|c s IH]; [done|].
  intros [Hc Hs]%not_elem_of_cons. simpl.
  destruct (N.eqb_spec c sep) as [->|_]; [done|]. by rewrite IH.
Qed.

Section FeedTextProperties.
Context `{Url.Api}.

Lemma feedLines_app_sep feedUrl t1 t2 :
  feedLines feedUrl (t1 ++ 10%N :: t2) =
    feedLines feedUrl t1 ++ feedLines feedUrl t2.
Proof.
  unfold feedLines.
  by rewrite split_app_sep, fmap_app, !filter_app, fmap_app.
Qed.

Lemma feedLines_nil feedUrl : feedLines feedUrl [] = [].
Proof. done. Qed.

(** X1. Reading a feed in two parts, cut after a line feed, gives the same
    URLs as reading it whole: no entry is lost or doubled at the cut. *)
Theorem feedLines_resume feedUrl firstPart rest :
  last firstPart = Some 10%N →
  feedLines feedUrl (firstPart ++ rest) =
    feedLines feedUrl firstPart ++ feedLines feedUrl rest.
Proof.
  intros Hlast.
  destruct firstPart as [|c firstPart _] using rev_ind; [done|].
  rewrite last_snoc in Hlast. injection Hlast as ->.
  rewrite <- (assoc (++)). simpl.
  rewrite feedLines_app_sep.
  replace (firstPart ++ [10%N]) with (firstPart ++ 10%N :: []) by done.
  by rewrite feedLines_app_sep, feedLines_nil, app_nil_r.
Qed.

(** X2. A line that is blank or a comment can be put between any two lines
    of a feed without changing the URLs read from it. *)
Theorem feedLines_comment_line feedUrl before line after :
  10%N ∉ line →
  (JsString.trim line = [] ∨ hd_error (JsString.trim line) = Some 35%N) →
  feedLines feedUrl (before ++ 10%N :: line ++ 10%N :: after) =
    feedLines feedUrl (before ++ 10%N :: after).
Proof.
  intros Hline Hskip.
  rewrite !feedLines_app_sep. f_equal.
  rewrite <- (app_nil_l (feedLines feedUrl after)) at 2. f_equal.
  unfold feedLines. rewrite split_no_sep by done. simpl.
  destruct Hskip as [->|Hhash].
  - by rewrite filter_cons_False by (by intros ?).
  - destruct (JsString.trim line) as [|c entry]; [done|].
    injection Hhash as ->.
    rewrite filter_cons_True by done.
    by rewrite filter_cons_False by (by intros ?).
Qed.

End FeedTextProperties.

(** *** Carriage returns *)

Lemma trimStart_app_nonblank s c :
  JsString.trimStart s ≠ [] →
  JsString.trimStart (s ++ [c]) = JsString.trimStart s ++ [c].
Proof.
  induction s as [|a s IH]; [done|]. simpl.
  destruct (JsString.isWhiteSpace a); [apply IH|done].
Qed.

Lemma trimStart_app_blank s c :
  JsString.trimStart s = [] → JsString.isWhiteSpace c = true →
  JsString.trimStart (s ++ [c]) = [].
Proof.
  intros Hs Hc. induction s as [|a s IH]; simpl in *.
  - by rewrite Hc.
  - destruct (JsString.isWhiteSpace a); [by apply IH|done].
Qed.

Lemma trim_snoc_blank s c :
  JsString.isWhiteSpace c = true → JsString.trim (s ++ [c]) = JsString.trim s.
Proof.
  intros Hc. unfold JsString.trim.
  destruct (JsString.trimStart s) as [|a t] eqn:Hs.
  - by rewrite trimStart_app_blank.
  - rewrite trimStart_app_nonblank by (by rewrite Hs).
    rewrite Hs. unfold JsString.trimEnd.
    rewrite reverse_snoc. simpl. by rewrite Hc.
Qed.

Lemma split_crlf text :
  Forall2 (λ a b, a = b ∨ a = b ++ [13%N])
    (JsString.split 10 (crlf text)) (JsString.split 10 text).
Proof.
  induction text as [|c text IH]; simpl.
  - constructor; [by left|constructor].
  - destruct (N.eqb_spec c 10) as [->|Hc]; simpl.
    + pose proof (split_nonempty 10 (crlf text)) as Hne.
      destruct (JsString.split 10 (crlf text)) as [|p ps] eqn:Hsplit; [done|].
      constructor; [by right|done].
    + rewrite (proj2 (N.eqb_neq c 10) Hc).
      destruct IH as [|p q ps qs Hpq Hrest]; [constructor; [by left|constructor]|].
      constructor; [|done]. destruct Hpq as [->| ->]; [by left|by right].
Qed.

Section CarriageReturnProperties.
Context `{Url.Api}.

(** X3. A feed written with CRLF line ends gives the same URLs as the same
    feed written with LF line ends. *)
Theorem feedLines_crlf feedUrl text :
  feedLines feedUrl (crlf text) = feedLines feedUrl text.
Proof.
  unfold feedLines. do 3 f_equal.
  induction (split_crlf text) as [|a b ps qs Hab _ IH]; [done|].
  rewrite !fmap_cons, IH. f_equal.
  destruct Hab as [->| ->]; [done|]. by apply trim_snoc_blank.
Qed.

End CarriageReturnProperties.

(** ** What is sent to the network *)

Section RequestProperties.
Context `{Url.Api} {W : Type} (T : Transport W).

Lemma getHttpContent_recorded relativeUri startingByte w log :
  (@getHttpContent _ _ (recording T) relativeUri startingByte (w, log)).2.2 =
    log ++
    [(Url.resolve relativeUri Url.getCurrent,
      if 0 <? startingByte
      then [(js "pragma", js "no-cache"); (js "cache-control", js "no-cache")] ++
           [(js "range", js "bytes=" ++ Number_toString startingByte ++ js "-")]
      else [(js "pragma", js "no-cache"); (js "cache-control", js "no-cache")])].
Proof.
  unfold getHttpContent. cbn [window_fetch recording fst snd].
  destruct (window_fetch _ _ w) as [[|ok hdrs body] w']; [done|].
  destruct ok; [|done]. by destruct body.
Qed.

Lemma getFeedFromUrl_recorded feedUrl startingByte w log :
  (@getFeedFromUrl _ _ (recording T) feedUrl startingByte (w, log)).2.2 =
    (@getHttpContent _ _ (recording T) feedUrl startingByte (w, log)).2.2.
Proof.
  unfold getFeedFromUrl.
  destruct (getHttpContent feedUrl startingByte (w, log)) as [[r|] s'];
    [by case_bool_decide|done].
Qed.

(** X4. A feed read makes exactly one request, for the feed address resolved
    against the current location; the request always carries the two
    no-cache headers, and a [range] header exactly when the starting
    byte [N] is positive; for a starting byte that is a safe integer the
    value of that header is [bytes=N-] with [N] in decimal digits. *)
Theorem getFeedFromUrl_request feedUrl startingByte w log :
  ∃ requestHeaders,
    (@getFeedFromUrl _ _ (recording T) feedUrl startingByte (w, log)).2.2 =
      log ++ [(Url.resolve feedUrl Url.getCurrent, requestHeaders)] ∧
    (js "pragma", js "no-cache") ∈ requestHeaders ∧
    (js "cache-control", js "no-cache") ∈ requestHeaders ∧
    (0 < startingByte →
     ∃ value,
       (js "range", value) ∈ requestHeaders ∧
       (startingByte ≤ MAX_SAFE_INTEGER →
        value = js "bytes=" ++ js (pretty startingByte) ++ js "-")) ∧
    (startingByte ≤ 0 → ∀ value, (js "range", value) ∉ requestHeaders).
Proof.
  pose proof (getHttpContent_recorded feedUrl startingByte w log) as Hlog.
  eexists. split.
  - unfold getFeedFromUrl.
    destruct (getHttpContent feedUrl startingByte (w, log)) as [[r|] s'];
      [case_bool_decide|]; exact Hlog.
  - destruct (Z.ltb_spec 0 startingByte) as [Hpos|Hneg]; split_and!.
    + apply elem_of_app. left. left.
    + apply elem_of_app. left. right. left.
    + intros _. eexists. split; [|done]. apply elem_of_app. right. left.
    + lia.
    + left.
    + right. left.
    + lia.
    + intros _ value Hin.
      apply list_elem_of_In in Hin. cbn [In] in Hin.
      destruct Hin as [Heq|[Heq|[]]]; by vm_compute in Heq.
Qed.

(** Reading the sample feed on from byte 24 asks for [bytes=24-]. *)
Example getFeedFromUrl_request_from_24 :
  (@getFeedFromUrl Sample.url _ (recording FeedCase.served) FeedCase.feedUrl
     24 ([], [])).2.2 =
    [(FeedCase.feedUrl,
      [(js "pragma", js "no-cache"); (js "cache-control", js "no-cache");
       (js "range", js "bytes=24-")])].
Proof. reflexivity. Qed.

End RequestProperties.

(** ** More on the metadata discoverer *)

Section MoreMetaDataProperties.
Context `{Url.Api} `{Host} `{ForeignDocumentReader}
        {W : Type} `{Transport W}.

Lemma upscan_found safety u w found w' :
  upscan safety u w = (Returned (Some found), w') →
  ∃ content, metaDataIn (text content) = Some found.
Proof.
  revert u w. induction safety as [|safety IH]; intros u w; [done|].
  simpl. destruct (getHttpContent u 0 w) as [c w1].
  destruct (metaDataAt c) as [m|] eqn:Hmeta.
  - intros [= -> ->]. destruct c as [content|]; [|done]. by exists content.
  - destruct (URL_new (js "..") u) as [p|]; [|done].
    case_decide; [done|]. apply IH.
Qed.

(** X5. The metadata the discoverer returns is never empty: a
    description or an icon is there. *)
Theorem getFeedMetaData_never_empty feedUrl w found w' :
  getFeedMetaData feedUrl w = (Returned (Some found), w') →
  description found ≠ [] ∨ icon found ≠ [].
Proof.
  intros (content & Hfound)%upscan_found.
  by destruct (metaDataIn_Some _ _ Hfound) as (_ & _ & ?).
Qed.

Lemma upscan_threw safety u w w' :
  upscan safety u w = (Threw, w') ↔
  ∃ k u' w1 c,
    (k < safety)%nat ∧
    Climb k u w u' w1 ∧
    getHttpContent u' 0 w1 = (c, w') ∧
    metaDataAt c = None ∧
    URL_new (js "..") u' = None.
Proof.
  split.
  - revert u w. induction safety as [|safety IH]; intros u w; [done|].
    simpl. destruct (getHttpContent u 0 w) as [c w1] eqn:Hget.
    destruct (metaDataAt c) as [m|] eqn:Hmeta; [done|].
    destruct (URL_new (js "..") u) as [p|] eqn:Hp.
    + case_decide as Hup; [done|]. intros Hthrew.
      destruct (IH _ _ Hthrew) as (k & u' & w2 & c' & Hk & Hclimb & Hrest).
      exists (S k), u', w2, c'. split; [lia|]. split; [|done].
      by eapply Climb_up.
    + intros [= <-]. exists 0%nat, u, w, c.
      split_and!; [lia|constructor|done..].
  - intros (k & u' & w1 & c & Hk & Hclimb & Hget & Hmeta & Hurl).
    revert safety Hk.
    induction Hclimb as [u w|k u w c0 w0 p u' w1 Hget0 Hnone Hp Hne _ IH];
      intros safety Hk; (destruct safety as [|safety]; [lia|]); simpl.
    + by rewrite Hget, Hmeta, Hurl.
    + rewrite Hget0, Hnone, Hp, decide_False by done.
      apply IH; [done..|lia].
Qed.

(** X6. The discoverer throws exactly when the [URL] constructor rejects
    the address of a directory it has fetched without finding metadata,
    after walking up to it through fewer than a thousand directories. *)
Theorem getFeedMetaData_throws feedUrl w w' :
  getFeedMetaData feedUrl w = (Threw, w') ↔
  ∃ k u w1 c,
    (k < 1000)%nat ∧
    Climb k (Url.folderOf feedUrl) w u w1 ∧
    getHttpContent u 0 w1 = (c, w') ∧
    metaDataAt c = None ∧
    URL_new (js "..") u = None.
Proof. apply upscan_threw. Qed.

End MoreMetaDataProperties.

(** ** More on the Reel reader *)

Section MoreReelProperties.
Context `{Url.Api} `{Host}.

(** The href a link contributes to the feeds: its [href] attribute when
    that is present and not empty. *)
Lemma feedInfoOf_href e :
  href <$> feedInfoOf e =
    getAttribute e (js "href") ≫= λ h, if truthy h then Some h else None.
Proof.
  unfold feedInfoOf. by destruct (getAttribute e (js "href")) as [[|c h]|].
Qed.

(** X7. The feeds of a document are declared in document order, one for
    each feed link that has a non-empty [href]; feed links without an
    [href] or with an empty one are passed over. *)
Theorem getFeedsFromDocument_hrefs doc d :
  href <$> getFeedsFromDocument doc d =
    omap (λ link,
            elementOf d !! link ≫= λ e,
            getAttribute e (js "href") ≫= λ h,
            if truthy h then Some h else None)
      (getElements selFeedLinks doc d).
Proof.
  unfold getFeedsFromDocument. rewrite list_fmap_omap.
  apply list_omap_ext. apply Forall2_same_length_lookup_2; [done|].
  intros i link link' Hlink Hlink'. rewrite Hlink in Hlink'.
  injection Hlink' as <-.
  destruct (elementOf d !! link) as [e|]; [|done]. simpl.
  apply feedInfoOf_href.
Qed.

(** X8. A feed is subscribable exactly when its link has a [type]
    attribute whose lower-cased value is "text/feed": not without the
    attribute, and for "Text/Feed" as for "text/feed". *)
Theorem getFeedsFromDocument_subscribable doc d info :
  info ∈ getFeedsFromDocument doc d →
  ∃ link el,
    link ∈ getElements selFeedLinks doc d ∧
    elementOf d !! link = Some el ∧
    getAttribute el (js "href") = Some (href info) ∧
    (subscribable info = true ↔
     ∃ v, getAttribute el (js "type") = Some v ∧
          toLowerCase v = js "text/feed") ∧
    (getAttribute el (js "type") = None → subscribable info = false) ∧
    (∀ v, getAttribute el (js "type") = Some v →
          JsString.isAscii v →
          JsString.asciiLower <$> v = js "text/feed" →
          subscribable info = true).
Proof.
  intros (link & el & Hlink & Hel & Hinfo)%elem_of_getFeedsFromDocument.
  exists link, el. split_and!; [done|done| | | |].
  - by destruct (feedInfoOf_Some _ _ Hinfo) as (? & _).
  - unfold feedInfoOf in Hinfo.
    destruct (getAttribute el (js "href")) as [[|c h]|]; [done| |done].
    injection Hinfo as <-. simpl.
    rewrite bool_decide_eq_true.
    destruct (getAttribute el (js "type")) as [v|]; simpl.
    + split; [intros [= Hv]; eauto|intros (v' & [= <-] & ->); done].
    + split; [done|]. by intros (? & ? & _).
  - intros Htype. unfold feedInfoOf in Hinfo.
    destruct (getAttribute el (js "href")) as [[|c h]|]; [done| |done].
    injection Hinfo as <-. simpl. by rewrite Htype.
  - intros v Htype Hascii Hlower. unfold feedInfoOf in Hinfo.
    destruct (getAttribute el (js "href")) as [[|c h]|]; [done| |done].
    injection Hinfo as <-. simpl. rewrite Htype. simpl.
    rewrite toLowerCase_ascii, Hlower by done.
    by apply bool_decide_eq_true_2.
Qed.

End MoreReelProperties.

Section MoreReelReaderProperties.
Context `{Url.Api} `{Host} `{ForeignDocumentSanitizer}
        {W : Type} `{Transport W}.

(** X9. When the page cannot be fetched the reader returns [null]; the
    parser is not run and the DOM is left as it was. *)
Theorem getReelFromUrl_not_fetched url w d w' :
  getHttpContent url 0 w = (None, w') →
  getReelFromUrl url w d = (Returned None, w', d).
Proof.
  intros Hget. unfold getReelFromUrl, getDocumentFromUrl. by rewrite Hget.
Qed.

Lemma getReelFromUrl_Some url w d reel w' d' :
  getReelFromUrl url w d = (Returned (Some reel), w', d') →
  ∃ docHead,
    documentHead (Reel.document reel) d' = Some docHead ∧
    Reel.url reel = url ∧
    Reel.sections reel = getElements selBodySections (Reel.document reel) d' ∧
    Reel.feeds reel = getFeedsFromDocument (Reel.document reel) d' ∧
    Reel.head reel =
      filter
        (λ e, default [] (elementOf d' !! e ≫= λ el, getAttribute el (js "href"))
              ∉ href <$> Reel.feeds reel)
        (getElements selLinksAndStyles docHead d').
Proof.
  unfold getReelFromUrl.
  destruct (getDocumentFromUrl url w d) as [[[doc|] w1] d1]; [|done].
  destruct (documentHead doc d1) as [docHead|] eqn:Hhead; [|done].
  intros [= <- <- <-]. by exists docHead.
Qed.

(** X10. No asset of a Reel is one of its feed declarations: a feed link
    with a non-empty [href] is never among the head nodes, and no head
    node has the [href] of a declared feed. *)
Theorem getReelFromUrl_head_excludes_feeds url w d reel w' d' :
  getReelFromUrl url w d = (Returned (Some reel), w', d') →
  (∀ link el h,
     link ∈ getElements selFeedLinks (Reel.document reel) d' →
     elementOf d' !! link = Some el →
     getAttribute el (js "href") = Some h →
     h ≠ [] →
     link ∉ Reel.head reel) ∧
  (∀ node el info,
     node ∈ Reel.head reel →
     elementOf d' !! node = Some el →
     info ∈ Reel.feeds reel →
     getAttribute el (js "href") ≠ Some (href info)).
Proof.
  intros (docHead & _ & _ & _ & Hfeeds & Hhead)%getReelFromUrl_Some.
  split.
  - intros link el h Hlink Hel Hhref Hh. rewrite Hhead.
    intros [Hout _]%list_elem_of_filter. apply Hout.
    rewrite Hel. simpl. rewrite Hhref. simpl.
    apply list_elem_of_fmap.
    destruct (feedInfoOf el) as [info|] eqn:Hinfo.
    + exists info. split.
      * destruct (feedInfoOf_Some _ _ Hinfo) as (Hh' & _). congruence.
      * rewrite Hfeeds. apply elem_of_getFeedsFromDocument. by exists link, el.
    + unfold feedInfoOf in Hinfo. rewrite Hhref in Hinfo. by destruct h.
  - intros node el info Hnode Hel Hinfo Hsame. rewrite Hhead in Hnode.
    apply list_elem_of_filter in Hnode as [Hout _]. apply Hout.
    rewrite Hel. simpl. rewrite Hsame. simpl.
    by apply list_elem_of_fmap_2.
Qed.

End MoreReelReaderProperties.

(** ** More on the content isolator *)

Lemma Element_eq (e1 e2 : Element) :
  nodeName e1 = nodeName e2 → attributes e1 = attributes e2 → e1 = e2.
Proof. destruct e1, e2. simpl. by intros -> ->. Qed.

Section IdempotenceProperties.
Context `{Url.Api}.

(** X11. Where resolving against a base leaves an already resolved value
    alone, rewriting an element's references a second time changes
    nothing. *)
Theorem resolveAttributes_idempotent baseUrl e :
  (∀ value, Url.resolve (Url.resolve value baseUrl) baseUrl =
            Url.resolve value baseUrl) →
  resolveAttributes baseUrl (resolveAttributes baseUrl e) =
    resolveAttributes baseUrl e.
Proof.
  intros Hresolve. apply Element_eq; [done|].
  apply map_eq. intros a. rewrite !resolveAttributes_lookup.
  case_decide; [|done].
  destruct (attributes e !! a) as [v|]; simpl; [|done].
  by rewrite Hresolve.
Qed.

End IdempotenceProperties.

Lemma removeNode_roots n ts :
  n ∉ rootOf <$> ts → rootOf <$> removeNode n ts = rootOf <$> ts.
Proof.
  induction ts as [|[id ks] ts IH]; [done|].
  rewrite fmap_cons, not_elem_of_cons. intros [Hid Hts]. simpl in Hid.
  rewrite removeNode_cons, decide_False by done.
  rewrite !fmap_cons. simpl rootOf. by rewrite IH.
Qed.

Lemma subtreeAt_top ts t :
  NoDup (forestIds ts) → t ∈ ts → subtreeAt (rootOf t) ts = Some t.
Proof.
  induction ts as [|[id ks] ts IH]; [by intros _ ?%elem_of_nil|].
  rewrite forestIds_cons, NoDup_cons, NoDup_app.
  intros (Hid & Hks & Hdisj & Hts) [->|Hin]%elem_of_cons.
  - simpl rootOf. by rewrite subtreeAt_cons, decide_True.
  - pose proof (elem_of_roots _ _ Hin) as Hroot.
    rewrite subtreeAt_cons. rewrite decide_False.
    + assert (subtreeAt (rootOf t) ks = None) as ->.
      { apply subtreeAt_None. intros ?. by eapply Hdisj. }
      by apply IH.
    + intros ->. apply Hid. apply elem_of_app. by right.
Qed.

Section GatheringExact.
Variable ts0 : list Tree.
Variable p : NodeId.
Hypothesis distinct : NoDup (forestIds ts0).

Lemma gather_roots_exact nodes acc :
  gathering ts0 p acc →
  p ∉ nodes →
  NoDup nodes →
  (∀ n, n ∈ nodes → n ∈ forestIds ts0 ∧ n ∉ rootOf <$> acc.1) →
  rootOf <$> (foldl moveInto acc nodes).1 = (rootOf <$> acc.1) ++ nodes.
Proof.
  revert acc. induction nodes as [|m nodes IH];
    intros acc Hacc Hp Hnodes Hin.
  { simpl. by rewrite app_nil_r. }
  apply not_elem_of_cons in Hp as [Hpm Hp].
  apply NoDup_cons in Hnodes as [Hm Hnodes].
  destruct (Hin m ltac:(left)) as [Hm_forest Hm_root].
  assert (rootOf <$> (moveInto acc m).1 = (rootOf <$> acc.1) ++ [m]) as Hstep.
  { destruct acc as [fragment rest]. destruct Hacc as [Hperm _].
    unfold moveInto. simpl in *. rewrite <- Hperm in Hm_forest.
    destruct (subtreeAt_is_Some _ _ Hm_forest) as [s Hfound].
    rewrite Hfound. simpl.
    destruct (subtreeAt_Some _ _ _ Hfound) as [Hroot _].
    rewrite fmap_app, removeNode_roots by done. simpl. by rewrite Hroot. }
  simpl. rewrite IH.
  - by rewrite Hstep, <- (assoc (++)).
  - by apply moveInto_gathering.
  - done.
  - done.
  - intros n Hn. destruct (Hin n ltac:(by right)) as [? ?].
    split; [done|]. rewrite Hstep, not_elem_of_app, not_elem_of_cons.
    split_and!; [done| |apply not_elem_of_nil]. by intros ->.
Qed.

End GatheringExact.

Lemma filter_bool_cons {A} (f : A → bool) x (l : list A) :
  filter f (x :: l) = if f x then x :: filter f l else filter f l.
Proof. rewrite filter_cons. by destruct (f x). Qed.

Lemma kinds_exclusive d n : isHeadKind d n → isBodyKind d n → False.
Proof.
  unfold isHeadKind, isBodyKind.
  intros Hhead%bool_decide_unpack Hbody%bool_decide_unpack.
  rewrite Hbody in Hhead. destruct Hhead as [Heq|Heq]; by vm_compute in Heq.
Qed.

Lemma kinds_ext d1 d2 (l : list NodeId) :
  (∀ n, n ∈ l → elementOf d1 !! n = elementOf d2 !! n) →
  filter (isHeadKind d1) l = filter (isHeadKind d2) l ∧
  filter (isBodyKind d1) l = filter (isBodyKind d2) l.
Proof.
  induction l as [|n l IH]; [done|]. intros Hsame.
  destruct IH as [IHhead IHbody].
  { intros m Hm. apply Hsame. by right. }
  assert (isHeadKind d1 n = isHeadKind d2 n) as Hhead
    by (unfold isHeadKind; rewrite Hsame by left; done).
  assert (isBodyKind d1 n = isBodyKind d2 n) as Hbody
    by (unfold isBodyKind; rewrite Hsame by left; done).
  by rewrite !filter_bool_cons, Hhead, Hbody, IHhead, IHbody.
Qed.

Section IsolatorOrder.
Context `{Url.Api} `{StandardCss}.

Lemma sortContents_exact d l head0 body0 :
  foldl (sortContents d) (head0, body0) l =
    (head0 ++ filter (isHeadKind d) l, body0 ++ filter (isBodyKind d) l).
Proof.
  revert head0 body0. induction l as [|n l IH]; intros head0 body0.
  { simpl. by rewrite !app_nil_r. }
  cbn [foldl]. unfold sortContents at 2.
  destruct (nodeName <$> elementOf d !! n) as [name|] eqn:Hname.
  - case_decide as Hsection; [|case_decide as Hother].
    + subst name.
      assert (isBodyKind d n = true) as Hbody
        by (unfold isBodyKind; rewrite Hname; by apply bool_decide_eq_true_2).
      assert (isHeadKind d n = false) as Hhead.
      { unfold isHeadKind. rewrite Hname. apply bool_decide_eq_false_2.
        intros [Heq|Heq]; by vm_compute in Heq. }
      rewrite IH, !filter_bool_cons, Hbody, Hhead.
      by rewrite <- !(assoc (++)).
    + assert (isBodyKind d n = false) as Hbody.
      { unfold isBodyKind. rewrite Hname. apply bool_decide_eq_false_2.
        by intros [= ->]. }
      assert (isHeadKind d n = true) as Hhead.
      { unfold isHeadKind. rewrite Hname. apply bool_decide_eq_true_2.
        destruct Hother as [->| ->]; [by left|by right]. }
      rewrite IH, !filter_bool_cons, Hbody, Hhead.
      by rewrite <- !(assoc (++)).
    + assert (isBodyKind d n = false) as Hbody.
      { unfold isBodyKind. rewrite Hname. apply bool_decide_eq_false_2.
        by intros [= ->]. }
      assert (isHeadKind d n = false) as Hhead.
      { unfold isHeadKind. rewrite Hname. apply bool_decide_eq_false_2.
        intros [[= ->]|[= ->]]; tauto. }
      by rewrite IH, !filter_bool_cons, Hbody, Hhead.
  - assert (isBodyKind d n = false) as Hbody
      by (unfold isBodyKind; rewrite Hname; by apply bool_decide_eq_false_2).
    assert (isHeadKind d n = false) as Hhead.
    { unfold isHeadKind. rewrite Hname. apply bool_decide_eq_false_2.
      by intros [?|?]. }
    by rewrite IH, !filter_bool_cons, Hbody, Hhead.
Qed.

(** The state in which [getSandboxedElement] calls [shadow.append]: three
    new nodes, unknown to the DOM before, and the nodes to append. *)
Lemma organize_setup contents d :
  NoDup (forestIds (forest d)) →
  (∀ n, n ∈ asArray contents → n ∈ forestIds (forest d)) →
  ∃ container css shadow dc,
    organize contents d =
      (container, shadow,
       append shadow
         (css :: filter (isHeadKind d) (asArray contents) ++
                 filter (isBodyKind d) (asArray contents)) dc) ∧
    forest dc =
      forest d ++ [Node container []; Node css []; Node shadow []] ∧
    elementOf dc =
      <[css := standardCssElement]>
        (<[container := {| nodeName := js "DIV"; attributes := ∅ |}]>
           (elementOf d)) ∧
    shadowRootOf dc = <[container := shadow]> (shadowRootOf d) ∧
    NoDup (forestIds (forest d) ++ [container; css; shadow]) ∧
    elementOf d !! container = None ∧
    elementOf d !! css = None ∧
    elementOf dc !! shadow = None.
Proof.
  intros Hdistinct Hexist. unfold organize, createElement, getStandardCss,
    createElementWith, attachShadow.
  set (da := {| forest := forest d ++ [Node (newNode d) []];
                elementOf := <[newNode d := _]> (elementOf d);
                shadowRootOf := shadowRootOf d |}).
  set (db := {| forest := forest da ++ [Node (newNode da) []];
                elementOf := <[newNode da := _]> (elementOf da);
                shadowRootOf := shadowRootOf da |}).
  set (dc := {| forest := forest db ++ [Node (newNode db) []];
                elementOf := elementOf db;
                shadowRootOf := <[newNode d := newNode db]> (shadowRootOf db) |}).
  destruct (newNode_fresh d) as [Hc_forest Hc_element].
  destruct (newNode_fresh da) as [Hcss_forest Hcss_element].
  destruct (newNode_fresh db) as [Hs_forest Hs_element].
  set (container := newNode d) in *.
  set (css := newNode da) in *.
  set (shadow := newNode db) in *.
  assert (forestIds (forest db) = forestIds (forest d) ++ [container; css])
    as Hids_b.
  { simpl. rewrite !forestIds_app. simpl. by rewrite <- !(assoc (++)). }
  assert (forestIds (forest da) = forestIds (forest d) ++ [container])
    as Hids_a.
  { simpl. by rewrite !forestIds_app. }
  rewrite Hids_a in Hcss_forest. rewrite Hids_b in Hs_forest.
  rewrite not_elem_of_app, not_elem_of_cons in Hcss_forest.
  rewrite not_elem_of_app, !not_elem_of_cons in Hs_forest.
  assert (css ≠ container) as Hcss_c by tauto.
  assert (elementOf d !! css = None) as Hcss_d.
  { change (elementOf da !! css = None) in Hcss_element. simpl in Hcss_element.
    by rewrite lookup_insert_ne in Hcss_element. }
  assert (∀ n, n ∈ asArray contents → elementOf dc !! n = elementOf d !! n)
    as Hsame.
  { intros n Hn. apply Hexist in Hn. simpl.
    rewrite !lookup_insert_ne; [done|intros ->; tauto..]. }
  destruct (kinds_ext dc d (asArray contents) Hsame) as [Hhead Hbody].
  rewrite sortContents_exact, Hhead, Hbody.
  exists container, css, shadow, dc. split_and!; try done.
  - simpl. by rewrite <- !(assoc (++)).
  - apply NoDup_app. split_and!; [done| |].
    + intros x Hx. rewrite !elem_of_cons, elem_of_nil.
      intros [->|[->|[->|[]]]]; tauto.
    + rewrite !NoDup_cons, !not_elem_of_cons. split_and!;
        try apply not_elem_of_nil; try apply NoDup_nil_2; try tauto.
      all: intros Heq; destruct Hs_forest as [_ [Hne1 [Hne2 _]]]; congruence.
Qed.

End IsolatorOrder.

Section IsolatorChildren.
Context `{Url.Api} `{StandardCss}.

Lemma organize_children contents d :
  NoDup (forestIds (forest d)) →
  NoDup (asArray contents) →
  (∀ n, n ∈ asArray contents → n ∈ forestIds (forest d)) →
  ∃ container css shadow d1 fragment,
    organize contents d = (container, shadow, d1) ∧
    subtreeAt shadow (forest d1) = Some (Node shadow fragment) ∧
    shadowRootOf d1 !! container = Some shadow ∧
    NoDup (forestIds (forest d1)) ∧
    rootOf <$> fragment =
      css :: filter (isHeadKind d) (asArray contents) ++
             filter (isBodyKind d) (asArray contents) ∧
    ¬ (css ∈ forestIds (forest d)) ∧
    elementOf d1 =
      <[css := standardCssElement]>
        (<[container := {| nodeName := js "DIV"; attributes := ∅ |}]>
           (elementOf d)) ∧
    elementOf d !! container = None ∧
    elementOf d !! css = None.
Proof.
  intros Hdistinct Hcontents Hexist.
  destruct (organize_setup contents d Hdistinct Hexist)
    as (container & css & shadow & dc & Horganize & Hforest & Helements &
        Hshadow & Hfresh & Hc & Hcss & Hs).
  set (nodes := css :: filter (isHeadKind d) (asArray contents) ++
                       filter (isBodyKind d) (asArray contents)) in *.
  assert (forestIds (forest dc) =
          forestIds (forest d) ++ [container; css; shadow]) as Hids.
  { rewrite Hforest, forestIds_app. done. }
  assert (NoDup (forestIds (forest dc))) as Hdistinct_c by (by rewrite Hids).
  apply NoDup_app in Hfresh as (_ & Hnew & Hthree).
  assert (¬ (container ∈ forestIds (forest d)) ∧
          ¬ (css ∈ forestIds (forest d)) ∧
          ¬ (shadow ∈ forestIds (forest d))) as (Hc_out & Hcss_out & Hs_out).
  { split_and!; intros Hin; apply (Hnew _ Hin);
      rewrite !elem_of_cons; tauto. }
  apply NoDup_cons in Hthree as [Hc_ne Hthree].
  apply NoDup_cons in Hthree as [Hcss_ne _].
  rewrite !not_elem_of_cons in Hc_ne. rewrite not_elem_of_cons in Hcss_ne.
  assert (∀ n, n ∈ filter (isHeadKind d) (asArray contents) ++
                   filter (isBodyKind d) (asArray contents) →
               n ∈ asArray contents) as Hkept.
  { intros n [Hn|Hn]%elem_of_app; by apply list_elem_of_filter in Hn as [_ ?]. }
  assert (shadow ∉ nodes) as Hshadow_out.
  { unfold nodes. rewrite not_elem_of_cons. split; [intros ->; tauto|].
    intros Hin%Hkept%Hexist. done. }
  assert (NoDup nodes) as Hnodes.
  { unfold nodes. apply NoDup_cons. split.
    - intros Hin%Hkept%Hexist. done.
    - apply NoDup_app. split_and!; [by apply NoDup_filter| |by apply NoDup_filter].
      intros n [Hhead _]%list_elem_of_filter [Hbody _]%list_elem_of_filter.
      by eapply kinds_exclusive. }
  assert (gathering (forest dc) shadow ([], forest dc)) as Hstart.
  { split; [done|]. simpl. rewrite Hforest. apply elem_of_app. right.
    rewrite !elem_of_cons. tauto. }
  destruct (gather_roots (forest dc) shadow Hdistinct_c nodes ([], forest dc)
              Hstart Hshadow_out) as [[Hperm Hleaf] _].
  pose proof (gather_roots_exact (forest dc) shadow Hdistinct_c nodes
                ([], forest dc) Hstart Hshadow_out Hnodes) as Hroots.
  rewrite Horganize. unfold append, gather.
  destruct (foldl moveInto ([], forest dc) nodes) as [fragment rest] eqn:Hgather.
  simpl in Hperm, Hleaf, Hroots.
  assert (NoDup (forestIds (fragment ++ rest))) as Hdistinct_g
    by (by rewrite Hperm).
  rewrite forestIds_app in Hdistinct_g.
  apply NoDup_app in Hdistinct_g as (Hfragment & Hdisjoint & Hrest).
  destruct (appendKids_leaf shadow fragment rest Hrest Hleaf) as [Hsub Hperm'].
  exists container, css, shadow,
    {| forest := appendKids shadow fragment <$> rest;
       elementOf := elementOf dc;
       shadowRootOf := shadowRootOf dc |}, fragment.
  split_and!; try done.
  - simpl. rewrite Hshadow. apply lookup_insert_eq.
  - simpl. rewrite Hperm', (comm (++)), <- forestIds_app. by rewrite Hperm.
  - apply Hroots. intros n Hn. split; [|apply not_elem_of_nil].
    rewrite Hids. unfold nodes in Hn.
    apply elem_of_cons in Hn as [->|Hn%Hkept%Hexist].
    + apply elem_of_app. right. rewrite !elem_of_cons. tauto.
    + apply elem_of_app. by left.
Qed.

Lemma shadowChildren_shadow container shadow d kids :
  shadowRootOf d !! container = Some shadow →
  subtreeAt shadow (forest d) = Some (Node shadow kids) →
  shadowChildren container d = rootOf <$> kids.
Proof. intros Hs Ht. unfold shadowChildren. by rewrite Hs, Ht. Qed.

(** X12. The children of the scope's root are, in this order: the base
    stylesheet, a new node; the LINK and STYLE elements passed in, in the
    order given; the SECTION elements passed in, in the order given.
    Elements of any other name are not among them. *)
Theorem getSandboxedElement_children contents baseUrl d :
  NoDup (forestIds (forest d)) →
  NoDup (asArray contents) →
  (∀ n, n ∈ asArray contents → n ∈ forestIds (forest d)) →
  ∃ container d' css,
    getSandboxedElement contents baseUrl d = (container, d') ∧
    ¬ (css ∈ forestIds (forest d)) ∧
    shadowChildren container d' =
      css :: filter (isHeadKind d) (asArray contents) ++
             filter (isBodyKind d) (asArray contents).
Proof.
  intros Hdistinct Hcontents Hexist.
  destruct (organize_children contents d Hdistinct Hcontents Hexist)
    as (container & css & shadow & d1 & fragment & Horganize & Htree &
        Hshadow & Hdistinct1 & Hroots & Hcss & _).
  destruct (resolveIn_fold (Url.folderOf baseUrl)
              (getElements selReferences shadow d1) d1
              (getElements_NoDup _ _ _ Hdistinct1))
    as (Hforest' & Hshadow' & _).
  eexists container, _, css.
  split; [by apply getSandboxedElement_organize|]. split; [done|].
  rewrite <- Hroots. apply (shadowChildren_shadow _ shadow).
  - by rewrite Hshadow'.
  - by rewrite Hforest'.
Qed.

End IsolatorChildren.

Lemma filter_bool_none {A} (f : A → bool) (l : list A) :
  (∀ x, x ∈ l → f x = false) → filter f l = [].
Proof.
  induction l as [|x l IH]; [done|]. intros Hall.
  rewrite filter_bool_cons, (Hall x) by left. apply IH.
  intros y Hy. apply Hall. by right.
Qed.

Section IsolatorNothingKept.
Context `{Url.Api} `{StandardCss}.

(** X13. Isolating no element, or only elements that are neither
    SECTION, LINK nor STYLE, leaves every tree of the DOM and every
    element it had as they were: the scope is a new container whose
    shadow root holds the base stylesheet alone. *)
Theorem getSandboxedElement_nothing_kept contents baseUrl d :
  NoDup (forestIds (forest d)) →
  (∀ n, n ∈ asArray contents → n ∈ forestIds (forest d)) →
  (∀ n, n ∈ asArray contents →
        isHeadKind d n = false ∧ isBodyKind d n = false) →
  ∃ container css shadow d',
    getSandboxedElement contents baseUrl d = (container, d') ∧
    forest d' = forest d ++ [Node container []; Node shadow [Node css []]] ∧
    shadowRootOf d' = <[container := shadow]> (shadowRootOf d) ∧
    (∀ n e, elementOf d !! n = Some e → elementOf d' !! n = Some e).
Proof.
  intros Hdistinct Hexist Hnone.
  destruct (organize_setup contents d Hdistinct Hexist)
    as (container & css & shadow & dc & Horganize & Hforest & Helements &
        Hshadow & Hfresh & Hc & Hcss & Hs).
  rewrite (filter_bool_none (isHeadKind d)) in Horganize
    by (intros n Hn; by destruct (Hnone n Hn)).
  rewrite (filter_bool_none (isBodyKind d)) in Horganize
    by (intros n Hn; by destruct (Hnone n Hn)).
  simpl in Horganize.
  assert (forestIds (forest dc) =
          forestIds (forest d) ++ [container; css; shadow]) as Hids.
  { rewrite Hforest, forestIds_app. done. }
  assert (NoDup (forestIds (forest dc))) as Hdistinct_c by (by rewrite Hids).
  pose proof Hfresh as Hfresh'.
  apply NoDup_app in Hfresh as (_ & Hnew & Hthree).
  assert (¬ (container ∈ forestIds (forest d)) ∧
          ¬ (css ∈ forestIds (forest d)) ∧
          ¬ (shadow ∈ forestIds (forest d))) as (Hc_out & Hcss_out & Hs_out).
  { split_and!; intros Hin; apply (Hnew _ Hin);
      rewrite !elem_of_cons; tauto. }
  apply NoDup_cons in Hthree as [Hc_ne Hthree].
  apply NoDup_cons in Hthree as [Hcss_ne _].
  rewrite !not_elem_of_cons in Hc_ne. rewrite not_elem_of_cons in Hcss_ne.
  destruct Hc_ne as (Hc_css & Hc_shadow & _). destruct Hcss_ne as [Hcss_shadow _].
  assert (append shadow [css] dc =
          {| forest := forest d ++ [Node container []; Node shadow [Node css []]];
             elementOf := elementOf dc;
             shadowRootOf := shadowRootOf dc |}) as Happend.
  { unfold append, gather. cbn [foldl]. unfold moveInto. rewrite app_nil_l.
    assert (subtreeAt css (forest dc) = Some (Node css [])) as ->.
    { apply (subtreeAt_top (forest dc) (Node css []) Hdistinct_c).
      rewrite Hforest. apply elem_of_app. right. rewrite !elem_of_cons. tauto. }
    f_equal. rewrite Hforest, removeNode_app.
    rewrite (removeNode_absent css (forest d)) by done.
    rewrite !removeNode_cons.
    rewrite (decide_False (P := container = css)) by done.
    rewrite (decide_True (P := css = css)) by done.
    rewrite (decide_False (P := shadow = css)) by (by intros ->).
    change (removeNode css []) with (@nil Tree).
    rewrite fmap_app, (appendKids_absent shadow _ (forest d)) by done.
    rewrite !appendKids_cons.
    rewrite (decide_False (P := container = shadow)) by done.
    by rewrite (decide_True (P := shadow = shadow)) by done. }
  rewrite Happend in Horganize.
  rewrite (getSandboxedElement_organize _ _ _ _ _ _ Horganize).
  set (d1 := {| forest := _; elementOf := elementOf dc; shadowRootOf := _ |}).
  assert (NoDup (forestIds (forest d1))) as Hdistinct1.
  { simpl. rewrite forestIds_app. simpl.
    eapply NoDup_Permutation_proper; [|exact Hfresh'].
    apply Permutation_app_head. do 1 constructor. apply perm_swap. }
  destruct (resolveIn_fold (Url.folderOf baseUrl)
              (getElements selReferences shadow d1) d1
              (getElements_NoDup _ _ _ Hdistinct1))
    as (Hforest' & Hshadow' & Hrewritten).
  assert (subtreeAt shadow (forest d1) = Some (Node shadow [Node css []]))
    as Htree.
  { apply (subtreeAt_top (forest d1) (Node shadow [Node css []]) Hdistinct1).
    simpl. apply elem_of_app. right. rewrite !elem_of_cons. tauto. }
  eexists container, css, shadow, _. split; [done|].
  split_and!; [done|by rewrite Hshadow', <- Hshadow|].
  intros n e He. rewrite Hrewritten.
  assert (n ≠ css) by (intros ->; congruence).
  assert (n ≠ container) by (intros ->; congruence).
  rewrite decide_False.
  - simpl. rewrite Helements, !lookup_insert_ne by done. done.
  - intros [Hin _]%(elem_of_getElements_references _ _ _ _ Htree).
    apply list_elem_of_In in Hin. simpl in Hin.
    destruct Hin as [Heq|[]]. congruence.
Qed.

End IsolatorNothingKept.

(** ** The feed address of a document *)

Lemma filter_true_cons {A} (f : A → bool) x (l : list A) :
  filter (λ y, f y = true) (x :: l) =
    if f x then x :: filter (λ y, f y = true) l
    else filter (λ y, f y = true) l.
Proof. rewrite filter_cons. destruct (f x); by case_decide. Qed.

Lemma matchesSelector_feedLinks d np :
  matchesSelector d selFeedLinks np =
    isElementMatching d np.1 (TypeAttrIs (js "LINK") (js "rel") (js "feed")).
Proof. unfold matchesSelector, selFeedLinks. simpl. apply orb_false_r. Qed.

Lemma isElementMatching_Some d n e c :
  elementOf d !! n = Some e → isElementMatching d n c = matchesCompound e c.
Proof. intros He. unfold isElementMatching. by rewrite He. Qed.

Lemma isElementMatching_None d n c :
  elementOf d !! n = None → isElementMatching d n c = false.
Proof. intros He. unfold isElementMatching. by rewrite He. Qed.

Section FeedUrlProperties.
Context `{Url.Api} `{Host} `{Interfaces}.

Lemma feed_of_first_link d (pairs : list (NodeId * NodeId)) :
  (∀ np, np ∈ pairs →
         matchesSelector d selFeedLinks np = true →
         isHTMLElement np.1 = true) →
  (∀ np e, np ∈ pairs →
           matchesSelector d selFeedLinks np = true →
           elementOf d !! np.1 = Some e →
           getAttribute e (js "href") ≠ Some []) →
  match
    match head (filter (matchesFeedLinkWithHref d) pairs.*1) with
    | Some link =>
        if isHTMLElement link
        then elementOf d !! link ≫= λ e, getAttribute e (js "href")
        else Some []
    | None => Some []
    end
  with
  | Some (c :: rest) => Url.resolve (c :: rest) Url.getCurrent
  | Some [] | None => []
  end =
  match
    omap (λ e, elementOf d !! e ≫= feedInfoOf)
      (filter (λ np, matchesSelector d selFeedLinks np = true) pairs).*1
  with
  | [] => []
  | info :: _ => Url.resolve (href info) Url.getCurrent
  end.
Proof.
  induction pairs as [|np pairs IH]; [done|]. intros Hhtml Hnonempty.
  assert (∀ np e, np ∈ pairs →
                  matchesSelector d selFeedLinks np = true →
                  elementOf d !! np.1 = Some e →
                  getAttribute e (js "href") ≠ Some []) as Hrest.
  { intros np' e Hin. apply Hnonempty. by right. }
  assert (∀ np, np ∈ pairs →
                matchesSelector d selFeedLinks np = true →
                isHTMLElement np.1 = true) as Hhtml_rest.
  { intros np' Hin. apply Hhtml. by right. }
  specialize (IH Hhtml_rest Hrest).
  rewrite fmap_cons, filter_bool_cons, filter_true_cons.
  pose proof (Hnonempty np) as Hnp.
  pose proof (Hhtml np ltac:(left)) as Hnp_html.
  rewrite matchesSelector_feedLinks in Hnp, Hnp_html |- *.
  replace (matchesFeedLinkWithHref d np.1) with
    (isElementMatching d np.1 (TypeAttrIs (js "LINK") (js "rel") (js "feed")) &&
     isElementMatching d np.1 (TypeAttr (js "LINK") (js "href"))) by done.
  destruct (isElementMatching d np.1 (TypeAttrIs _ _ _)) eqn:Hfeed;
    [|exact IH].
  rewrite andb_true_l, fmap_cons. cbn [omap list_omap].
  destruct (elementOf d !! np.1) as [e|] eqn:He.
  2:{ by rewrite (isElementMatching_None _ _ _ He) in Hfeed. }
  rewrite (isElementMatching_Some _ _ _ _ He) in Hfeed.
  rewrite (isElementMatching_Some _ _ _ _ He).
  cbn [mbind option_bind].
  apply andb_true_iff in Hfeed as [Hname _].
  cbn [matchesCompound]. rewrite Hname, andb_true_l.
  unfold feedInfoOf.
  destruct (getAttribute e (js "href")) as [[|c h]|] eqn:Hhref.
  - exfalso. by eapply (Hnp e); [left|..].
  - rewrite bool_decide_eq_true_2 by eauto. cbn [head].
    rewrite Hnp_html by done.
    rewrite He. cbn [mbind option_bind]. by rewrite Hhref.
  - rewrite bool_decide_eq_false_2 by (by intros [? ?]). exact IH.
Qed.

(** X14. In a document whose feed links are HTML elements, none with an
    empty [href], the feed address is the resolution, against the
    current location, of the href of the first declared feed, and the
    empty string when no feed is declared. *)
Theorem getFeedUrl_first_feed within d :
  (∀ link, link ∈ getElements selFeedLinks within d →
           isHTMLElement link = true) →
  (∀ link e,
     link ∈ getElements selFeedLinks within d →
     elementOf d !! link = Some e →
     getAttribute e (js "href") ≠ Some []) →
  getFeedUrl within d =
    match getFeedsFromDocument within d with
    | [] => []
    | info :: _ => Url.resolve (href info) Url.getCurrent
    end.
Proof.
  intros Hhtml Hnonempty.
  unfold getFeedUrl, querySelectorWhere, getFeedsFromDocument, getElements in *.
  destruct (subtreeAt within (forest d)) as [t|]; [|done].
  apply feed_of_first_link.
  - intros np Hin Hmatch. apply (Hhtml np.1).
    apply list_elem_of_fmap_2. by apply list_elem_of_filter.
  - intros np e Hin Hmatch He. apply (Hnonempty np.1 e); [|done].
    apply list_elem_of_fmap_2. by apply list_elem_of_filter.
Qed.

End FeedUrlProperties.

(** ** Posters *)

Lemma filter_bool_all {A} (f : A → bool) (l : list A) :
  (∀ x, x ∈ l → f x = true) → filter f l = l.
Proof.
  induction l as [|x l IH]; [done|]. intros Hall.
  rewrite filter_bool_cons, (Hall x) by left. f_equal. apply IH.
  intros y Hy. apply Hall. by right.
Qed.

Lemma elem_of_getElements selector container d n :
  n ∈ getElements selector container d →
  ∃ t p,
    subtreeAt container (forest d) = Some t ∧
    (n, p) ∈ descendantPairs t ∧
    matchesSelector d selector (n, p) = true.
Proof.
  unfold getElements.
  destruct (subtreeAt container (forest d)) as [t|]; [|by intros ?%elem_of_nil].
  intros ([n' p] & -> & [Hmatch Hin]%list_elem_of_filter)%list_elem_of_fmap.
  by exists t, p.
Qed.

Lemma getElements_in_forest selector container d n :
  n ∈ getElements selector container d → n ∈ forestIds (forest d).
Proof.
  intros (t & p & Ht & Hin & _)%elem_of_getElements.
  apply (subtreeAt_ids _ _ _ _ Ht). destruct t as [id ks]. simpl. right.
  change (flat_map treeIds ks) with (forestIds (kidsOf (Node id ks))).
  rewrite <- descendantPairs_fst. by apply (list_elem_of_fmap_2' fst _ (n, p)).
Qed.

Lemma getElements_linksAndStyles container d n :
  n ∈ getElements selLinksAndStyles container d → isHeadKind d n = true.
Proof.
  intros (t & p & _ & _ & Hmatch)%elem_of_getElements.
  unfold matchesSelector, selLinksAndStyles in Hmatch. simpl in Hmatch.
  unfold isElementMatching in Hmatch. unfold isHeadKind.
  destruct (elementOf d !! n) as [e|]; [|done]. simpl in *.
  rewrite orb_false_r, orb_true_iff, !bool_decide_eq_true in Hmatch.
  apply bool_decide_eq_true_2. destruct Hmatch as [->| ->]; [by left|by right].
Qed.

Lemma getElements_bodySections container d n :
  n ∈ getElements selBodySections container d → isBodyKind d n = true.
Proof.
  intros (t & p & _ & _ & Hmatch)%elem_of_getElements.
  unfold matchesSelector, selBodySections in Hmatch. simpl in Hmatch.
  unfold isElementMatching in Hmatch. unfold isBodyKind.
  destruct (elementOf d !! n) as [e|]; [|done]. simpl in *.
  rewrite orb_false_r, andb_true_iff, bool_decide_eq_true in Hmatch.
  apply bool_decide_eq_true_2. by destruct Hmatch as [-> _].
Qed.

Section PosterProperties.
Context `{Url.Api} `{Host} `{ForeignDocumentSanitizer} `{StandardCss}
        {W : Type} `{Transport W}.

(** X15. A poster is [null] exactly when the Reel could not be read or has
    no section, and then nothing is added to the DOM beyond what the
    reader did. *)
Theorem getPosterFromUrl_null reelUrl w d w' d' :
  getPosterFromUrl reelUrl w d = (Returned None, w', d') ↔
  getReelFromUrl reelUrl w d = (Returned None, w', d') ∨
  ∃ reel,
    getReelFromUrl reelUrl w d = (Returned (Some reel), w', d') ∧
    Reel.sections reel = [].
Proof.
  unfold getPosterFromUrl.
  destruct (getReelFromUrl reelUrl w d) as [[[[reel|]|] w1] d1].
  - destruct (Reel.sections reel) as [|first others] eqn:Hsections.
    + split; [intros [= <- <-]; right; eauto|].
      by intros [?|(reel' & [= <- <- <-] & _)].
    + destruct (getSandboxedElement _ _ d1) as [container d2]. split; [done|].
      intros [?|(reel' & [= <- <- <-] & Hnone)]; [done|].
      by rewrite Hsections in Hnone.
  - split; [intros [= <- <-]; by left|].
    by intros [[= <- <-]|(reel' & ? & _)].
  - split; [done|]. by intros [?|(reel' & ? & _)].
Qed.

(** X16. The children of a poster's root are the base stylesheet, then the
    Reel's head nodes in their order, then the first section of the Reel:
    of the sections, only the first is put at the top of the poster. *)
Theorem getPosterFromUrl_children reelUrl w d reel w' d1 first others :
  getReelFromUrl reelUrl w d = (Returned (Some reel), w', d1) →
  Reel.sections reel = first :: others →
  NoDup (forestIds (forest d1)) →
  ∃ container d' css,
    getPosterFromUrl reelUrl w d = (Returned (Some container), w', d') ∧
    ¬ (css ∈ forestIds (forest d1)) ∧
    shadowChildren container d' = css :: Reel.head reel ++ [first].
Proof.
  intros Hreel Hsections Hdistinct.
  destruct (getReelFromUrl_Some _ _ _ _ _ _ Hreel)
    as (docHead & _ & Hurl & Hsec & _ & Hhead).
  assert (isBodyKind d1 first = true) as Hfirst_kind.
  { apply (getElements_bodySections (Reel.document reel)).
    rewrite <- Hsec, Hsections. left. }
  assert (first ∈ forestIds (forest d1)) as Hfirst_in.
  { apply (getElements_in_forest selBodySections (Reel.document reel)).
    rewrite <- Hsec, Hsections. left. }
  assert (∀ n, n ∈ Reel.head reel →
               isHeadKind d1 n = true ∧ n ∈ forestIds (forest d1)) as Hhead_kind.
  { intros n Hn. rewrite Hhead in Hn.
    apply list_elem_of_filter in Hn as [_ Hn]. split.
    - by eapply getElements_linksAndStyles.
    - by eapply getElements_in_forest. }
  assert (NoDup (Reel.head reel ++ [first])) as Hnodup.
  { apply NoDup_app. split_and!.
    - rewrite Hhead. apply NoDup_filter. by apply getElements_NoDup.
    - intros n Hn [->|[]%elem_of_nil]%elem_of_cons.
      destruct (Hhead_kind _ Hn) as [Hk _].
      eapply (kinds_exclusive d1 first); [by rewrite Hk|by rewrite Hfirst_kind].
    - apply NoDup_singleton. }
  destruct (organize_children
              (ElementArray (Reel.head reel ++ [first])) d1
              Hdistinct Hnodup)
    as (container & css & shadow & d2 & fragment & Horganize & Htree &
        Hshadow & Hdistinct2 & Hroots & Hcss & _).
  { intros n [Hn|[->|[]%elem_of_nil]%elem_of_cons]%elem_of_app; [|done].
    by destruct (Hhead_kind _ Hn). }
  destruct (resolveIn_fold (Url.folderOf (Reel.url reel))
              (getElements selReferences shadow d2) d2
              (getElements_NoDup _ _ _ Hdistinct2))
    as (Hforest' & Hshadow' & _).
  eexists container, _, css. split_and!; [|done|].
  - unfold getPosterFromUrl. rewrite Hreel, Hsections.
    by rewrite (getSandboxedElement_organize _ _ _ _ _ _ Horganize).
  - rewrite (shadowChildren_shadow _ shadow _ fragment)
      by (by rewrite ?Hshadow', ?Hforest').
    rewrite Hroots. cbn [asArray]. rewrite !filter_app.
    rewrite (filter_bool_all (isHeadKind d1) (Reel.head reel))
      by (intros n Hn; by destruct (Hhead_kind _ Hn)).
    rewrite (filter_bool_none (isBodyKind d1) (Reel.head reel)).
    2:{ intros n Hn. destruct (Hhead_kind _ Hn) as [Hk _].
        destruct (isBodyKind d1 n) eqn:Hb; [|done].
        exfalso. eapply (kinds_exclusive d1 n); [by rewrite Hk|by rewrite Hb]. }
    rewrite !filter_bool_cons, Hfirst_kind.
    destruct (isHeadKind d1 first) eqn:Hk.
    { exfalso. eapply (kinds_exclusive d1 first);
        [by rewrite Hk|by rewrite Hfirst_kind]. }
    by rewrite !filter_nil, app_nil_r.
Qed.

End PosterProperties.

(** ** The poster stream *)

Section StreamProperties.
Context `{Url.Api} `{Host} `{ForeignDocumentSanitizer} `{StandardCss}
        {W : Type} `{Transport W}.

(** X17. Between two yields the generator does for each address what
    [getPosterFromUrl] does: a throw ends it, a [null] poster moves on to
    the next address, a poster is yielded with its address. *)
Theorem postersLoop_getPosterFromUrl address rest w d :
  postersLoop (address :: rest) w d =
    match getPosterFromUrl address w d with
    | (Threw, w', d') => (Threw, PostersDone, w', d')
    | (Returned None, w', d') => postersLoop rest w' d'
    | (Returned (Some element), w', d') =>
        (Returned (Some {| poster := element; url := address |}),
         PostersLoop rest, w', d')
    end.
Proof.
  cbn [postersLoop]. unfold getPosterFromUrl.
  destruct (getReelFromUrl address w d) as [[[[reel|]|] w1] d1]; [|done..].
  destruct (Reel.sections reel) as [|first others]; [done|].
  by destruct (getSandboxedElement _ _ d1).
Qed.

Lemma postersLoop_yield remaining w d item g' w' d' :
  postersLoop remaining w d = (Returned (Some item), g', w', d') →
  ∃ skipped rest,
    remaining = skipped ++ url item :: rest ∧ g' = PostersLoop rest.
Proof.
  revert w d. induction remaining as [|address remaining IH]; intros w d;
    [done|].
  cbn [postersLoop].
  destruct (getReelFromUrl address w d) as [[[[reel|]|] w1] d1]; [| |done].
  - destruct (Reel.sections reel) as [|first others].
    + intros (skipped & rest & -> & ->)%IH.
      by exists (address :: skipped), rest.
    + destruct (getSandboxedElement _ _ d1) as [element d2].
      intros [= <- <- <- <-]. by exists [], remaining.
  - intros (skipped & rest & -> & ->)%IH.
    by exists (address :: skipped), rest.
Qed.

Lemma takePosters_loop calls remaining w d :
  url <$> takePosters calls (PostersLoop remaining) w d
    `sublist_of` remaining.
Proof.
  revert remaining w d. induction calls as [|calls IH]; intros remaining w d.
  { apply sublist_nil_l. }
  cbn [takePosters postersNext].
  destruct (postersLoop remaining w d) as [[[[[item|]|] g'] w'] d'] eqn:Hloop;
    try apply sublist_nil_l.
  destruct (postersLoop_yield _ _ _ _ _ _ _ Hloop) as (skipped & rest & -> & ->).
  rewrite fmap_cons. apply sublist_inserts_l. apply sublist_skip. apply IH.
Qed.

(** X18. The posters a consumer draws from the stream come in the order
    of the feed, each from a different entry of the feed: their
    addresses are a subsequence of the addresses the feed lists. *)
Theorem takePosters_in_feed_order calls feedUrl w d :
  url <$> takePosters calls (getPostersFromFeed feedUrl) w d
    `sublist_of` urls (getFeedFromUrl feedUrl 0 w).1.
Proof.
  destruct calls as [|calls]; [apply sublist_nil_l|].
  cbn [takePosters postersNext getPostersFromFeed].
  destruct (getFeedFromUrl feedUrl 0 w) as [readResult w0]. simpl.
  destruct (postersLoop (urls readResult) w0 d)
    as [[[[[item|]|] g'] w'] d'] eqn:Hloop; try apply sublist_nil_l.
  destruct (postersLoop_yield _ _ _ _ _ _ _ Hloop) as (skipped & rest & Heq & ->).
  rewrite Heq, fmap_cons. apply sublist_inserts_l. apply sublist_skip.
  apply takePosters_loop.
Qed.

End StreamProperties.

Section StreamRequests.
Context `{Url.Api} `{Host} `{ForeignDocumentSanitizer} `{StandardCss}
        {W : Type} (T : Transport W).

Lemma getReelFromUrl_recorded address w log d :
  (@getReelFromUrl _ _ _ _ (recording T) address (w, log) d).1.2.2.*1 =
    log.*1 ++ [Url.resolve address Url.getCurrent].
Proof.
  pose proof (getHttpContent_recorded T address 0 w log) as Hlog.
  unfold getReelFromUrl, getDocumentFromUrl.
  destruct (getHttpContent address 0 (w, log)) as [[content|] s'].
  - destruct (sanitizer_read _ _ d) as [[doc|] d1]; simpl in *.
    + destruct (documentHead doc d1); simpl; by rewrite Hlog, fmap_app.
    + by rewrite Hlog, fmap_app.
  - simpl in *. by rewrite Hlog, fmap_app.
Qed.

Lemma postersLoop_requests remaining w log d item g' w' log' d' :
  @postersLoop _ _ _ _ _ (recording T) remaining (w, log) d =
    (Returned (Some item), g', (w', log'), d') →
  ∃ skipped rest,
    remaining = skipped ++ url item :: rest ∧
    g' = PostersLoop rest ∧
    log'.*1 =
      log.*1 ++ ((λ u, Url.resolve u Url.getCurrent) <$> skipped ++ [url item]).
Proof.
  revert w log d.
  induction remaining as [|address remaining IH]; intros w log d; [done|].
  cbn [postersLoop].
  pose proof (getReelFromUrl_recorded address w log d) as Hlog.
  destruct (getReelFromUrl address (w, log) d)
    as [[[[reel|]|] [w1 log1]] d1]; [| |done]; simpl in Hlog.
  - destruct (Reel.sections reel) as [|first others].
    + intros (skipped & rest & -> & -> & Hlog')%IH.
      exists (address :: skipped), rest. split_and!; [done..|].
      rewrite Hlog', Hlog. by rewrite <- (assoc (++)).
    + destruct (getSandboxedElement _ _ d1) as [element d2].
      intros [= <- <- <- <- <-]. by exists [], remaining.
  - intros (skipped & rest & -> & -> & Hlog')%IH.
    exists (address :: skipped), rest. split_and!; [done..|].
    rewrite Hlog', Hlog. by rewrite <- (assoc (++)).
Qed.

(** X19. The stream is lazy: when the first call of [next] yields a
    poster, the requests made so far are the one for the feed and one
    for each feed entry up to the entry of that poster, in this order;
    no later entry has been asked for. *)
Theorem postersNext_requests feedUrl w log d item g' w' log' d' :
  @postersNext _ _ _ _ _ (recording T) (getPostersFromFeed feedUrl) (w, log) d =
    (Returned (Some item), g', (w', log'), d') →
  ∃ skipped rest,
    urls (@getFeedFromUrl _ _ (recording T) feedUrl 0 (w, log)).1 =
      skipped ++ url item :: rest ∧
    g' = PostersLoop rest ∧
    log'.*1 =
      log.*1 ++
      Url.resolve feedUrl Url.getCurrent ::
      ((λ u, Url.resolve u Url.getCurrent) <$> skipped ++ [url item]).
Proof.
  cbn [postersNext getPostersFromFeed].
  pose proof (getFeedFromUrl_recorded T feedUrl 0 w log) as Hfeed.
  rewrite getHttpContent_recorded in Hfeed.
  destruct (getFeedFromUrl feedUrl 0 (w, log)) as [readResult [w0 log0]].
  simpl in Hfeed. subst log0.
  intros (skipped & rest & Heq & -> & Hlog)%postersLoop_requests.
  exists skipped, rest. split_and!; [done..|].
  rewrite Hlog, fmap_app. by rewrite <- (assoc (++)).
Qed.

End StreamRequests.

(** ** The built-in poster provider *)

Section BuiltInProperties.
Context `{Url.Api} `{Host} `{ForeignDocumentSanitizer} `{StandardCss}
        `{InlineStyles} {W : Type} `{Transport W}.

Lemma getErrorPoster_new d :
  (getErrorPoster d).1 = newNode d ∧
  ¬ ((getErrorPoster d).1 ∈ forestIds (forest d)).
Proof.
  unfold getErrorPoster, createElement, createElementWith. simpl.
  split; [done|]. by destruct (newNode_fresh d).
Qed.

(** X20. The built-in [getPoster] answers [null] exactly for a position at
    or past the end of the addresses, and then neither fetches nor
    touches the DOM. For a position inside it never answers [null]: it
    resolves with the poster of that address, or, when there is no
    poster, with a new error element, or stays pending when reading the
    Reel throws. *)
Theorem defaultGetPoster_end urls index w d :
  ((defaultGetPoster urls index w d).1.1 = NoPoster ↔
   (length urls ≤ index)%nat) ∧
  ((length urls ≤ index)%nat →
   defaultGetPoster urls index w d = (NoPoster, w, d)) ∧
  (∀ address,
     urls !! index = Some address →
     match getPosterFromUrl address w d with
     | (Returned (Some element), w', d') =>
         defaultGetPoster urls index w d = (PosterResolved element, w', d')
     | (Returned None, w', d') =>
         ∃ element d'',
           defaultGetPoster urls index w d = (PosterResolved element, w', d'') ∧
           ¬ (element ∈ forestIds (forest d'))
     | (Threw, w', d') =>
         defaultGetPoster urls index w d = (PosterPending, w', d')
     end).
Proof.
  unfold defaultGetPoster. split_and!.
  - case_bool_decide as Hend; [done|]. split; [|lia].
    destruct (getPosterFromUrl _ w d) as [[[[element|]|] w1] d1]; [done| |done].
    by destruct (getErrorPoster d1).
  - intros Hend. by rewrite bool_decide_eq_true_2.
  - intros address Haddress.
    rewrite bool_decide_eq_false_2
      by (apply lookup_lt_Some in Haddress; lia).
    rewrite Haddress. change (default [] (Some address)) with address.
    destruct (getPosterFromUrl address w d) as [[[[element|]|] w1] d1];
      [done| |done].
    pose proof (getErrorPoster_new d1) as [_ Hnew].
    destruct (getErrorPoster d1) as [element d2]. eauto.
Qed.

End BuiltInProperties.

(** ** Remote sections *)

Lemma replaceChild_unfold n other id ks :
  replaceChild n other (Node id ks) = Node id (replaceIn n other ks).
Proof. done. Qed.

Lemma replaceIn_cons n other id ks ts :
  replaceIn n other (Node id ks :: ts) =
    (if decide (id = n) then other else Node id (replaceIn n other ks))
    :: replaceIn n other ts.
Proof. done. Qed.

Lemma replaceIn_absent n other ts :
  n ∉ forestIds ts → replaceIn n other ts = ts.
Proof.
  induction ts as [|id ks ts IHks IHts] using forest_ind; [done|].
  rewrite forestIds_cons, not_elem_of_cons, not_elem_of_app.
  intros (Hid & Hks & Hts). rewrite replaceIn_cons.
  rewrite decide_False by done. by rewrite IHks, IHts.
Qed.

Lemma replaceChild_roots n other (ts : list Tree) :
  rootOf <$> (replaceChild n other <$> ts) = rootOf <$> ts.
Proof.
  induction ts as [|[id ks] ts IH]; [done|]. rewrite !fmap_cons, IH.
  by rewrite replaceChild_unfold.
Qed.

Lemma replaceChild_replaceIn n other (ts : list Tree) :
  n ∉ rootOf <$> ts → replaceChild n other <$> ts = replaceIn n other ts.
Proof.
  induction ts as [|[id ks] ts IH]; [done|].
  rewrite fmap_cons, not_elem_of_cons. intros [Hid Hts]. simpl in Hid.
  rewrite replaceIn_cons, decide_False by done.
  by rewrite fmap_cons, replaceChild_unfold, IH.
Qed.

(** Replacing a node of a forest of distinct identities exchanges the
    identities of its subtree for those of the replacement. *)
Lemma replaceIn_split n other ts s :
  NoDup (forestIds ts) →
  subtreeAt n ts = Some s →
  forestIds (replaceIn n other ts) ++ treeIds s ≡ₚ
    forestIds ts ++ treeIds other.
Proof.
  revert s. induction ts as [|id ks ts IHks IHts] using forest_ind;
    intros s; [done|].
  rewrite forestIds_cons, subtreeAt_cons, replaceIn_cons.
  rewrite NoDup_cons, NoDup_app, not_elem_of_app.
  intros ((Hidks & Hidts) & Hks & Hdisj & Hts).
  case_decide as Hid.
  - intros [= <-]. subst id. rewrite replaceIn_absent by done.
    change (forestIds (other :: ts)) with (treeIds other ++ forestIds ts).
    change (treeIds (Node n ks)) with (n :: forestIds ks).
    rewrite (comm (++) (treeIds other)), <- (assoc (++)).
    rewrite (comm (++) (treeIds other)), (assoc (++)).
    apply Permutation_app_tail.
    rewrite <- Permutation_middle. constructor. apply Permutation_app_comm.
  - destruct (subtreeAt n ks) as [s'|] eqn:Hfound.
    + intros [= <-].
      destruct (subtreeAt_Some _ _ _ Hfound) as [_ Hn].
      rewrite (replaceIn_absent n other ts) by auto.
      rewrite forestIds_cons, <- !app_comm_cons. constructor.
      rewrite <- !(assoc (++)).
      rewrite (comm (++) (forestIds ts) (treeIds s')), (assoc (++)).
      rewrite (IHks _ Hks eq_refl), <- !(assoc (++)).
      apply Permutation_app_head, Permutation_app_comm.
    + intros Hs. apply subtreeAt_None in Hfound.
      rewrite (replaceIn_absent n other ks) by done.
      rewrite forestIds_cons, <- !app_comm_cons. constructor.
      rewrite <- !(assoc (++)). apply Permutation_app_head.
      by apply IHts.
Qed.

Lemma removeNode_roots_subset n ts x :
  x ∈ rootOf <$> removeNode n ts → x ∈ rootOf <$> ts.
Proof.
  intros (t' & -> & (t & Ht & Hprune)%list_elem_of_omap)%list_elem_of_fmap.
  destruct t as [id ks]. simpl in Hprune. case_decide; [done|].
  injection Hprune as <-. by apply (list_elem_of_fmap_2' rootOf _ (Node id ks)).
Qed.

(** In a forest of distinct identities a node below another is not the
    root of a tree. *)
Lemma below_not_root c ts t n :
  NoDup (forestIds ts) →
  subtreeAt c ts = Some t →
  n ∈ forestIds (kidsOf t) →
  n ∉ rootOf <$> ts.
Proof.
  intros Hdistinct Ht Hn (top & -> & Htop)%list_elem_of_fmap.
  pose proof (removeNode_split _ _ _ Hdistinct Ht) as Hperm.
  rewrite Hperm in Hdistinct.
  apply NoDup_app in Hdistinct as (_ & Hdisj & Htree).
  destruct (subtreeAt_Some _ _ _ Ht) as [Hroot _].
  destruct t as [id ks]. simpl in Hroot, Hn, Htree. subst id.
  apply NoDup_cons in Htree as [Hc _].
  assert (rootOf top ≠ c) as Hne by (by intros <-).
  destruct (removeNode_keeps_root c ts top Htop Hne) as (t' & Hin & Heq).
  apply (Hdisj (rootOf top)).
  - rewrite <- Heq. by apply elem_of_roots.
  - simpl. by right.
Qed.

Lemma isRoot_true n d : isRoot n d = true ↔ n ∈ rootOf <$> forest d.
Proof. unfold isRoot. by rewrite bool_decide_eq_true. Qed.

(** What [remove] keeps: distinct identities, the identities themselves
    and the roots; and the node has become a root. *)
Lemma remove_frame n d :
  NoDup (forestIds (forest d)) →
  n ∈ forestIds (forest d) →
  NoDup (forestIds (forest (remove n d))) ∧
  forestIds (forest (remove n d)) ≡ₚ forestIds (forest d) ∧
  n ∈ rootOf <$> forest (remove n d) ∧
  ∀ x, x ∈ rootOf <$> forest d → x ∈ rootOf <$> forest (remove n d).
Proof.
  intros Hdistinct Hn. unfold remove.
  destruct (isRoot n d) eqn:Hroot.
  { apply isRoot_true in Hroot. by split_and!. }
  assert (n ∉ rootOf <$> forest d) as Hnot.
  { intros ?%isRoot_true. congruence. }
  destruct (subtreeAt_is_Some _ _ Hn) as [t Ht]. rewrite Ht. simpl.
  destruct (subtreeAt_Some _ _ _ Ht) as [Hrt _].
  assert (forestIds (removeNode n (forest d) ++ [t]) ≡ₚ forestIds (forest d))
    as Hperm.
  { rewrite forestIds_app. simpl. rewrite app_nil_r.
    by rewrite (removeNode_split _ _ _ Hdistinct Ht). }
  split_and!; [by rewrite Hperm|done| |].
  - rewrite fmap_app, elem_of_app. right. simpl. rewrite Hrt. left.
  - intros x Hx. rewrite fmap_app, elem_of_app. left.
    by rewrite removeNode_roots.
Qed.

(** What [replaceWith] keeps when the replacement is a childless root:
    distinct identities, the identities themselves and the roots other
    than the replacement; and the node has become a root. *)
Lemma replaceWith_frame n other d :
  NoDup (forestIds (forest d)) →
  n ∈ forestIds (forest d) →
  Node other [] ∈ forest d →
  NoDup (forestIds (forest (replaceWith n other d))) ∧
  forestIds (forest (replaceWith n other d)) ≡ₚ forestIds (forest d) ∧
  n ∈ rootOf <$> forest (replaceWith n other d) ∧
  ∀ x, x ∈ rootOf <$> forest d → x ≠ other →
       x ∈ rootOf <$> forest (replaceWith n other d).
Proof.
  intros Hdistinct Hn Hother. unfold replaceWith.
  destruct (isRoot n d) eqn:Hroot.
  { apply isRoot_true in Hroot. by split_and!. }
  assert (n ∉ rootOf <$> forest d) as Hnot.
  { intros ?%isRoot_true. congruence. }
  assert (n ≠ other) as Hne.
  { intros ->. apply Hnot.
    by apply (list_elem_of_fmap_2' rootOf _ (Node other [])). }
  pose proof (subtreeAt_top _ _ Hdistinct Hother) as Ho. simpl in Ho.
  rewrite Ho.
  pose proof (removeNode_split _ _ _ Hdistinct Ho) as Hperm. simpl in Hperm.
  assert (NoDup (forestIds (removeNode other (forest d)))) as Hdistinct'.
  { rewrite Hperm in Hdistinct. by apply NoDup_app in Hdistinct as (? & _). }
  assert (n ∈ forestIds (removeNode other (forest d))) as Hn'.
  { rewrite Hperm, elem_of_app, elem_of_cons, elem_of_nil in Hn.
    destruct Hn as [?|[?|[]]]; [done|congruence]. }
  destruct (subtreeAt_is_Some _ _ Hn') as [t Ht]. rewrite Ht. simpl.
  destruct (subtreeAt_Some _ _ _ Ht) as [Hrt _].
  assert (n ∉ rootOf <$> removeNode other (forest d)) as Hnot'.
  { intros ?%removeNode_roots_subset. done. }
  assert (forestIds ((replaceChild n (Node other []) <$>
                        removeNode other (forest d)) ++ [t])
          ≡ₚ forestIds (forest d)) as Hperm'.
  { rewrite replaceChild_replaceIn by done.
    rewrite forestIds_app. simpl. rewrite app_nil_r.
    rewrite (replaceIn_split _ _ _ _ Hdistinct' Ht). by rewrite Hperm. }
  split_and!; [by rewrite Hperm'|done| |].
  - rewrite fmap_app, elem_of_app. right. simpl. rewrite Hrt. left.
  - intros x (top & -> & Htop)%list_elem_of_fmap Hx.
    rewrite fmap_app, elem_of_app. left. rewrite replaceChild_roots.
    destruct (removeNode_keeps_root other _ top Htop Hx) as (t' & Hin & <-).
    by apply list_elem_of_fmap_2.
Qed.

Lemma gather_keeps_root nodes acc r :
  r ∈ rootOf <$> acc.2 → r ∉ nodes →
  r ∈ rootOf <$> (foldl moveInto acc nodes).2.
Proof.
  revert acc. induction nodes as [|m nodes IH]; intros acc Hr Hnot; [done|].
  apply not_elem_of_cons in Hnot as [Hne Hnot]. simpl. apply IH; [|done].
  destruct acc as [fragment rest]. unfold moveInto. simpl in *.
  destruct (subtreeAt m (fragment ++ rest)) as [s|]; [|done]. simpl.
  apply list_elem_of_fmap in Hr as (t & -> & Ht).
  destruct (removeNode_keeps_root m rest t Ht Hne) as (t' & Hin & <-).
  by apply list_elem_of_fmap_2.
Qed.

Lemma gather_keeps_leaf nodes acc c :
  Node c [] ∈ acc.2 → c ∉ nodes →
  Node c [] ∈ (foldl moveInto acc nodes).2.
Proof.
  revert acc. induction nodes as [|m nodes IH]; intros acc Hc Hnot; [done|].
  apply not_elem_of_cons in Hnot as [Hne Hnot]. simpl. apply IH; [|done].
  destruct acc as [fragment rest]. unfold moveInto. simpl in *.
  destruct (subtreeAt m (fragment ++ rest)); [|done]. simpl.
  by apply removeNode_keeps_leaf.
Qed.

Lemma appendKids_roots p kids (ts : list Tree) :
  rootOf <$> (appendKids p kids <$> ts) = rootOf <$> ts.
Proof.
  induction ts as [|[id ks] ts IH]; [done|].
  by rewrite appendKids_cons, !fmap_cons, IH.
Qed.

Lemma appendKids_keeps_leaf p kids (ts : list Tree) c :
  Node c [] ∈ ts → c ≠ p → Node c [] ∈ appendKids p kids <$> ts.
Proof.
  intros Hin Hne. apply list_elem_of_fmap. exists (Node c []).
  split; [|done]. simpl. by rewrite decide_False.
Qed.

(** What [append] under a childless root keeps: distinct identities, the
    identities themselves, and the roots and childless roots that are
    not moved. *)
Lemma append_frame parent nodes d :
  NoDup (forestIds (forest d)) →
  Node parent [] ∈ forest d →
  parent ∉ nodes →
  NoDup (forestIds (forest (append parent nodes d))) ∧
  forestIds (forest (append parent nodes d)) ≡ₚ forestIds (forest d) ∧
  (∀ r, r ∈ rootOf <$> forest d → r ∉ nodes →
        r ∈ rootOf <$> forest (append parent nodes d)) ∧
  (∀ c, Node c [] ∈ forest d → c ∉ nodes → c ≠ parent →
        Node c [] ∈ forest (append parent nodes d)).
Proof.
  intros Hdistinct Hparent Hnot. unfold append, gather.
  destruct (gather_roots (forest d) parent Hdistinct nodes ([], forest d))
    as [[Hperm Hleaf] _]; [by split|done|].
  pose proof (gather_keeps_root nodes ([], forest d)) as Hroots.
  pose proof (gather_keeps_leaf nodes ([], forest d)) as Hleaves.
  destruct (foldl moveInto ([], forest d) nodes) as [fragment rest].
  simpl in *.
  assert (NoDup (forestIds (fragment ++ rest))) as Hdistinct_g
    by (by rewrite Hperm).
  rewrite forestIds_app in Hdistinct_g.
  apply NoDup_app in Hdistinct_g as (_ & _ & Hrest).
  destruct (appendKids_leaf parent fragment rest Hrest Hleaf)
    as [_ Hperm'].
  assert (forestIds (appendKids parent fragment <$> rest)
          ≡ₚ forestIds (forest d)) as Hids.
  { by rewrite Hperm', (comm (++)), <- forestIds_app. }
  split_and!; [by rewrite Hids|done| |].
  - intros r Hr Hnode. rewrite appendKids_roots. by apply Hroots.
  - intros c Hc Hnode Hne. apply appendKids_keeps_leaf; [|done].
    by apply Hleaves.
Qed.

Section IsolatorFrame.
Context `{Url.Api} `{StandardCss}.

(** What [getSandboxedElement] leaves alone: identities stay distinct,
    none is lost, a root that was not passed in is still a root, and the
    container is a new childless root. *)
Lemma getSandboxedElement_frame contents baseUrl d :
  NoDup (forestIds (forest d)) →
  (∀ n, n ∈ asArray contents → n ∈ forestIds (forest d)) →
  ∃ container d',
    getSandboxedElement contents baseUrl d = (container, d') ∧
    NoDup (forestIds (forest d')) ∧
    (∀ n, n ∈ forestIds (forest d) → n ∈ forestIds (forest d')) ∧
    (∀ r, r ∈ rootOf <$> forest d → r ∉ asArray contents →
          r ∈ rootOf <$> forest d') ∧
    Node container [] ∈ forest d' ∧
    container ∉ forestIds (forest d).
Proof.
  intros Hdistinct Hexist.
  destruct (organize_setup contents d Hdistinct Hexist)
    as (container & css & shadow & dc & Horganize & Hforest & _ & _ &
        Hnew & _).
  set (nodes := css :: filter (isHeadKind d) (asArray contents) ++
                       filter (isBodyKind d) (asArray contents)) in *.
  assert (forestIds (forest dc) =
          forestIds (forest d) ++ [container; css; shadow]) as Hids.
  { rewrite Hforest, forestIds_app. done. }
  apply NoDup_app in Hnew as (_ & Hdisj & Hthree).
  rewrite !NoDup_cons, !not_elem_of_cons in Hthree.
  assert (container ∉ forestIds (forest d)) as Hc.
  { intros ?. eapply Hdisj; [done|]. left. }
  assert (css ∉ forestIds (forest d)) as Hcss.
  { intros ?. eapply Hdisj; [done|]. right. left. }
  assert (shadow ∉ forestIds (forest d)) as Hs.
  { intros ?. eapply Hdisj; [done|]. right. right. left. }
  assert (∀ n, n ∈ nodes → n = css ∨ n ∈ asArray contents) as Hnodes.
  { intros n [->|[[_ ?]%list_elem_of_filter|[_ ?]%list_elem_of_filter]
                   %elem_of_app]%elem_of_cons; auto. }
  assert (NoDup (forestIds (forest dc))) as Hdistinct_c.
  { rewrite Hids. apply NoDup_app. split_and!; [done|done|].
    rewrite !NoDup_cons, !not_elem_of_cons. tauto. }
  destruct (append_frame shadow nodes dc Hdistinct_c)
    as (Hdistinct1 & Hperm & Hroots & Hleaves).
  { rewrite Hforest, elem_of_app. right. right. right. left. }
  { intros [->|Hin]%Hnodes; [tauto|]. by apply Hs, Hexist. }
  set (d1 := append shadow nodes dc) in *.
  destruct (resolveIn_fold (Url.folderOf baseUrl)
              (getElements selReferences shadow d1) d1
              (getElements_NoDup _ _ _ Hdistinct1)) as (Hforest' & _).
  exists container, (foldl (resolveIn (Url.folderOf baseUrl)) d1
                       (getElements selReferences shadow d1)).
  rewrite Hforest'. split_and!; [|done| | | |done].
  - by apply getSandboxedElement_organize.
  - intros n Hn. rewrite Hperm, Hids, elem_of_app. by left.
  - intros r Hr Hnot. apply Hroots.
    + rewrite Hforest, fmap_app, elem_of_app. by left.
    + intros [->|Hin]%Hnodes; [|done]. apply Hcss.
      apply list_elem_of_fmap in Hr as (t & -> & Ht). by apply elem_of_roots.
  - apply Hleaves.
    + rewrite Hforest, elem_of_app. right. left.
    + intros [->|Hin]%Hnodes; [tauto|]. by apply Hc, Hexist.
    + tauto.
Qed.

End IsolatorFrame.

Lemma getElements_not_root selector container d n :
  NoDup (forestIds (forest d)) →
  n ∈ getElements selector container d →
  n ∉ rootOf <$> forest d.
Proof.
  intros Hdistinct (t & p & Ht & Hin & _)%elem_of_getElements.
  apply (below_not_root container (forest d) t); [done..|].
  rewrite <- descendantPairs_fst.
  by apply (list_elem_of_fmap_2' fst _ (n, p)).
Qed.

Lemma elem_of_forestIds n ts :
  n ∈ forestIds ts ↔ ∃ t, t ∈ ts ∧ n ∈ treeIds t.
Proof.
  unfold forestIds. rewrite list_elem_of_In, in_flat_map.
  by setoid_rewrite list_elem_of_In.
Qed.

Lemma root_in_forest r (ts : list Tree) :
  r ∈ rootOf <$> ts → r ∈ forestIds ts.
Proof. intros (t & -> & Ht)%list_elem_of_fmap. by apply elem_of_roots. Qed.

Section RemoteProperties.
Context `{Url.Api} `{Host} {S : ForeignDocumentSanitizer} `{StandardCss}
        {W : Type} `{Transport W}.

Lemma getReelFromUrl_frame url w d outcome w' d' :
  addsOnly S →
  NoDup (forestIds (forest d)) →
  getReelFromUrl url w d = (outcome, w', d') →
  NoDup (forestIds (forest d')) ∧ ∀ t, t ∈ forest d → t ∈ forest d'.
Proof.
  intros Hadds Hdistinct. unfold getReelFromUrl, getDocumentFromUrl.
  destruct (getHttpContent url 0 w) as [[result|] w1].
  - destruct (sanitizer_read (text result) (Url.folderOf url) d)
      as [doc d1] eqn:Hread.
    destruct (Hadds _ _ _ _ _ Hread Hdistinct) as [Hdistinct1 Htrees].
    destruct doc as [doc|]; [|by intros [= <- <- <-]].
    destruct (documentHead doc d1); by intros [= <- <- <-].
  - by intros [= <- <- <-].
Qed.

(** What reading a poster leaves alone: identities stay distinct, none is
    lost, roots stay roots; the poster is a new childless root. *)
Lemma getPosterFromUrl_frame reelUrl w d result w' d' :
  addsOnly S →
  NoDup (forestIds (forest d)) →
  getPosterFromUrl reelUrl w d = (Returned result, w', d') →
  NoDup (forestIds (forest d')) ∧
  (∀ n, n ∈ forestIds (forest d) → n ∈ forestIds (forest d')) ∧
  (∀ r, r ∈ rootOf <$> forest d → r ∈ rootOf <$> forest d') ∧
  (∀ poster, result = Some poster →
     Node poster [] ∈ forest d' ∧ poster ∉ forestIds (forest d)).
Proof.
  intros Hadds Hdistinct. unfold getPosterFromUrl.
  destruct (getReelFromUrl reelUrl w d) as [[[[reel|]|] w1] d1] eqn:Hreel;
    [| |done].
  all: destruct (getReelFromUrl_frame _ _ _ _ _ _ Hadds Hdistinct Hreel)
    as [Hdistinct1 Htrees].
  all: assert (∀ n, n ∈ forestIds (forest d) → n ∈ forestIds (forest d1))
    as Hids
    by (intros n (t & Ht & Hn)%elem_of_forestIds;
        apply elem_of_forestIds; eauto).
  all: assert (∀ r, r ∈ rootOf <$> forest d → r ∈ rootOf <$> forest d1)
    as Hroots
    by (intros r (t & -> & Ht)%list_elem_of_fmap;
        apply list_elem_of_fmap_2; auto).
  2:{ intros [= <- <- <-]. by split_and!. }
  destruct (Reel.sections reel) as [|first others] eqn:Hsections.
  { intros [= <- <- <-]. by split_and!. }
  destruct (getReelFromUrl_Some _ _ _ _ _ _ Hreel)
    as (docHead & _ & _ & Hsec & _ & Hhead).
  assert (∀ n, n ∈ Reel.head reel ++ [first] →
               n ∈ forestIds (forest d1) ∧ n ∉ rootOf <$> forest d1)
    as Hcontents.
  { intros n [Hn|[->|[]%elem_of_nil]%elem_of_cons]%elem_of_app.
    - rewrite Hhead in Hn. apply list_elem_of_filter in Hn as [_ Hn].
      split; [by eapply getElements_in_forest|
              by eapply getElements_not_root].
    - assert (first ∈ getElements selBodySections (Reel.document reel) d1)
        as Hfirst by (rewrite <- Hsec, Hsections; left).
      split; [by eapply getElements_in_forest|
              by eapply getElements_not_root]. }
  destruct (getSandboxedElement_frame
              (ElementArray (Reel.head reel ++ [first])) (Reel.url reel) d1
              Hdistinct1)
    as (container & d2 & -> & Hdistinct2 & Hids2 & Hroots2 & Hleaf & Hnew).
  { intros n Hn. by apply Hcontents. }
  intros [= <- <- <-]. split_and!; [done|auto| |].
  - intros r Hr. apply Hroots2; [auto|]. intros Hn.
    apply Hcontents in Hn as [_ Hn]. auto.
  - intros poster [= <-]. split; [done|]. auto.
Qed.

Lemma resolveEach_detaches remoteSections documentUrl w d w' d' :
  addsOnly S →
  NoDup (forestIds (forest d)) →
  (∀ r, r ∈ remoteSections → r ∈ forestIds (forest d)) →
  resolveEach remoteSections documentUrl w d = (Returned tt, w', d') →
  NoDup (forestIds (forest d')) ∧
  (∀ r, r ∈ rootOf <$> forest d → r ∈ rootOf <$> forest d') ∧
  (∀ r, r ∈ remoteSections → r ∈ rootOf <$> forest d').
Proof.
  intros Hadds. revert w d.
  induction remoteSections as [|remoteSection rest IH];
    intros w d Hdistinct Hin.
  { intros [= <- <-]. split_and!; [done..|]. by intros r ?%elem_of_nil. }
  assert (∀ w0 d0,
    NoDup (forestIds (forest d0)) →
    (∀ n, n ∈ forestIds (forest d) → n ∈ forestIds (forest d0)) →
    (∀ r, r ∈ rootOf <$> forest d → r ∈ rootOf <$> forest d0) →
    resolveEach rest documentUrl w0 (remove remoteSection d0)
      = (Returned tt, w', d') →
    NoDup (forestIds (forest d')) ∧
    (∀ r, r ∈ rootOf <$> forest d → r ∈ rootOf <$> forest d') ∧
    (∀ r, r ∈ remoteSection :: rest → r ∈ rootOf <$> forest d'))
    as Hremoved.
  { intros w0 d0 Hdistinct0 Hids0 Hroots0 Hloop.
    destruct (remove_frame remoteSection d0 Hdistinct0)
      as (Hdistinct1 & Hperm & Hroot & Hroots1).
    { apply Hids0, Hin. left. }
    assert (∀ r, r ∈ rest → r ∈ forestIds (forest (remove remoteSection d0)))
      as Hin1.
    { intros r Hr. rewrite Hperm. apply Hids0, Hin. by right. }
    destruct (IH _ _ Hdistinct1 Hin1 Hloop) as (Hdistinct' & Hroots' & Hrest).
    split_and!; [done|auto|].
    intros r [->|Hr]%elem_of_cons; auto. }
  cbn [resolveEach].
  destruct (truthy (getRemoteSectionSource remoteSection documentUrl d));
    cbn [negb]; [|by apply Hremoved].
  destruct (getPosterFromUrl _ w d) as [[[[poster|]|] w1] d1] eqn:Hposter;
    [| |done].
  all: destruct (getPosterFromUrl_frame _ _ _ _ _ _ Hadds Hdistinct Hposter)
    as (Hdistinct1 & Hids1 & Hroots1 & Hnew).
  2:{ by apply Hremoved. }
  destruct (Hnew poster eq_refl) as [Hleaf Hfresh].
  destruct (replaceWith_frame remoteSection poster d1 Hdistinct1)
    as (Hdistinct2 & Hperm & Hroot & Hroots2); [|done|].
  { apply Hids1, Hin. left. }
  intros Hloop.
  assert (∀ r, r ∈ rest →
               r ∈ forestIds (forest (replaceWith remoteSection poster d1)))
    as Hin2.
  { intros r Hr. rewrite Hperm. apply Hids1, Hin. by right. }
  destruct (IH _ _ Hdistinct2 Hin2 Hloop) as (Hdistinct' & Hroots' & Hrest).
  split_and!; [done| |].
  - intros r Hr. apply Hroots', Hroots2; [auto|].
    intros ->. by apply Hfresh, root_in_forest.
  - intros r [->|Hr]%elem_of_cons; auto.
Qed.

(** X21. Once [resolveRemoteSections] has returned, every remote section
    it found has left the tree: it has no parent any more, and so it is
    not below the container, whether a poster took its place or not. *)
Theorem resolveRemoteSections_detaches container documentUrl w d w' d' :
  addsOnly S →
  NoDup (forestIds (forest d)) →
  resolveRemoteSections container documentUrl w d = (Returned tt, w', d') →
  NoDup (forestIds (forest d')) ∧
  ∀ r, r ∈ getRemoteSectionElements container d →
       isRoot r d' = true ∧ r ∉ below container d'.
Proof.
  intros Hadds Hdistinct Hrun. unfold resolveRemoteSections in Hrun.
  assert (∀ r, r ∈ getRemoteSectionElements container d →
               r ∈ forestIds (forest d)) as Hin.
  { intros r Hr. by eapply getElements_in_forest. }
  destruct (resolveEach_detaches _ _ _ _ _ _ Hadds Hdistinct Hin Hrun)
    as (Hdistinct' & _ & Hroots).
  split; [done|]. intros r Hr. apply Hroots in Hr.
  split; [by apply isRoot_true|]. unfold below.
  destruct (subtreeAt container (forest d')) as [t|] eqn:Ht;
    [|apply not_elem_of_nil].
  intros Hbelow. by apply (below_not_root _ _ _ _ Hdistinct' Ht Hbelow).
Qed.

End RemoteProperties.

(** ** The further properties on the sample sites *)

Ltac each_listed :=
  let n := fresh "n" in
  let Hn := fresh "Hn" in
  intros n Hn; apply list_elem_of_In in Hn; simpl in Hn;
  repeat (destruct Hn as [<-|Hn]; [compute_done|]); destruct Hn.

Lemma feedLines_resume_witness :
  @feedLines Sample.url FeedCase.feedUrl (FeedCase.body ++ js "c.html") =
    @feedLines Sample.url FeedCase.feedUrl FeedCase.body ++
    @feedLines Sample.url FeedCase.feedUrl (js "c.html").
Proof.
  apply (@feedLines_resume Sample.url FeedCase.feedUrl FeedCase.body
           (js "c.html")).
  reflexivity.
Defined.

Lemma feedLines_comment_line_witness :
  @feedLines Sample.url FeedCase.feedUrl
    (js "a.html" ++ 10%N :: js " #note " ++ 10%N :: js "b.html") =
  @feedLines Sample.url FeedCase.feedUrl (js "a.html" ++ 10%N :: js "b.html").
Proof.
  apply (@feedLines_comment_line Sample.url FeedCase.feedUrl (js "a.html")
           (js " #note ") (js "b.html")).
  - compute_done.
  - right. reflexivity.
Defined.

Lemma getFeedMetaData_never_empty_witness :
  js "specific" ≠ [] ∨ js "icon.png" ≠ [].
Proof.
  apply (@getFeedMetaData_never_empty Sample.url Sample.host MetaCase.reader
           _ MetaCase.served MetaCase.feedUrl []
           {| description := js "specific"; icon := js "icon.png" |}
           [js "https://x/a/b/"; js "https://x/a/"]).
  reflexivity.
Defined.

Lemma getFeedsFromDocument_subscribable_witness :
  ∃ link el,
    link ∈ getElements selFeedLinks ReelCase.doc ReelCase.dom ∧
    elementOf ReelCase.dom !! link = Some el ∧
    getAttribute el (js "href") = Some (js "f.txt") ∧
    (false = true ↔
     ∃ v, getAttribute el (js "type") = Some v ∧
          @toLowerCase Sample.host v = js "text/feed") ∧
    (getAttribute el (js "type") = None → false = false) ∧
    (∀ v, getAttribute el (js "type") = Some v →
          JsString.isAscii v →
          JsString.asciiLower <$> v = js "text/feed" →
          false = true).
Proof.
  apply (@getFeedsFromDocument_subscribable Sample.host ReelCase.doc
           ReelCase.dom
           {| subscribable := false; visible := false; href := js "f.txt" |}).
  vm_compute. left.
Defined.

Lemma getReelFromUrl_not_fetched_witness :
  @getReelFromUrl Sample.url Sample.host ReelCase.parser _ (Sample.site [])
    ReelCase.reelUrl [] ReelCase.emptyDom =
    (Returned None, [ReelCase.reelUrl], ReelCase.emptyDom).
Proof.
  apply (@getReelFromUrl_not_fetched Sample.url Sample.host ReelCase.parser _
           (Sample.site []) ReelCase.reelUrl [] ReelCase.emptyDom
           [ReelCase.reelUrl]).
  reflexivity.
Defined.

Lemma getReelFromUrl_head_excludes_feeds_witness :
  let head := [ReelCase.styleLink; ReelCase.style] in
  let feeds :=
    [{| subscribable := false; visible := false; href := js "f.txt" |};
     {| subscribable := false; visible := true; href := js "g.txt" |}] in
  (∀ link el h,
     link ∈ getElements selFeedLinks ReelCase.doc ReelCase.dom →
     elementOf ReelCase.dom !! link = Some el →
     getAttribute el (js "href") = Some h →
     h ≠ [] →
     link ∉ head) ∧
  (∀ node el info,
     node ∈ head →
     elementOf ReelCase.dom !! node = Some el →
     info ∈ feeds →
     getAttribute el (js "href") ≠ Some (href info)).
Proof.
  refine (@getReelFromUrl_head_excludes_feeds Sample.url Sample.host
            ReelCase.parser _ ReelCase.served ReelCase.reelUrl []
            ReelCase.emptyDom
            {| Reel.url := ReelCase.reelUrl; Reel.document := ReelCase.doc;
               Reel.head := [ReelCase.styleLink; ReelCase.style];
               Reel.feeds :=
                 [{| subscribable := false; visible := false;
                     href := js "f.txt" |};
                  {| subscribable := false; visible := true;
                     href := js "g.txt" |}];
               Reel.sections := [ReelCase.poster; ReelCase.second] |}
            [ReelCase.reelUrl] ReelCase.dom _).
  reflexivity.
Defined.

Lemma resolveAttributes_idempotent_witness :
  let e := Sample.element (js "IMG") [(js "src", js "p.png")] in
  @resolveAttributes Sample.url (js "https://x/r/")
    (@resolveAttributes Sample.url (js "https://x/r/") e) =
  @resolveAttributes Sample.url (js "https://x/r/") e.
Proof.
  apply (@resolveAttributes_idempotent Sample.url (js "https://x/r/")
           (Sample.element (js "IMG") [(js "src", js "p.png")])).
  intros value. cbn [Url.resolve Sample.url].
  destruct (Sample.hasScheme value) eqn:Hscheme; [by rewrite Hscheme|].
  assert (Sample.hasScheme (js "https://x/r/" ++ value) = true) as ->; [|done].
  apply bool_decide_eq_true_2, elem_of_app. left. compute_done.
Defined.

Lemma getSandboxedElement_children_witness :
  let contents :=
    ElementArray [ReelCase.poster; ReelCase.styleLink; ReelCase.style] in
  ∃ container d' css,
    @getSandboxedElement Sample.url Sample.css contents ReelCase.reelUrl
      ReelCase.dom = (container, d') ∧
    ¬ (css ∈ forestIds (forest ReelCase.dom)) ∧
    shadowChildren container d' =
      css :: filter (isHeadKind ReelCase.dom) (asArray contents) ++
             filter (isBodyKind ReelCase.dom) (asArray contents).
Proof.
  apply (@getSandboxedElement_children Sample.url Sample.css
           (ElementArray [ReelCase.poster; ReelCase.styleLink; ReelCase.style])
           ReelCase.reelUrl ReelCase.dom).
  - compute_done.
  - compute_done.
  - each_listed.
Defined.

Lemma getSandboxedElement_nothing_kept_witness :
  let contents := ElementArray [ReelCase.image; ReelCase.anchor] in
  ∃ container css shadow d',
    @getSandboxedElement Sample.url Sample.css contents ReelCase.reelUrl
      ReelCase.dom = (container, d') ∧
    forest d' =
      forest ReelCase.dom ++ [Node container []; Node shadow [Node css []]] ∧
    shadowRootOf d' = <[container := shadow]> (shadowRootOf ReelCase.dom) ∧
    (∀ n e, elementOf ReelCase.dom !! n = Some e →
            elementOf d' !! n = Some e).
Proof.
  apply (@getSandboxedElement_nothing_kept Sample.url Sample.css
           (ElementArray [ReelCase.image; ReelCase.anchor])
           ReelCase.reelUrl ReelCase.dom).
  - compute_done.
  - each_listed.
  - each_listed.
Defined.

Lemma getFeedUrl_first_feed_witness :
  @getFeedUrl Sample.url PageCase.html ReelCase.doc ReelCase.dom =
    match @getFeedsFromDocument Sample.host ReelCase.doc ReelCase.dom with
    | [] => []
    | info :: _ => @Url.resolve Sample.url (href info) (@Url.getCurrent Sample.url)
    end.
Proof.
  apply (@getFeedUrl_first_feed Sample.url Sample.host PageCase.html
           ReelCase.doc ReelCase.dom).
  - reflexivity.
  - intros link e Hlink. apply list_elem_of_In in Hlink. vm_compute in Hlink.
    destruct Hlink as [<-|[<-|[]]]; intros [= <-]; vm_compute; discriminate.
Defined.

(** Where the first feed link is not an HTML element the feed address is
    empty, although a feed is declared. *)
Example getFeedUrl_foreign_link :
  @getFeedUrl Sample.url PageCase.foreignLink ReelCase.doc ReelCase.dom = [] ∧
  (href <$> @getFeedsFromDocument Sample.host ReelCase.doc ReelCase.dom)
    = [js "f.txt"; js "g.txt"].
Proof. split; reflexivity. Qed.

Lemma getPosterFromUrl_children_witness :
  ∃ container d' css,
    @getPosterFromUrl Sample.url Sample.host ReelCase.parser Sample.css _
      ReelCase.served ReelCase.reelUrl [] ReelCase.emptyDom =
      (Returned (Some container), [ReelCase.reelUrl], d') ∧
    ¬ (css ∈ forestIds (forest ReelCase.dom)) ∧
    shadowChildren container d' =
      css :: [ReelCase.styleLink; ReelCase.style] ++ [ReelCase.poster].
Proof.
  refine (@getPosterFromUrl_children Sample.url Sample.host ReelCase.parser
            Sample.css _ ReelCase.served ReelCase.reelUrl [] ReelCase.emptyDom
            {| Reel.url := ReelCase.reelUrl; Reel.document := ReelCase.doc;
               Reel.head := [ReelCase.styleLink; ReelCase.style];
               Reel.feeds :=
                 [{| subscribable := false; visible := false;
                     href := js "f.txt" |};
                  {| subscribable := false; visible := true;
                     href := js "g.txt" |}];
               Reel.sections := [ReelCase.poster; ReelCase.second] |}
            [ReelCase.reelUrl] ReelCase.dom ReelCase.poster [ReelCase.second]
            _ _ _).
  - reflexivity.
  - reflexivity.
  - compute_done.
Defined.

Lemma postersNext_requests_witness :
  let run :=
    @postersNext Sample.url Sample.host ReelCase.parser Sample.css _
      (recording StreamCase.served)
      (getPostersFromFeed StreamCase.feedUrl) ([], []) ReelCase.emptyDom in
  ∃ skipped rest,
    urls (@getFeedFromUrl Sample.url _ (recording StreamCase.served)
            StreamCase.feedUrl 0 ([], [])).1 =
      skipped ++ js "https://x/r/index.html" :: rest ∧
    PostersLoop [js "https://x/later.html"] = PostersLoop rest ∧
    run.1.2.2.*1 =
      [] ++
      @Url.resolve Sample.url StreamCase.feedUrl (@Url.getCurrent Sample.url) ::
      ((λ u, @Url.resolve Sample.url u (@Url.getCurrent Sample.url)) <$>
         skipped ++ [js "https://x/r/index.html"]).
Proof.
  intros run.
  apply (@postersNext_requests Sample.url Sample.host ReelCase.parser
           Sample.css _ StreamCase.served StreamCase.feedUrl [] []
           ReelCase.emptyDom
           {| poster := 15%positive; url := js "https://x/r/index.html" |}
           (PostersLoop [js "https://x/later.html"])
           run.1.2.1 run.1.2.2 run.2).
  vm_compute. reflexivity.
Defined.

Lemma bareParser_addsOnly : addsOnly RemoteCase.bareParser.
Proof.
  intros markup base d doc d' [= <- <-] Hdistinct. simpl. split.
  - rewrite forestIds_app. simpl. apply NoDup_app. split_and!; [done| |].
    + intros n Hn [->|[]%elem_of_nil]%elem_of_cons.
      by apply (newNode_fresh d).
    + apply NoDup_singleton.
  - intros t Ht. apply elem_of_app. by left.
Qed.

Lemma resolveRemoteSections_detaches_witness :
  let run :=
    @resolveRemoteSections Sample.url Sample.host RemoteCase.bareParser
      Sample.css _ RemoteCase.offline RemoteCase.body RemoteCase.pageUrl []
      RemoteCase.dom in
  NoDup (forestIds (forest run.2)) ∧
  ∀ r, r ∈ getRemoteSectionElements RemoteCase.body RemoteCase.dom →
       isRoot r run.2 = true ∧ r ∉ below RemoteCase.body run.2.
Proof.
  intros run.
  apply (@resolveRemoteSections_detaches Sample.url Sample.host
           RemoteCase.bareParser Sample.css _ RemoteCase.offline
           RemoteCase.body RemoteCase.pageUrl [] RemoteCase.dom
           run.1.2 run.2).
  - apply bareParser_addsOnly.
  - compute_done.
  - reflexivity.
Defined.

(** The sample page resolved against a site that serves the remote
    section: the poster stands where the section stood, the section
    without a source is gone, and both are roots of their own. *)
Example resolveRemoteSections_sample :
  let run :=
    @resolveRemoteSections Sample.url Sample.host RemoteCase.parser
      Sample.css _ RemoteCase.served RemoteCase.body RemoteCase.pageUrl []
      RemoteCase.dom in
  run.1 = (Returned tt, [js "https://host/r/index.html"]) ∧
  subtreeAt RemoteCase.body (forest run.2) =
    Some (Node RemoteCase.body
            [Node 12%positive [];
             Node RemoteCase.plainSection [Node 5%positive []]]) ∧
  shadowChildren 12%positive run.2 = [13%positive; 9%positive; 11%positive] ∧
  isRoot RemoteCase.remote run.2 = true ∧
  isRoot RemoteCase.unsourced run.2 = true.
Proof. vm_compute. split_and!; reflexivity. Qed.
